(** * Reconfiguration core of rdk: suffix trie, resource index, config diff

    A shallow embedding of
      - utils/rtrie/rtrie.go              (module [rtrie]),
      - resource/resource_graph_storage.go (module [resource]),
      - config/diff.go                     (module [config]),
      - the transform pipeline camera of package transformpipeline
                                           (module [transformpipeline]),
    together with the properties stated about them.

    Conventions of the embedding.
      - A Go [string] is a sequence of bytes: [string] of 8-bit [ascii].
      - A Go [map[K]V] is a [gmap K V]; [range] over a map visits the entries
        in an unspecified order.
      - Code that mutates through a pointer is written in state-passing style:
        the operation returns the new state next to its Go results.
      - A run-time panic is the outcome [Panics]. *)

From stdpp Require Import gmap strings list fin_maps sorting.
From Stdlib Require Import Ascii.
From Stdlib Require String.

#[local] Set Warnings "-register-all".
#[local] Open Scope N_scope.
#[local] Open Scope nat_scope.

(** ** Go run-time notions shared by the three packages *)

Module Go.

(** Result of a call that may end in a run-time panic. *)
Inductive outcome (A : Type) : Type :=
| Returns (a : A)
| Panics.
Arguments Returns {A} a.
Arguments Panics {A}.

Global Instance outcome_ret : MRet outcome := @Returns.
Global Instance outcome_bind : MBind outcome := λ A B k o,
  match o with
  | Returns a => k a
  | Panics => Panics
  end.

(** A Go result pair [(v, err)] of which the caller reads [v] only when
    [err == nil]. *)
Inductive result (E A : Type) : Type :=
| Ok (a : A)
| Err (e : E).
Arguments Ok {E A} a.
Arguments Err {E A} e.

Global Instance result_ret {E} : MRet (result E) := @Ok E.
Global Instance result_bind {E} : MBind (result E) := λ A B k r,
  match r with
  | Ok a => k a
  | Err e => Err e
  end.

(** [len(s)] and [s[i]] work on the bytes of the string. *)
Definition bytes (s : string) : list ascii := String.list_ascii_of_string s.
Definition of_bytes (l : list ascii) : string := String.string_of_list_ascii l.

(** The conversion [string(b)] of a [byte] [b]: as for every integer type, the
    result is the UTF-8 encoding of the code point [b]. Code points below 0x80
    are encoded by one byte, the others (up to 0xFF) by the two bytes
    [0xC0 | b>>6] and [0x80 | b&0x3F]. *)
Definition string_of_byte (b : ascii) : string :=
  let n := N_of_ascii b in
  if (n <? 128)%N then String b EmptyString
  else String (ascii_of_N (192 + n / 64))
         (String (ascii_of_N (128 + n mod 64)) EmptyString).

(** [for k, v := range m { ... }] where every iteration appends to one slice:
    the concatenation of what the iterations append. A consumer must not
    depend on the order, which Go leaves unspecified. *)
Definition rangeMap {K V A : Type} `{Countable K}
    (body : K → V → list A) (m : gmap K V) : list A :=
  map_fold (λ k v acc, acc ++ body k v) [] m.

End Go.

Import Go.

(** ** utils/rtrie: the byte-reversed trie *)

Module rtrie.

Section Trie.

(** The value type [T] of [Trie[T]] and its zero value. *)
Context {T : Type} (zero : T).

(** [type trieNode[T any] struct { children; hasContents; contents }]. Only
    non-nil children are ever stored in [children]. *)
Inductive trieNode : Type := mkNode {
  children : gmap ascii trieNode;
  hasContents : bool;
  contents : T
}.

Record Trie : Type := mkTrie { root : trieNode }.

(** [&trieNode[T]{children: make(map[byte]*trieNode[T])}] *)
Definition freshNode : trieNode := mkNode ∅ false zero.

Definition NewTrie : Trie := mkTrie freshNode.

(** A non-nil [*trieNode[T]] obtained by walking down from the root is
    represented by the path of bytes walked and the node it points to; [None]
    is the nil pointer. Writing through the pointer is [storeAt]. *)
Definition nodePtr : Type := option (list ascii * trieNode).

Definition withChild (n : trieNode) (c : ascii) (child : trieNode) : trieNode :=
  mkNode (<[c := child]> (children n)) (hasContents n) (contents n).

Fixpoint storeAt (n : trieNode) (path : list ascii) (f : trieNode → trieNode)
  : trieNode :=
  match path with
  | [] => f n
  | c :: path' =>
      match children n !! c with
      | Some child => withChild n c (storeAt child path' f)
      | None => n
      end
  end.

(** The loop of [findNode]; [bs] holds the bytes [key[len-1]], ..., [key[0]]
    still to be consumed. Returns the subtree rooted at [curr] after the
    creation of the missing children, and the node reached ([None]: the loop
    returned nil). *)
Fixpoint findNode_loop (curr : trieNode) (bs : list ascii) (create : bool)
  : trieNode * option trieNode :=
  match bs with
  | [] => (curr, Some curr)
  | char :: bs' =>
      let descend (child : trieNode) :=
        let '(child', found) := findNode_loop child bs' create in
        (withChild curr char child', found) in
      match children curr !! char with
      | None => if negb create then (curr, None) else descend freshNode
      | Some child => descend child
      end
  end.

Definition findNode (t : Trie) (key : string) (create : bool) : Trie * nodePtr :=
  if String.length key <? 1 then (t, None)
  else
    let path := reverse (bytes key) in
    let '(r, found) := findNode_loop (root t) path create in
    (mkTrie r, (λ n, (path, n)) <$> found).

Definition Trie_Get (t : Trie) (key : string) : T * bool :=
  match findNode t key false with
  | (_, None) => (zero, false)
  | (_, Some (_, node)) => (contents node, hasContents node)
  end.

(** [Set] dereferences the result of [findNode] without a nil check. *)
Definition Trie_Set (t : Trie) (key : string) (val : T)
  : outcome (Trie * (T * bool)) :=
  match findNode t key true with
  | (_, None) => Panics
  | (t', Some (path, node)) =>
      Returns (mkTrie (storeAt (root t') path
                         (λ n, mkNode (children n) true val)),
               (contents node, hasContents node))
  end.

Definition Trie_ComputeIfAbsent (t : Trie) (key : string) (compute : unit → T)
  : outcome (Trie * (T * bool)) :=
  let '(existing, ok) := Trie_Get t key in
  if ok then Returns (t, (existing, true))
  else
    let newVal := compute () in
    match Trie_Set t key newVal with
    | Returns (t', _) => Returns (t', (newVal, false))
    | Panics => Panics
    end.

Definition Trie_Delete (t : Trie) (key : string) : Trie * (T * bool) :=
  match findNode t key false with
  | (_, None) => (t, (zero, false))
  | (t', Some (path, node)) =>
      (mkTrie (storeAt (root t') path (λ n, mkNode (children n) false zero)),
       (contents node, hasContents node))
  end.

(** The loop of [FindSuffix], with the same convention for [bs]. *)
Fixpoint FindSuffix_loop (node : trieNode) (bs : list ascii) (result : list T)
  : list T :=
  match bs with
  | [] => result
  | c :: bs' =>
      match children node !! c with
      | None => result
      | Some node' =>
          FindSuffix_loop node' bs'
            (if hasContents node' then result ++ [contents node'] else result)
      end
  end.

Definition Trie_FindSuffix (t : Trie) (query : string) : list T :=
  FindSuffix_loop (root t) (reverse (bytes query)) [].

(** [walk] and [All]: the pairs handed to [yield] by a consumer that never
    stops the iteration. *)
Fixpoint walk (node : trieNode) (key : string) : list (string * T) :=
  (if hasContents node then [(key, contents node)] else []) ++
  rangeMap (λ prefix child, walk child (string_of_byte prefix +:+ key))
    (children node).

Definition Trie_All (t : Trie) : list (string * T) := walk (root t) "".

(** *** Vocabulary of the statements about the trie *)

(** The node reached from [n] along [path], if every child on the way exists. *)
Fixpoint nodeAt (n : trieNode) (path : list ascii) : option trieNode :=
  match path with
  | [] => Some n
  | c :: path' => children n !! c ≫= λ child, nodeAt child path'
  end.

Definition nodeValue (n : trieNode) : option T :=
  if hasContents n then Some (contents n) else None.

(** The value stored under [key], as [Get] reports it. *)
Definition stored (t : Trie) (key : string) : option T :=
  let '(v, ok) := Trie_Get t key in if ok then Some v else None.

(** The suffixes of [q] of length 1, 2, ..., [len(q)], in this order. *)
Definition suffixes_shortest_first (q : string) : list string :=
  (λ n, of_bytes (drop (length (bytes q) - n) (bytes q)))
    <$> seq 1 (length (bytes q)).

Definition is_suffix_of (k q : string) : Prop := ∃ p, q = p +:+ k.

(** The key that [walk] hands to [yield] for the node at [path] below a node
    it entered with [key]. *)
Definition walkKey (path : list ascii) (key : string) : string :=
  foldl (λ acc prefix, string_of_byte prefix +:+ acc) key path.

(** The strings all of whose bytes are below 0x80. *)
Definition below_0x80 (s : string) : Prop :=
  Forall (λ c, (N_of_ascii c < 128)%N) (bytes s).

(** The value held by the node at [path] below [n], if any. *)
Definition valueAt (n : trieNode) (path : list ascii) : option T :=
  nodeAt n path ≫= nodeValue.

(** What [Get] reads at [path] below [n]: the two fields of the node there,
    the zero value and [false] where there is no node. *)
Definition dataAt (n : trieNode) (path : list ascii) : T * bool :=
  match nodeAt n path with
  | Some x => (contents x, hasContents x)
  | None => (zero, false)
  end.

(** The height of a node, a measure for induction on tries. *)
Fixpoint height (n : trieNode) : nat :=
  S (map_fold (λ _ child acc, acc `max` height child) 0 (children n)).

End Trie.

(** A concrete trie of numbers: c, bc and abc stored with 1, 2 and 3. *)
Definition setOr (key : string) (v : nat) (t : @Trie nat) : @Trie nat :=
  match Trie_Set 0 t key v with
  | Returns (t', _) => t'
  | Panics => t
  end.

Definition trie_c_bc_abc : @Trie nat :=
  setOr "abc" 3 (setOr "bc" 2 (setOr "c" 1 (NewTrie 0))).

End rtrie.

(** ** resource: the index from names to graph nodes *)

Module resource.
Import rtrie.

Section ResourcesMap.

(** [resource.API] is a comparable struct; [GraphNode] stands for what a
    non-nil [*GraphNode] points to, so that a [*GraphNode] is an
    [option GraphNode]. *)
Context {API : Type} `{Countable API} {GraphNode : Type}.

Record Name : Type := mkName {
  Name_API : API;
  Name_Remote : string;
  Name_Name : string
}.

(** Modelled from the spec: [newRemoteName] is declared in resource/name.go,
    which is not among the sources; it builds the identity triple (base name,
    resource class, owning remote) from its three arguments. *)
Definition newRemoteName (remoteName : string) (api : API) (name : string)
  : Name := mkName api remoteName name.

Record graphBucket : Type := mkBucket {
  local : option GraphNode;
  remote : gmap string (option GraphNode)
}.

(** [type byAPIBucket map[API]*graphBucket]; its zero value, the nil map,
    reads like the empty map. *)
Abbreviation byAPIBucket := (gmap API graphBucket).

Record resourcesMap : Type := mkResourcesMap {
  trie : @Trie byAPIBucket
}.

(** The maps and buckets held by the trie are reference values: a mutation
    made through the variable [byName] (or through a [*graphBucket] found in
    it) is a mutation of the value stored under that key. [mutateStored]
    writes it back. The methods have value receivers, which copy the root
    node; the copy shares [children] with the original and a non-empty key
    never touches the other two fields of the root. *)
Definition mutateStored (t : @Trie byAPIBucket) (key : string)
    (byName : byAPIBucket) : @Trie byAPIBucket :=
  mkTrie (storeAt (root t) (reverse (bytes key))
            (λ n, mkNode (children n) (hasContents n) byName)).

Definition PutByName (m : resourcesMap) (name : Name) (node : option GraphNode)
  : outcome (resourcesMap * option GraphNode) :=
  match Trie_ComputeIfAbsent ∅ (trie m) (Name_Name name) (λ _, ∅) with
  | Panics => Panics
  | Returns (t, (byName, _)) =>
      let '(byAPI, byName) :=
        match byName !! Name_API name with
        | Some byAPI => (byAPI, byName)
        | None =>
            let byAPI := mkBucket None ∅ in
            (byAPI, <[Name_API name := byAPI]> byName)
        end in
      if decide (Name_Remote name = "") then
        let prev := local byAPI in
        let byAPI := mkBucket node (remote byAPI) in
        Returns (mkResourcesMap
                   (mutateStored t (Name_Name name)
                      (<[Name_API name := byAPI]> byName)),
                 prev)
      else
        let prev := default None (remote byAPI !! Name_Remote name) in
        let byAPI :=
          mkBucket (local byAPI) (<[Name_Remote name := node]> (remote byAPI)) in
        Returns (mkResourcesMap
                   (mutateStored t (Name_Name name)
                      (<[Name_API name := byAPI]> byName)),
                 prev)
  end.

Definition GetByName (m : resourcesMap) (name : Name) : option GraphNode * bool :=
  let '(byName, ok) := Trie_Get ∅ (trie m) (Name_Name name) in
  if negb ok then (None, false)
  else
    match byName !! Name_API name with
    | None => (None, false)
    | Some byNameAndAPI =>
        if decide (Name_Remote name = "") then
          (local byNameAndAPI, bool_decide (is_Some (local byNameAndAPI)))
        else
          match remote byNameAndAPI !! Name_Remote name with
          | Some result => (result, true)
          | None => (None, false)
          end
    end.

Definition DeleteByName (m : resourcesMap) (name : Name) : resourcesMap :=
  let '(byName, ok) := Trie_Get ∅ (trie m) (Name_Name name) in
  if negb ok then m
  else
    match byName !! Name_API name with
    | None => m
    | Some byNameAndAPI =>
        let byNameAndAPI :=
          if decide (Name_Remote name = "") then
            mkBucket None (remote byNameAndAPI)
          else
            mkBucket (local byNameAndAPI)
              (delete (Name_Remote name) (remote byNameAndAPI)) in
        let byName := <[Name_API name := byNameAndAPI]> byName in
        if bool_decide (local byNameAndAPI = None)
           && (size (remote byNameAndAPI) <? 1) then
          let byName := delete (Name_API name) byName in
          let t := mutateStored (trie m) (Name_Name name) byName in
          if size byName <? 1 then
            mkResourcesMap (Trie_Delete ∅ t (Name_Name name)).1
          else mkResourcesMap t
        else
          mkResourcesMap (mutateStored (trie m) (Name_Name name) byName)
    end.

(** [All]: the pairs handed to [yield] by a consumer that never stops. *)
Definition All (m : resourcesMap) : list (Name * option GraphNode) :=
  '(name, byAPI) ← Trie_All (trie m);
  rangeMap (λ api bucket,
      (newRemoteName "" api name, local bucket)
      :: rangeMap (λ remote node, [(newRemoteName remote api name, node)])
           (remote bucket))
    byAPI.

Definition Keys (m : resourcesMap) : list Name := (All m).*1.

Definition Values (m : resourcesMap) : list (option GraphNode) := (All m).*2.

Definition Copy (m : resourcesMap) : resourcesMap := mkResourcesMap (NewTrie ∅).

(** *** Vocabulary of the statements about the index *)

(** What [GetByName] answers for [name] when [byName] is what the trie holds
    under the base name ([None]: nothing). *)
Definition slotOf (byName : option byAPIBucket) (name : Name)
  : option GraphNode * bool :=
  match byName ≫= (.!! Name_API name) with
  | None => (None, false)
  | Some bucket =>
      if decide (Name_Remote name = "") then
        (local bucket, bool_decide (is_Some (local bucket)))
      else
        match remote bucket !! Name_Remote name with
        | Some result => (result, true)
        | None => (None, false)
        end
  end.

(** The class set of a base name after [node] was put in the slot of [name]. *)
Definition putSlot (byName : byAPIBucket) (name : Name)
    (node : option GraphNode) : byAPIBucket :=
  let byAPI := default (mkBucket None ∅) (byName !! Name_API name) in
  <[Name_API name :=
      if decide (Name_Remote name = "") then mkBucket node (remote byAPI)
      else mkBucket (local byAPI)
             (<[Name_Remote name := node]> (remote byAPI))]> byName.

(** The class set of a base name after the slot of [name] was cleared, [None]
    when nothing is left of it. *)
Definition clearSlot (byName : byAPIBucket) (name : Name)
  : option byAPIBucket :=
  match byName !! Name_API name with
  | None => Some byName
  | Some bucket =>
      let bucket' :=
        if decide (Name_Remote name = "") then mkBucket None (remote bucket)
        else mkBucket (local bucket)
               (delete (Name_Remote name) (remote bucket)) in
      if decide (local bucket' = None ∧ remote bucket' = ∅) then
        if decide (delete (Name_API name) byName = ∅) then None
        else Some (delete (Name_API name) byName)
      else Some (<[Name_API name := bucket']> byName)
  end.

End ResourcesMap.

(** Concrete index states, with classes and graph nodes numbered by [nat]. *)

Definition emptyIndex : @resourcesMap nat _ _ nat := mkResourcesMap (NewTrie ∅).

(** [m.PutByName(name, node)] for a non-nil [node], the previous node being
    dropped. *)
Definition put (name : @Name nat) (node : nat)
    (m : outcome (@resourcesMap nat _ _ nat)) : outcome (@resourcesMap nat _ _ nat) :=
  match m with
  | Returns m =>
      match PutByName m name (Some node) with
      | Returns (m', _) => Returns m'
      | Panics => Panics
      end
  | Panics => Panics
  end.

(** The index after a node of the remote peer was put under the name arm. *)
Definition indexWithRemoteArm : @resourcesMap nat _ _ nat :=
  match PutByName emptyIndex (mkName 7 "peer" "arm") (Some 1) with
  | Returns (m, _) => m
  | Panics => emptyIndex
  end.

(** The two-byte name 0xC3 0xA9 (the UTF-8 encoding of U+00E9) and the
    four-byte name 0xC3 0x83 0xC2 0xA9. *)
Definition name_C3_A9 : string := String "195" (String "169" "").
Definition name_C3_83_C2_A9 : string :=
  String "195" (String "131" (String "194" (String "169" ""))).

End resource.

(** ** config: the difference between two configs *)

Module config.

(** *** [diffAll] and [diffSingle] *)

Section diffAll.

(** [T equatable[T]] with its [Equals] method, [K comparable], [getKey]. *)
Context {T K : Type} `{Countable K}.
Context (Equals : T → T → bool) (getKey : T → K).

(** The order in which [for k := range leftM] visits the keys. Go leaves it
    unspecified; the embedding takes it as a parameter. *)
Context (rangeKeys : gmap K T → list K).

(** The slices behind the pointers [modified], [added], [removed] and
    [unmodified]; the last pointer may be nil. *)
Record slices : Type := mkSlices {
  modified : list T;
  added : list T;
  removed : list T;
  unmodified : option (list T)
}.

Definition diffSingle (left right : T) (modified : list T) : bool * list T :=
  if Equals left right then (false, modified)
  else (true, modified ++ [right]).

(** First loop: [leftIndex] and [leftM]. *)
Definition indexLeft (left : list T) : gmap K nat * gmap K T :=
  foldl (λ '(leftIndex, leftM) '(idx, l),
           let name := getKey l in
           (<[name := idx]> leftIndex, <[name := l]> leftM))
    (∅, ∅) (imap pair left).

(** Second loop, over [right]. *)
Fixpoint diffAll_right (right : list T) (leftM : gmap K T) (different : bool)
    (out : slices) : gmap K T * bool * slices :=
  match right with
  | [] => (leftM, different, out)
  | r :: right' =>
      let name := getKey r in
      let l_ok := leftM !! name in
      let leftM := delete name leftM in
      match l_ok with
      | Some l =>
          let '(currDifferent, modified') := diffSingle l r (modified out) in
          let different := currDifferent || different in
          let unmodified' :=
            if negb currDifferent then (λ u, u ++ [r]) <$> unmodified out
            else unmodified out in
          diffAll_right right' leftM different
            (mkSlices modified' (added out) (removed out) unmodified')
      | None =>
          diffAll_right right' leftM true
            (mkSlices (modified out) (added out ++ [r]) (removed out)
               (unmodified out))
      end
  end.

(** [sort.Ints] *)
Definition sort_Ints (a : list nat) : list nat := merge_sort (≤) a.

(** Last loop: [left[idx]] is appended to the slice behind [removed];
    indexing out of range panics. *)
Fixpoint appendRemoved (left : list T) (removedIndexes : list nat)
    (removed : list T) : outcome (list T) :=
  match removedIndexes with
  | [] => Returns removed
  | idx :: removedIndexes' =>
      match left !! idx with
      | Some l => appendRemoved left removedIndexes' (removed ++ [l])
      | None => Panics
      end
  end.

Definition diffAll (left right : list T) (out : slices) : outcome (bool * slices) :=
  let '(leftIndex, leftM) := indexLeft left in
  let '(leftM, different, out) := diffAll_right right leftM false out in
  let ks := rangeKeys leftM in
  let removedIndexes := (λ k, default 0 (leftIndex !! k)) <$> ks in
  let different := match ks with [] => different | _ :: _ => true end in
  let removedIndexes := sort_Ints removedIndexes in
  removed' ← appendRemoved left removedIndexes (removed out);
  mret (different,
        mkSlices (modified out) (added out) removed' (unmodified out)).

(** *** Vocabulary of the statements about [diffAll] *)

(** The left items, in their left order, whose key occurs neither further
    down the left side nor on the right side. *)
Fixpoint survivors (left right : list T) : list T :=
  match left with
  | [] => []
  | l :: left' =>
      (if decide ((getKey l ∉ getKey <$> left') ∧ (getKey l ∉ getKey <$> right))
       then [l] else [])
      ++ survivors left' right
  end.

(** The positions of these items, counted from [off]. *)
Fixpoint survivorIndexes (off : nat) (left right : list T) : list nat :=
  match left with
  | [] => []
  | l :: left' =>
      (if decide ((getKey l ∉ getKey <$> left') ∧ (getKey l ∉ getKey <$> right))
       then [off] else [])
      ++ survivorIndexes (S off) left' right
  end.

(** The item recorded for key [k] in a slice: the last one with that key. *)
Definition itemOf (k : K) (s : list T) : option T :=
  last (filter (λ x, getKey x = k) s).

(** What the second loop finds for a right item: [None] when its key is not in
    [leftM], otherwise whether the left item [Equals] it. *)
Definition verdict (leftM : gmap K T) (r : T) : option bool :=
  (λ l, Equals l r) <$> leftM !! getKey r.

(** How many items of a slice have key [k]. *)
Definition countKey (k : K) (s : list T) : nat :=
  length (filter (λ x, getKey x = k) s).

(** Key [k] is recorded by the item [x] in the slice [here], once, and in
    none of the slices [others]. *)
Definition recordedOnlyIn (k : K) (x : T) (here : list T)
    (others : list (list T)) : Prop :=
  x ∈ here ∧ countKey k here = 1 ∧ Forall (λ s, countKey k s = 0) others.

End diffAll.

Arguments slices : clear implicits.
Arguments mkSlices {T} _ _ _ _.

(** *** The configs and their difference *)

Section DiffConfigs.

(** The types of the config package and of the libraries it uses are declared
    outside the sources. What the code of diff.go reads or writes of them is
    spelled out below; the remaining fields of a struct are one field of an
    abstract type. *)

(** [error], and what [reflect.DeepEqual] answers on two values of a type. *)
Context {error : Type}.
Context (DeepEqual : ∀ A : Type, A → A → bool).

(** Modelled from the spec: [tls.Config] (crypto/tls) has a minimum protocol
    version and the two configured certificate-resolution callbacks, each
    returning a certificate pointer and an error. *)
Context {Certificate ClientHelloInfo CertificateRequestInfo : Type}.

Record tlsConfig : Type := mkTLSConfig {
  MinVersion : N;
  GetCertificate :
    option ClientHelloInfo → option Certificate * option error;
  GetClientCertificate :
    option CertificateRequestInfo → option Certificate * option error
}.

(** The item types of the collections with their keys and [Equals] methods. *)
Context {ResourceConfig ResourceName : Type} `{Countable ResourceName}.
Context (ResourceConfig_ResourceName : ResourceConfig → ResourceName)
        (ResourceConfig_Equals : ResourceConfig → ResourceConfig → bool).
Context {ProcessConfig : Type}
        (ProcessConfig_ID : ProcessConfig → string)
        (ProcessConfig_Equals : ProcessConfig → ProcessConfig → bool).
Context {PackageConfig : Type}
        (PackageConfig_Name : PackageConfig → string)
        (PackageConfig_Equals : PackageConfig → PackageConfig → bool).
Context {ModuleConfig : Type}
        (ModuleConfig_Name : ModuleConfig → string)
        (ModuleConfig_Equals : ModuleConfig → ModuleConfig → bool).

Context {CloudRest AttrRest HandlerRest AuthRest CredentialsRest RemoteAuthRest
         RemoteRest NetworkRest LogConfigT ConfigRest : Type}.
Context `{!Inhabited AuthRest, !Inhabited NetworkRest, !Inhabited LogConfigT,
          !Inhabited ConfigRest}.

Record LocationSecret : Type := mkLocationSecret {
  LocationSecret_ID : string;
  LocationSecret_Secret : string
}.

Record Cloud : Type := mkCloud {
  Cloud_Secret : string;
  Cloud_LocationSecret : string;
  Cloud_LocationSecrets : list LocationSecret;
  Cloud_TLSCertificate : string;
  Cloud_TLSPrivateKey : string;
  Cloud_rest : CloudRest
}.

(** A value of an attribute map: a string or anything else. *)
Inductive attrValue : Type :=
| attrString (s : string)
| attrOther (v : AttrRest).

Record AuthHandlerConfig : Type := mkAuthHandlerConfig {
  AuthHandlerConfig_Config : gmap string attrValue;
  AuthHandlerConfig_rest : HandlerRest
}.

Record AuthConfig : Type := mkAuthConfig {
  AuthConfig_Handlers : list AuthHandlerConfig;
  AuthConfig_rest : AuthRest
}.

Record Credentials : Type := mkCredentials {
  Credentials_Payload : string;
  Credentials_rest : CredentialsRest
}.

Record RemoteAuth : Type := mkRemoteAuth {
  RemoteAuth_Credentials : option Credentials;
  RemoteAuth_SignalingCreds : option Credentials;
  RemoteAuth_rest : RemoteAuthRest
}.

Record Remote : Type := mkRemote {
  Remote_Name : string;
  Remote_Secret : string;
  Remote_Auth : RemoteAuth;
  Remote_rest : RemoteRest
}.

Context (Remote_Equals : Remote → Remote → bool).

Record NetworkConfig : Type := mkNetworkConfig {
  NetworkConfig_TLSConfig : option tlsConfig;
  NetworkConfig_rest : NetworkRest
}.

Record Config : Type := mkConfig {
  Config_Cloud : option Cloud;
  Config_Modules : list ModuleConfig;
  Config_Remotes : list Remote;
  Config_Components : list ResourceConfig;
  Config_Processes : list ProcessConfig;
  Config_Services : list ResourceConfig;
  Config_Packages : list PackageConfig;
  Config_Network : NetworkConfig;
  Config_Auth : AuthConfig;
  Config_LogConfig : LogConfigT;
  Config_EnableWebProfile : bool;
  Config_Revision : string;
  Config_rest : ConfigRest
}.

(** [Config{}] *)
Definition Config_zero : Config :=
  mkConfig None [] [] [] [] [] [] (mkNetworkConfig None inhabitant)
    (mkAuthConfig [] inhabitant) inhabitant false "" inhabitant.

Record ModifiedConfigDiff : Type := mkModifiedConfigDiff {
  Modified_Remotes : list Remote;
  Modified_Components : list ResourceConfig;
  Modified_Processes : list ProcessConfig;
  Modified_Services : list ResourceConfig;
  Modified_Packages : list PackageConfig;
  Modified_Modules : list ModuleConfig
}.

Record Diff : Type := mkDiff {
  Diff_Left : Config;
  Diff_Right : Config;
  Diff_Added : Config;
  Diff_Modified : ModifiedConfigDiff;
  Diff_Removed : Config;
  Diff_ResourcesEqual : bool;
  Diff_NetworkEqual : bool;
  Diff_LogEqual : bool;
  Diff_PrettyDiff : string;
  Diff_UnmodifiedResources : list ResourceConfig
}.

(** encoding/json and diffmatchpatch, as far as [prettyDiff] uses them. *)
Context (json_Marshal : Config → result error string)
        (json_Unmarshal : string → result error Config)
        (json_MarshalIndent : Config → string → string → result error string).

Inductive Operation : Type := DiffDelete | DiffInsert | DiffEqual.

Global Instance Operation_eq_dec : EqDecision Operation.
Proof. solve_decision. Defined.

Record dmpDiff : Type := mkDmpDiff {
  dmpDiff_Type : Operation;
  dmpDiff_Text : string
}.

Context (DiffMain : string → string → bool → list dmpDiff)
        (DiffPrettyText : list dmpDiff → string).

(** The order of the [range] in [diffAll], for every type of map. *)
Context (rangeKeys : ∀ (K T : Type) `{Countable K}, gmap K T → list K).

(** **** Network, TLS and log comparison *)

Definition diffTLS (leftTLS rightTLS : option tlsConfig) : bool :=
  match leftTLS, rightTLS with
  | None, None => false
  | None, Some _ => true
  | Some _, None => true
  | Some leftTLS, Some rightTLS =>
      if negb (MinVersion leftTLS =? MinVersion rightTLS)%N then true
      else
        match GetCertificate leftTLS None with
        | (_, Some err) => true
        | (leftCert, None) =>
        match GetCertificate rightTLS None with
        | (_, Some err) => true
        | (rightCert, None) =>
        if negb (DeepEqual _ leftCert rightCert) then true
        else
        match GetClientCertificate leftTLS None with
        | (_, Some err) => true
        | (leftClientCert, None) =>
        match GetClientCertificate rightTLS None with
        | (_, Some err) => true
        | (rightClientCert, None) =>
        if negb (DeepEqual _ leftClientCert rightClientCert) then true
        else false
        end end end end
  end.

Definition diffNetwork (leftCopy rightCopy : NetworkConfig) : bool :=
  if diffTLS (NetworkConfig_TLSConfig leftCopy) (NetworkConfig_TLSConfig rightCopy)
  then true
  else
    let leftCopy := mkNetworkConfig None (NetworkConfig_rest leftCopy) in
    let rightCopy := mkNetworkConfig None (NetworkConfig_rest rightCopy) in
    negb (DeepEqual _ leftCopy rightCopy).

Definition diffNetworkingCfg (left right : Config) : bool :=
  if negb (DeepEqual _ (Config_Cloud left) (Config_Cloud right)) then true
  else if diffNetwork (Config_Network left) (Config_Network right) then true
  else if negb (DeepEqual _ (Config_Auth left) (Config_Auth right)) then true
  else if negb (DeepEqual _ (Config_EnableWebProfile left)
                  (Config_EnableWebProfile right)) then true
  else false.

Definition diffLogCfg (left right : Config)
    (servicesDifferent componentsDifferent : bool) : bool :=
  if negb (DeepEqual _ (Config_LogConfig left) (Config_LogConfig right)) then true
  else if servicesDifferent || componentsDifferent then true
  else false.

(** **** The redacted pretty diff *)

Definition mask : string := "******".

(** [if s != "" { s = mask }] *)
Definition maskIfSet (s : string) : string :=
  if decide (s ≠ "") then mask else s.

Definition sanitizeCloud (c : Cloud) : Cloud :=
  mkCloud
    (maskIfSet (Cloud_Secret c))
    (maskIfSet (Cloud_LocationSecret c))
    ((λ ls, mkLocationSecret (LocationSecret_ID ls)
              (maskIfSet (LocationSecret_Secret ls)))
       <$> Cloud_LocationSecrets c)
    (maskIfSet (Cloud_TLSCertificate c))
    (maskIfSet (Cloud_TLSPrivateKey c))
    (Cloud_rest c).

Definition sanitizeHandler (hdlr : AuthHandlerConfig) : AuthHandlerConfig :=
  mkAuthHandlerConfig
    ((λ _, attrString mask) <$> AuthHandlerConfig_Config hdlr)
    (AuthHandlerConfig_rest hdlr).

Definition sanitizeCredentials (c : Credentials) : Credentials :=
  mkCredentials mask (Credentials_rest c).

Definition sanitizeRemote (rem : Remote) : Remote :=
  mkRemote (Remote_Name rem)
    (maskIfSet (Remote_Secret rem))
    (mkRemoteAuth
       (sanitizeCredentials <$> RemoteAuth_Credentials (Remote_Auth rem))
       (sanitizeCredentials <$> RemoteAuth_SignalingCreds (Remote_Auth rem))
       (RemoteAuth_rest (Remote_Auth rem)))
    (Remote_rest rem).

(** The closure [sanitizeConfig] of [prettyDiff], applied to a private copy. *)
Definition sanitizeConfig (conf : Config) : Config :=
  mkConfig
    (sanitizeCloud <$> Config_Cloud conf)
    (Config_Modules conf)
    (sanitizeRemote <$> Config_Remotes conf)
    (Config_Components conf)
    (Config_Processes conf)
    (Config_Services conf)
    (Config_Packages conf)
    (Config_Network conf)
    (mkAuthConfig (sanitizeHandler <$> AuthConfig_Handlers (Config_Auth conf))
       (AuthConfig_rest (Config_Auth conf)))
    (Config_LogConfig conf)
    (Config_EnableWebProfile conf)
    (Config_Revision conf)
    (Config_rest conf).

Definition prettyDiff (left right : Config) : result error string :=
  leftMd ← json_Marshal left;
  rightMd ← json_Marshal right;
  leftClone ← json_Unmarshal leftMd;
  rightClone ← json_Unmarshal rightMd;
  let left := sanitizeConfig leftClone in
  let right := sanitizeConfig rightClone in
  leftMd ← json_MarshalIndent left "" " ";
  rightMd ← json_MarshalIndent right "" " ";
  let diffs := DiffMain leftMd rightMd true in
  let filteredDiffs := filter (λ d, dmpDiff_Type d ≠ DiffEqual) diffs in
  mret (DiffPrettyText filteredDiffs).

(** **** [DiffConfigs] *)

Definition DiffConfigs (left right : Config) (revealSensitiveConfigDiffs : bool)
  : outcome (result error Diff) :=
  match (if revealSensitiveConfigDiffs then prettyDiff left right else Ok "") with
  | Err err => Returns (Err err)
  | Ok PrettyDiff =>
      '(different, remotes) ←
        diffAll Remote_Equals Remote_Name (rangeKeys _ _ _ _)
          (Config_Remotes left) (Config_Remotes right) (mkSlices [] [] [] None);
      let unmodifiedResources : option (list ResourceConfig) :=
        if decide (Config_Revision left ≠ Config_Revision right) then Some []
        else None in
      '(componentsDifferent, components) ←
        diffAll ResourceConfig_Equals ResourceConfig_ResourceName (rangeKeys _ _ _ _)
          (Config_Components left) (Config_Components right)
          (mkSlices [] [] [] unmodifiedResources);
      let different := componentsDifferent || different in
      '(servicesDifferent, services) ←
        diffAll ResourceConfig_Equals ResourceConfig_ResourceName (rangeKeys _ _ _ _)
          (Config_Services left) (Config_Services right)
          (mkSlices [] [] [] (unmodified components));
      let different := servicesDifferent || different in
      '(d, processes) ←
        diffAll ProcessConfig_Equals ProcessConfig_ID (rangeKeys _ _ _ _)
          (Config_Processes left) (Config_Processes right)
          (mkSlices [] [] [] None);
      let processesDifferent := d || different in
      let different := processesDifferent || different in
      '(d, packages) ←
        diffAll PackageConfig_Equals PackageConfig_Name (rangeKeys _ _ _ _)
          (Config_Packages left) (Config_Packages right)
          (mkSlices [] [] [] None);
      let packagesDifferent := d || different in
      let different := packagesDifferent || different in
      '(d, modules) ←
        diffAll ModuleConfig_Equals ModuleConfig_Name (rangeKeys _ _ _ _)
          (Config_Modules left) (Config_Modules right)
          (mkSlices [] [] [] None);
      let different := d || different in
      let networkDifferent := diffNetworkingCfg left right in
      let logDifferent :=
        diffLogCfg left right servicesDifferent componentsDifferent in
      let collections (pick : ∀ T, slices T → list T) : Config :=
        mkConfig None (pick _ modules) (pick _ remotes) (pick _ components)
          (pick _ processes) (pick _ services) (pick _ packages)
          (Config_Network Config_zero) (Config_Auth Config_zero)
          (Config_LogConfig Config_zero) false "" (Config_rest Config_zero) in
      mret (Ok (mkDiff left right
                  (collections (@added))
                  (mkModifiedConfigDiff (modified remotes) (modified components)
                     (modified processes) (modified services)
                     (modified packages) (modified modules))
                  (collections (@removed))
                  (negb different)
                  (negb networkDifferent)
                  (negb logDifferent)
                  PrettyDiff
                  (default [] (unmodified services))))
  end.

(** **** Vocabulary of the statements about [DiffConfigs] *)

(** One of the six serialization steps of [prettyDiff] fails with [err], the
    steps before it having succeeded. *)
Definition serializationFails (left right : Config) (err : error) : Prop :=
  json_Marshal left = Err err
  ∨ ∃ leftMd, json_Marshal left = Ok leftMd ∧
    (json_Marshal right = Err err
     ∨ ∃ rightMd, json_Marshal right = Ok rightMd ∧
       (json_Unmarshal leftMd = Err err
        ∨ ∃ leftClone, json_Unmarshal leftMd = Ok leftClone ∧
          (json_Unmarshal rightMd = Err err
           ∨ ∃ rightClone, json_Unmarshal rightMd = Ok rightClone ∧
             (json_MarshalIndent (sanitizeConfig leftClone) "" " " = Err err
              ∨ ∃ leftMd',
                  json_MarshalIndent (sanitizeConfig leftClone) "" " "
                  = Ok leftMd' ∧
                  json_MarshalIndent (sanitizeConfig rightClone) "" " "
                  = Err err)))).

(** Two configs that differ at most in the values of the fields that
    [sanitizeConfig] masks: a masked string is empty in both or in none, the
    attribute maps of the auth handlers have the same keys, a credentials
    pointer is nil in both or in none. *)
Definition sameEmptiness (s s' : string) : Prop := s = "" ↔ s' = "".

Definition LocationSecret_alike (a b : LocationSecret) : Prop :=
  LocationSecret_ID a = LocationSecret_ID b
  ∧ sameEmptiness (LocationSecret_Secret a) (LocationSecret_Secret b).

Definition Cloud_alike (c c' : Cloud) : Prop :=
  sameEmptiness (Cloud_Secret c) (Cloud_Secret c')
  ∧ sameEmptiness (Cloud_LocationSecret c) (Cloud_LocationSecret c')
  ∧ Forall2 LocationSecret_alike (Cloud_LocationSecrets c)
      (Cloud_LocationSecrets c')
  ∧ sameEmptiness (Cloud_TLSCertificate c) (Cloud_TLSCertificate c')
  ∧ sameEmptiness (Cloud_TLSPrivateKey c) (Cloud_TLSPrivateKey c')
  ∧ Cloud_rest c = Cloud_rest c'.

Definition Handler_alike (h h' : AuthHandlerConfig) : Prop :=
  dom (AuthHandlerConfig_Config h) = dom (AuthHandlerConfig_Config h')
  ∧ AuthHandlerConfig_rest h = AuthHandlerConfig_rest h'.

Definition Credentials_alike (c c' : Credentials) : Prop :=
  Credentials_rest c = Credentials_rest c'.

Definition Remote_alike (r r' : Remote) : Prop :=
  Remote_Name r = Remote_Name r'
  ∧ sameEmptiness (Remote_Secret r) (Remote_Secret r')
  ∧ option_Forall2 Credentials_alike
      (RemoteAuth_Credentials (Remote_Auth r))
      (RemoteAuth_Credentials (Remote_Auth r'))
  ∧ option_Forall2 Credentials_alike
      (RemoteAuth_SignalingCreds (Remote_Auth r))
      (RemoteAuth_SignalingCreds (Remote_Auth r'))
  ∧ RemoteAuth_rest (Remote_Auth r) = RemoteAuth_rest (Remote_Auth r')
  ∧ Remote_rest r = Remote_rest r'.

Definition Config_alike (c c' : Config) : Prop :=
  option_Forall2 Cloud_alike (Config_Cloud c) (Config_Cloud c')
  ∧ Config_Modules c = Config_Modules c'
  ∧ Forall2 Remote_alike (Config_Remotes c) (Config_Remotes c')
  ∧ Config_Components c = Config_Components c'
  ∧ Config_Processes c = Config_Processes c'
  ∧ Config_Services c = Config_Services c'
  ∧ Config_Packages c = Config_Packages c'
  ∧ Config_Network c = Config_Network c'
  ∧ Forall2 Handler_alike (AuthConfig_Handlers (Config_Auth c))
      (AuthConfig_Handlers (Config_Auth c'))
  ∧ AuthConfig_rest (Config_Auth c) = AuthConfig_rest (Config_Auth c')
  ∧ Config_LogConfig c = Config_LogConfig c'
  ∧ Config_EnableWebProfile c = Config_EnableWebProfile c'
  ∧ Config_Revision c = Config_Revision c'
  ∧ Config_rest c = Config_rest c'.

(** The two serialization steps that make the private copy of a snapshot
    behave alike on [c] and [c']: both fail with the same error, or both
    succeed with copies that are alike. *)
Definition copiesAlike (c c' : Config) : Prop :=
  match json_Marshal c, json_Marshal c' with
  | Err e, Err e' => e = e'
  | Ok md, Ok md' =>
      match json_Unmarshal md, json_Unmarshal md' with
      | Err e, Err e' => e = e'
      | Ok clone, Ok clone' => Config_alike clone clone'
      | _, _ => False
      end
  | _, _ => False
  end.

(** A string that is empty or the mask; a config all of whose masked fields
    hold such a string, the attribute values and the credential payloads
    holding the mask. *)
Definition masked (s : string) : Prop := s = "" ∨ s = mask.

Definition Cloud_masked (c : Cloud) : Prop :=
  masked (Cloud_Secret c) ∧ masked (Cloud_LocationSecret c)
  ∧ Forall (λ ls, masked (LocationSecret_Secret ls)) (Cloud_LocationSecrets c)
  ∧ masked (Cloud_TLSCertificate c) ∧ masked (Cloud_TLSPrivateKey c).

Definition Handler_masked (h : AuthHandlerConfig) : Prop :=
  map_Forall (λ _ v, v = attrString mask) (AuthHandlerConfig_Config h).

Definition Remote_masked (r : Remote) : Prop :=
  masked (Remote_Secret r)
  ∧ (∀ c, RemoteAuth_Credentials (Remote_Auth r) = Some c →
          Credentials_Payload c = mask)
  ∧ (∀ c, RemoteAuth_SignalingCreds (Remote_Auth r) = Some c →
          Credentials_Payload c = mask).

Definition Config_masked (c : Config) : Prop :=
  (∀ cloud, Config_Cloud c = Some cloud → Cloud_masked cloud)
  ∧ Forall Handler_masked (AuthConfig_Handlers (Config_Auth c))
  ∧ Forall Remote_masked (Config_Remotes c).

(** A config, and the modified part of a diff, none of whose six collections
    has an item. *)
Definition Config_noItems (c : Config) : Prop :=
  Config_Remotes c = [] ∧ Config_Components c = [] ∧ Config_Services c = []
  ∧ Config_Processes c = [] ∧ Config_Packages c = [] ∧ Config_Modules c = [].

Definition Modified_noItems (m : ModifiedConfigDiff) : Prop :=
  Modified_Remotes m = [] ∧ Modified_Components m = []
  ∧ Modified_Services m = [] ∧ Modified_Processes m = []
  ∧ Modified_Packages m = [] ∧ Modified_Modules m = [].

End DiffConfigs.

(** Concrete items: a name and an attribute, equal when both agree. The
    [range] order [plainOrder] is the one of [map_to_list]. *)
Definition item : Type := string * nat.
Definition item_Equals (a b : item) : bool := bool_decide (a = b).
Definition item_key (a : item) : string := a.1.
Definition plainOrder (m : gmap string item) : list string := (map_to_list m).*1.

(** *** An instance of the interfaces

    Items for the components, services, processes, packages and modules,
    [unit] for the fields that diff.go does not look at, and small stand-ins
    for the libraries: a serializer that prints the cloud secret, the remotes
    and the names of the components and services, a decoder that knows the
    configs of a given list, a diff that keeps the common prefix and suffix of
    the two texts, and the ANSI rendering of [DiffPrettyText]. *)

Abbreviation toyRemote := (@Remote unit unit unit).
Abbreviation toyConfig :=
  (@Config string unit unit unit item item item item
     unit unit unit unit unit unit unit unit unit unit).
Abbreviation toyDiff :=
  (@Diff string unit unit unit item item item item
     unit unit unit unit unit unit unit unit unit unit).

Definition toy_DeepEqual (A : Type) (x y : A) : bool := true.

Definition toy_Remote_Equals (a b : toyRemote) : bool :=
  bool_decide (Remote_Name a = Remote_Name b)
  && bool_decide (Remote_Secret a = Remote_Secret b).

Definition toy_rangeKeys (K T : Type) `{Countable K} (m : gmap K T) : list K :=
  (map_to_list m).*1.

Definition toy_renderRemote (rem : toyRemote) : string :=
  "{name:" +:+ Remote_Name rem +:+ ",secret:" +:+ Remote_Secret rem +:+ "}".

Definition toy_renderNames (s : list item) : string :=
  foldr (λ x acc, x.1 +:+ ";" +:+ acc) "" s.

Definition toy_render (c : toyConfig) : string :=
  "{"
  +:+ match Config_Cloud c with
      | Some cloud => "cloud:{secret:" +:+ Cloud_Secret cloud +:+ "},"
      | None => ""
      end
  +:+ match Config_Remotes c with
      | [] => ""
      | rems =>
          "remotes:["
          +:+ foldr (λ rem acc, toy_renderRemote rem +:+ acc) "" rems +:+ "],"
      end
  +:+ "components:[" +:+ toy_renderNames (Config_Components c) +:+ "],"
  +:+ "services:[" +:+ toy_renderNames (Config_Services c) +:+ "],"
  +:+ "revision:" +:+ Config_Revision c
  +:+ "}".

Definition toy_Marshal (c : toyConfig) : result string string :=
  Ok (toy_render c).

Definition toy_MarshalIndent (c : toyConfig) (prefix indent : string)
  : result string string := Ok (toy_render c).

Definition toy_Unmarshal (known : list toyConfig) (data : string)
  : result string toyConfig :=
  match list_find (λ c, toy_render c = data) known with
  | Some (_, c) => Ok c
  | None => Err "cannot unmarshal"
  end.

Fixpoint commonPrefix (a b : list ascii) : list ascii :=
  match a, b with
  | x :: a', y :: b' => if decide (x = y) then x :: commonPrefix a' b' else []
  | _, _ => []
  end.

Definition toy_DiffMain (text1 text2 : string) (checklines : bool)
  : list dmpDiff :=
  let a := bytes text1 in
  let b := bytes text2 in
  let pre := commonPrefix a b in
  let a' := drop (length pre) a in
  let b' := drop (length pre) b in
  let suf := reverse (commonPrefix (reverse a') (reverse b')) in
  filter (λ d, dmpDiff_Text d ≠ "")
    [mkDmpDiff DiffEqual (of_bytes pre);
     mkDmpDiff DiffDelete (of_bytes (take (length a' - length suf) a'));
     mkDmpDiff DiffInsert (of_bytes (take (length b' - length suf) b'));
     mkDmpDiff DiffEqual (of_bytes suf)].

Definition ansi (code : string) : string := String "027" ("[" +:+ code +:+ "m").

Definition toy_DiffPrettyText (diffs : list dmpDiff) : string :=
  foldr (λ d acc,
           match dmpDiff_Type d with
           | DiffInsert => ansi "32" +:+ dmpDiff_Text d +:+ ansi "0"
           | DiffDelete => ansi "31" +:+ dmpDiff_Text d +:+ ansi "0"
           | DiffEqual => dmpDiff_Text d
           end +:+ acc)
    "" diffs.

Definition toy_prettyDiff (known : list toyConfig) (left right : toyConfig)
  : result string string :=
  prettyDiff toy_Marshal (toy_Unmarshal known) toy_MarshalIndent toy_DiffMain
    toy_DiffPrettyText left right.

Definition toy_DiffConfigs (known : list toyConfig) (left right : toyConfig)
    (revealSensitiveConfigDiffs : bool) : outcome (result string toyDiff) :=
  DiffConfigs toy_DeepEqual item_key item_Equals item_key item_Equals
    item_key item_Equals item_key item_Equals toy_Remote_Equals
    toy_Marshal (toy_Unmarshal known) toy_MarshalIndent toy_DiffMain
    toy_DiffPrettyText toy_rangeKeys left right revealSensitiveConfigDiffs.

(** A TLS config with the given minimum version, whose callbacks resolve
    without error. *)
Definition toy_tls (minVersion : N) : @tlsConfig string unit unit unit :=
  mkTLSConfig minVersion (λ _, (Some (), None)) (λ _, (None, None)).

(** [strings.Contains(s, sub)] *)
Fixpoint contains (sub s : string) : bool :=
  String.prefix sub s
  || match s with
     | EmptyString => false
     | String _ s' => contains sub s'
     end.

(** A config with a cloud secret, components, services and remotes. *)
Definition toy_config (secret : string) (remotes : list toyRemote)
    (components services : list item) (revision : string) : toyConfig :=
  mkConfig (Some (mkCloud secret "" [] "" "" ())) [] remotes components []
    services [] (mkNetworkConfig None ()) (mkAuthConfig [] ()) () false
    revision ().

Definition toy_remote (name secret : string) : toyRemote :=
  mkRemote name secret (mkRemoteAuth None None ()) ().

(** Two snapshots whose cloud secret is s3cr3t, the right one with one more
    remote, named s3cr3t as well, and a changed component; and the same two
    snapshots with another cloud secret. *)
Definition toy_left : toyConfig :=
  toy_config "s3cr3t" [] [("arm", 1); ("cam", 1)] [("nav", 1)] "rev1".
Definition toy_right : toyConfig :=
  toy_config "s3cr3t" [toy_remote "s3cr3t" ""] [("arm", 1); ("cam", 2)]
    [("nav", 1)] "rev2".
Definition toy_left' : toyConfig :=
  toy_config "hunter2" [] [("arm", 1); ("cam", 1)] [("nav", 1)] "rev1".
Definition toy_right' : toyConfig :=
  toy_config "hunter2" [toy_remote "s3cr3t" ""] [("arm", 1); ("cam", 2)]
    [("nav", 1)] "rev2".
Definition toy_known : list toyConfig :=
  [toy_left; toy_right; toy_left'; toy_right'].

End config.

(** ** transformpipeline: a camera that applies transforms to a source *)

Module transformpipeline.

Section Pipeline.

(** [error] and the constructors of errors that the package calls:
    [errors.New], [errors.Wrap], [errors.Errorf] with its integer arguments,
    [fmt.Errorf] with the format of two wrapped errors, and
    [resource.NewConfigValidationFieldRequiredError]. *)
Context {error : Type}.
Context (errors_New : string → error)
        (errors_Wrap : error → string → error)
        (errors_Errorf : string → list Z → error)
        (fmt_Errorf_wrap2 : error → error → error)
        (NewConfigValidationFieldRequiredError : string → string → error).

Definition ErrVideoSourceCreation : error :=
  errors_New "failed to create video source from camera".

(** [transform.PinholeCameraIntrinsics] with the two fields that the package
    reads, [transform.BrownConrady] and [Transformation]. *)
Context {PinholeRest BrownConrady Transformation : Type}.

Record PinholeCameraIntrinsics : Type := mkPinholeCameraIntrinsics {
  Width : Z;
  Height : Z;
  Pinhole_rest : PinholeRest
}.

Record transformConfig : Type := mkTransformConfig {
  CameraParameters : option PinholeCameraIntrinsics;
  DistortionParameters : option BrownConrady;
  Source : string;
  Pipeline : list Transformation
}.

(** [Validate] returns the implicit dependencies, the optional ones and an
    error. *)
Definition Validate (cfg : transformConfig) (path : string)
  : result error (list string * list string) :=
  let deps : list string := [] in
  if String.length (Source cfg) =? 0 then
    Err (NewConfigValidationFieldRequiredError path "source")
  else
    _ ← match CameraParameters cfg with
        | Some params =>
            if (Height params <? 0)%Z || (Width params <? 0)%Z then
              Err (errors_Errorf
                     "got illegal negative dimensions for width_px and height_px (%d, %d) fields set in intrinsic_parameters for transform camera"
                     [Width params; Height params])
            else Ok ()
        | None => Ok ()
        end;
    let deps := deps ++ [Source cfg] in
    Ok (deps, []).

(** The values of the interfaces [camera.VideoSource] and [camera.Camera]. A
    video source is one implemented elsewhere or the [videoSource] of this
    package, which wraps a camera that is no video source; a camera is a
    video source or it is not. *)
Context {ExtVideoSource ExtCamera GoStreamSource : Type}.

Inductive VideoSource : Type :=
| extVideoSource (v : ExtVideoSource)
| videoSource (cam : ExtCamera) (vs : GoStreamSource).

Inductive Camera : Type :=
| plainCamera (cam : ExtCamera)
| streamCamera (streamCam : VideoSource).

Context {Image PointCloud PointCloudSource ImageType Named Robot Logger
         CameraModel : Type}.
Context (UnspecifiedStream DepthStream ColorStream : ImageType).

(** What the package calls of camera, camerautils and its own
    [buildTransform], whose code is in another file. *)
Context (camerautils_VideoSourceFromCamera :
           ExtCamera → result error GoStreamSource)
        (DecodeImageFromCamera : Camera → result error Image)
        (isDepthMap isGray16 : Image → bool)
        (buildTransform :
           Robot → VideoSource → ImageType → Transformation →
           result error (Camera * ImageType))
        (NewPinholeModelWithBrownConradyDistortion :
           option PinholeCameraIntrinsics → option BrownConrady → CameraModel)
        (asPointCloudSource : VideoSource → option PointCloudSource)
        (PointCloudSource_NextPointCloud :
           PointCloudSource → result error PointCloud).

Definition videoSourceFromCamera (cam : Camera) : result error VideoSource :=
  match cam with
  | streamCamera streamCam => Ok streamCam
  | plainCamera cam =>
      match camerautils_VideoSourceFromCamera cam with
      | Err err => Err (fmt_Errorf_wrap2 ErrVideoSourceCreation err)
      | Ok vs => Ok (videoSource cam vs)
      end
  end.

Record transformPipeline : Type := mkTransformPipeline {
  tp_Named : Named;
  pipeline : list VideoSource;
  src : Camera;
  intrinsicParameters : option PinholeCameraIntrinsics;
  logger : Logger
}.

Context (NewVideoSourceFromReader :
           transformPipeline → CameraModel → ImageType →
           result error VideoSource).

(** The loop of [newTransformPipeline] over [cfg.Pipeline]. *)
Fixpoint buildPipeline (r : Robot) (transforms : list Transformation)
    (pipeline : list VideoSource) (lastSource : VideoSource)
    (streamType : ImageType)
  : result error (list VideoSource * VideoSource * ImageType) :=
  match transforms with
  | [] => Ok (pipeline, lastSource, streamType)
  | tr :: transforms' =>
      '(src, newStreamType) ← buildTransform r lastSource streamType tr;
      streamSrc ← videoSourceFromCamera src;
      buildPipeline r transforms' (pipeline ++ [streamSrc]) streamSrc
        newStreamType
  end.

Definition newTransformPipeline (source : option VideoSource) (named : Named)
    (cfg : transformConfig) (r : Robot) (logger : Logger)
  : result error VideoSource :=
  match source with
  | None => Err (errors_New "no source camera for transform pipeline")
  | Some source =>
      if length (Pipeline cfg) =? 0 then
        Err (errors_New "pipeline has no transforms in it")
      else
        let streamType :=
          match DecodeImageFromCamera (streamCamera source) with
          | Err _ => UnspecifiedStream
          | Ok img =>
              if isDepthMap img then DepthStream
              else if isGray16 img then DepthStream
              else ColorStream
          end in
        lastSource ← videoSourceFromCamera (streamCamera source);
        '(pipeline, lastSource, streamType) ←
          buildPipeline r (Pipeline cfg) [] lastSource streamType;
        let cameraModel :=
          NewPinholeModelWithBrownConradyDistortion (CameraParameters cfg)
            (DistortionParameters cfg) in
        NewVideoSourceFromReader
          (mkTransformPipeline named pipeline (streamCamera lastSource)
             (CameraParameters cfg) logger)
          cameraModel streamType
  end.

Definition Read (tp : transformPipeline) : result error Image :=
  DecodeImageFromCamera (src tp).

(** [tp.pipeline[len(tp.pipeline)-1]] panics when the index is out of
    range. *)
Definition NextPointCloud (tp : transformPipeline)
  : outcome (result error PointCloud) :=
  let idx := (Z.of_nat (length (pipeline tp)) - 1)%Z in
  if (idx <? 0)%Z then Panics
  else
    match pipeline tp !! Z.to_nat idx with
    | None => Panics
    | Some lastElem =>
        match asPointCloudSource lastElem with
        | Some lastElem =>
            match PointCloudSource_NextPointCloud lastElem with
            | Err err =>
                Returns (Err (errors_Wrap err
                  "function NextPointCloud not defined for last videosource in transform pipeline"))
            | Ok pc => Returns (Ok pc)
            end
        | None =>
            Returns (Err (errors_New
              "function NextPointCloud not defined for last videosource in transform pipeline"))
        end
    end.

End Pipeline.

(** An instance of the interfaces: errors are their messages, a transformation
    is a number and [buildTransform] makes of it a video source of that
    number, which is no point cloud source. *)
Definition toy_buildTransform (r : unit) (lastSource : @VideoSource nat unit unit)
    (streamType : string) (tr : nat)
  : result string (@Camera nat unit unit * string) :=
  Ok (streamCamera (extVideoSource tr), streamType).

Definition toy_NewVideoSourceFromReader
    (tp : @transformPipeline unit nat unit unit unit unit)
    (model : unit) (streamType : string)
  : result string (@VideoSource nat unit unit) :=
  Ok (extVideoSource (length (pipeline tp))).

(** A config with two transforms. *)
Definition toy_transformConfig : @transformConfig unit unit nat :=
  mkTransformConfig None None "cam" [7; 8].

Definition toy_newTransformPipeline
    (source : option (@VideoSource nat unit unit))
    (cfg : @transformConfig unit unit nat) : result string VideoSource :=
  newTransformPipeline (λ msg, msg) (λ a b, a +:+ ": " +:+ b) "unspecified"
    "depth" "color" (λ _ : unit, Ok ()) (λ _, Ok true) (λ img : bool, img)
    (λ _, false) toy_buildTransform (λ _ _, ()) toy_NewVideoSourceFromReader
    source () cfg () ().

End transformpipeline.

(** * Properties *)

Module GoFacts.

Lemma bytes_of_bytes l : bytes (of_bytes l) = l.
Proof. apply String.list_ascii_of_string_of_list_ascii. Qed.

Lemma of_bytes_bytes s : of_bytes (bytes s) = s.
Proof. apply String.string_of_list_ascii_of_string. Qed.

Lemma bytes_length s : length (bytes s) = String.length s.
Proof. induction s; simpl; congruence. Qed.

Lemma bytes_app s1 s2 : bytes (s1 +:+ s2) = bytes s1 ++ bytes s2.
Proof.
  induction s1 as [|a s1 IH]; [done|].
  change (String a s1 +:+ s2) with (String a (s1 +:+ s2)).
  unfold bytes in *; simpl; by rewrite IH.
Qed.

Lemma bytes_inj s1 s2 : bytes s1 = bytes s2 → s1 = s2.
Proof. intros H. rewrite <-(of_bytes_bytes s1), H. apply of_bytes_bytes. Qed.

Lemma omap_none {A B} (f : A → option B) (l : list A) :
  (∀ x, x ∈ l → f x = None) → omap f l = [].
Proof.
  induction l as [|x l IH]; intros H; [done|]. csimpl.
  rewrite (H x) by left. apply IH. intros y Hy. apply H. by right.
Qed.

Lemma omap_ext_in {A B} (f g : A → option B) (l : list A) :
  (∀ x, x ∈ l → f x = g x) → omap f l = omap g l.
Proof.
  induction l as [|x l IH]; intros H; [done|]. csimpl.
  rewrite (H x) by left. rewrite IH; [done|]. intros y Hy. apply H. by right.
Qed.

Lemma omap_fmap {A B C} (f : B → option C) (g : A → B) (l : list A) :
  omap f (g <$> l) = omap (f ∘ g) l.
Proof. induction l as [|x l IH]; [done|]. csimpl. by rewrite IH. Qed.

Lemma elem_of_rangeMap {K V A : Type} `{Countable K}
    (body : K → V → list A) (m : gmap K V) (x : A) :
  x ∈ rangeMap body m ↔ ∃ k v, m !! k = Some v ∧ x ∈ body k v.
Proof.
  unfold rangeMap.
  apply (map_fold_weak_ind
           (λ r m, x ∈ r ↔ ∃ k v, m !! k = Some v ∧ x ∈ body k v)).
  - split; [by intros ?%elem_of_nil|]. by intros (k & v & ?%lookup_empty_Some & _).
  - intros k v m' r Hk IH. rewrite elem_of_app, IH. split.
    + intros [(k' & v' & Hk' & Hx)|Hx].
      * exists k', v'. split; [|done].
        rewrite lookup_insert_ne; [done|]. intros ->. congruence.
      * exists k, v. by rewrite lookup_insert_eq.
    + intros (k' & v' & Hk' & Hx). destruct (decide (k = k')) as [->|Hne].
      * rewrite lookup_insert_eq in Hk'. right. congruence.
      * rewrite lookup_insert_ne in Hk' by done. left. eauto.
Qed.

Lemma filter_ext_in {A} (P Q : A → Prop)
    `{!∀ x, Decision (P x), !∀ x, Decision (Q x)} (l : list A) :
  (∀ x, x ∈ l → P x ↔ Q x) → filter P l = filter Q l.
Proof.
  induction l as [|x l IH]; intros HPQ; [done|].
  rewrite !filter_cons, IH by (intros y Hy; apply HPQ; by right).
  destruct (decide (P x)) as [HP|HP], (decide (Q x)) as [HQ|HQ]; try done;
    exfalso; apply (HPQ x) in HP || apply (HPQ x) in HQ; try done; by left.
Qed.

End GoFacts.

Import GoFacts.

Module rtrie_facts.
Import rtrie.

Section Trie.
Context {T : Type} (zero : T).
Implicit Types (n : @trieNode T) (t : @Trie T).

Lemma withChild_id n c child :
  children n !! c = Some child → withChild n c child = n.
Proof.
  intros H. destruct n as [ch hc ct]. unfold withChild; simpl in *.
  f_equal. by apply insert_id.
Qed.

(** Without creation the loop of [findNode] is a plain lookup and leaves the
    trie as it is. *)
Lemma findNode_loop_lookup n bs :
  findNode_loop zero n bs false = (n, nodeAt n bs).
Proof.
  revert n. induction bs as [|c bs IH]; intros n; [done|]. simpl.
  destruct (children n !! c) as [child|] eqn:E; simpl; [|done].
  rewrite IH. by rewrite withChild_id.
Qed.

Lemma length_zero_iff (key : string) :
  (String.length key <? 1) = true ↔ key = "".
Proof.
  destruct key; simpl; [done|]. split; [|done].
  intros H. apply Nat.ltb_lt in H. lia.
Qed.

Lemma findNode_lookup t key :
  findNode zero t key false =
    (t, if String.length key <? 1 then None
        else (λ n, (reverse (bytes key), n)) <$> nodeAt (root t) (reverse (bytes key))).
Proof.
  unfold findNode. destruct (String.length key <? 1); [done|].
  rewrite findNode_loop_lookup. by destruct t.
Qed.

Lemma stored_nodeAt t key :
  key ≠ "" → stored zero t key = nodeAt (root t) (reverse (bytes key)) ≫= nodeValue.
Proof.
  intros Hk. unfold stored, Trie_Get. rewrite findNode_lookup.
  destruct (String.length key <? 1) eqn:E.
  { apply length_zero_iff in E. done. }
  destruct (nodeAt (root t) (reverse (bytes key))) as [n|]; simpl; [|done].
  unfold nodeValue. by destruct (hasContents n).
Qed.

Lemma stored_empty t : stored zero t "" = None.
Proof. done. Qed.

Lemma FindSuffix_loop_spec n bs result :
  FindSuffix_loop n bs result =
    result ++ omap (λ i, nodeAt n (take i bs) ≫= nodeValue) (seq 1 (length bs)).
Proof.
  revert n result. induction bs as [|c bs IH]; intros n result.
  { simpl. by rewrite app_nil_r. }
  cbn [FindSuffix_loop length].
  replace (seq 1 (S (length bs))) with (1 :: (S <$> seq 1 (length bs)))
    by (by rewrite fmap_S_seq).
  csimpl. rewrite omap_fmap.
  destruct (children n !! c) as [n'|] eqn:E; csimpl.
  - rewrite IH.
    assert (omap ((λ i, nodeAt n (take i (c :: bs)) ≫= nodeValue) ∘ S)
              (seq 1 (length bs))
            = omap (λ i, nodeAt n' (take i bs) ≫= nodeValue) (seq 1 (length bs)))
      as -> by (apply omap_ext_in; intros i _; simpl; by rewrite E).
    generalize (omap (λ i, nodeAt n' (take i bs) ≫= nodeValue)
                  (seq 1 (length bs))) as tail.
    intros tail. unfold nodeValue.
    destruct (hasContents n'); [by rewrite <-app_assoc|done].
  - rewrite omap_none; [by rewrite app_nil_r|].
    intros i _. simpl. by rewrite E.
Qed.

Lemma suffixes_elem (k q : string) :
  k ∈ suffixes_shortest_first q ↔ k ≠ "" ∧ is_suffix_of k q.
Proof.
  unfold suffixes_shortest_first, is_suffix_of. rewrite list_elem_of_fmap. split.
  - intros (i & -> & Hi%elem_of_seq). split.
    + intros H. apply (f_equal String.length) in H.
      rewrite <-bytes_length, bytes_of_bytes, length_drop in H. simpl in H. lia.
    + exists (of_bytes (take (length (bytes q) - i) (bytes q))).
      apply bytes_inj. by rewrite bytes_app, !bytes_of_bytes, take_drop.
  - intros (Hk & p & ->). exists (String.length k). split.
    + rewrite bytes_app, length_app, <-(bytes_length k).
      replace (length (bytes p) + length (bytes k) - length (bytes k))
        with (length (bytes p)) by lia.
      by rewrite drop_app_length, of_bytes_bytes.
    + apply elem_of_seq. rewrite bytes_app, length_app, <-(bytes_length k).
      destruct k; [done|]. simpl. lia.
Qed.

Lemma suffixes_lengths (q : string) :
  String.length <$> suffixes_shortest_first q = seq 1 (String.length q).
Proof.
  unfold suffixes_shortest_first. rewrite <-list_fmap_compose, <-bytes_length.
  rewrite <-(list_fmap_id (seq 1 (length (bytes q)))) at 2.
  apply list_fmap_ext. intros j i Hi%list_elem_of_lookup_2%elem_of_seq. simpl.
  rewrite <-bytes_length, bytes_of_bytes, length_drop. lia.
Qed.

(** C1. For every trie and every query [q] (in particular every non-empty
    one), [FindSuffix(q)] is the list of the values stored under the keys
    that are suffixes of [q], one per stored key, the shortest suffix first
    and [q] itself (when stored) last: it is obtained by looking up, with
    [Get], the suffixes of [q] of length 1, 2, ..., [len(q)] in this order and
    keeping the values found. These suffixes are exactly the non-empty
    suffixes of [q]; the empty key is never stored. *)
Theorem FindSuffix_exact_suffixes t (q : string) :
  Trie_FindSuffix t q = omap (stored zero t) (suffixes_shortest_first q)
  ∧ (∀ k, k ∈ suffixes_shortest_first q ↔ k ≠ "" ∧ is_suffix_of k q)
  ∧ String.length <$> suffixes_shortest_first q = seq 1 (String.length q)
  ∧ stored zero t "" = None.
Proof.
  split; [|split; [intros k; apply suffixes_elem|split; [apply suffixes_lengths|done]]].
  unfold Trie_FindSuffix. rewrite FindSuffix_loop_spec. simpl.
  unfold suffixes_shortest_first. rewrite omap_fmap, length_reverse.
  apply omap_ext_in. intros i Hi%elem_of_seq. simpl.
  rewrite stored_nodeAt.
  - by rewrite bytes_of_bytes, take_reverse.
  - intros H. apply (f_equal String.length) in H.
    rewrite <-bytes_length, bytes_of_bytes, length_drop in H. simpl in H. lia.
Qed.

Lemma FindSuffix_omap_stored t (q : string) :
  Trie_FindSuffix t q = omap (stored zero t) (suffixes_shortest_first q).
Proof.
  unfold Trie_FindSuffix. rewrite FindSuffix_loop_spec. simpl.
  unfold suffixes_shortest_first. rewrite omap_fmap, length_reverse.
  apply omap_ext_in. intros i Hi%elem_of_seq. simpl.
  rewrite stored_nodeAt.
  - by rewrite bytes_of_bytes, take_reverse.
  - intros H. apply (f_equal String.length) in H.
    rewrite <-bytes_length, bytes_of_bytes, length_drop in H. simpl in H. lia.
Qed.

Lemma suffixes_last (q : string) :
  q ≠ "" →
  ∃ shorter, suffixes_shortest_first q = shorter ++ [q].
Proof.
  intros Hq. unfold suffixes_shortest_first.
  assert (length (bytes q) ≠ 0) as Hlen.
  { rewrite bytes_length. by destruct q. }
  destruct (length (bytes q)) as [|n] eqn:E; [done|].
  rewrite seq_S, fmap_app. simpl. eexists. f_equal. f_equal.
  rewrite Nat.sub_diag. simpl. apply of_bytes_bytes.
Qed.

Lemma FindSuffix_exact_suffixes_aux t (q : string) :
  Trie_FindSuffix t q = omap (stored zero t) (suffixes_shortest_first q)
  ∧ (q ≠ "" → ∃ shorter, suffixes_shortest_first q = shorter ++ [q]).
Proof. split; [apply FindSuffix_omap_stored|apply suffixes_last]. Qed.

(** C6. On the empty key [Get], [Delete] and [FindSuffix] do nothing and
    report nothing found, but [Set], and therefore [ComputeIfAbsent], panic:
    [findNode] returns nil for the empty key and [Set] dereferences it. *)
Theorem empty_key_Set_panics t (v : T) (compute : unit → T) :
  Trie_Set zero t "" v = Panics
  ∧ Trie_ComputeIfAbsent zero t "" compute = Panics
  ∧ Trie_Get zero t "" = (zero, false)
  ∧ Trie_Delete zero t "" = (t, (zero, false))
  ∧ Trie_FindSuffix t "" = [].
Proof. done. Qed.

(** *** Reading back what was written *)

Lemma Get_stored t key v :
  Trie_Get zero t key = (v, true) ↔ stored zero t key = Some v.
Proof.
  unfold stored. destruct (Trie_Get zero t key) as [v' [|]]; naive_solver.
Qed.

Lemma Get_not_stored t key :
  (Trie_Get zero t key).2 = false ↔ stored zero t key = None.
Proof.
  unfold stored. destruct (Trie_Get zero t key) as [v' [|]]; naive_solver.
Qed.

Lemma stored_nonempty t key v : stored zero t key = Some v → key ≠ "".
Proof. intros H ->. by rewrite stored_empty in H. Qed.

Lemma nodeAt_storeAt n path f x :
  nodeAt n path = Some x → nodeAt (storeAt n path f) path = Some (f x).
Proof.
  revert n. induction path as [|c path IH]; intros n; simpl.
  { by intros [= ->]. }
  destruct (children n !! c) as [child|] eqn:E; simpl; [|done].
  intros Hx. rewrite lookup_insert_eq. simpl. by apply IH.
Qed.

Lemma findNode_loop_create n bs :
  ∃ n' x, findNode_loop zero n bs true = (n', Some x) ∧ nodeAt n' bs = Some x.
Proof.
  revert n. induction bs as [|c bs IH]; intros n; simpl; [by eauto|].
  destruct (children n !! c) as [child|].
  - destruct (IH child) as (n' & x & -> & Hx). do 2 eexists. split; [done|].
    simpl. by rewrite lookup_insert_eq.
  - destruct (IH (freshNode zero)) as (n' & x & -> & Hx).
    do 2 eexists. split; [done|]. simpl. by rewrite lookup_insert_eq.
Qed.

(** [Set] returns for every non-empty key, and [Get] then finds the value. *)
Lemma Set_Get t key (v : T) :
  key ≠ "" →
  ∃ t' prev, Trie_Set zero t key v = Returns (t', prev)
             ∧ Trie_Get zero t' key = (v, true).
Proof.
  intros Hk. unfold Trie_Set, findNode.
  destruct (String.length key <? 1) eqn:E; [by apply length_zero_iff in E|].
  destruct (findNode_loop_create (root t) (reverse (bytes key)))
    as (n' & x & -> & Hx). simpl.
  do 2 eexists. split; [done|]. apply Get_stored.
  rewrite stored_nodeAt by done. simpl.
  by erewrite nodeAt_storeAt.
Qed.

(** Writing to one node, or creating the nodes on the way to it, leaves the
    values of the other nodes as they are. *)
Lemma valueAt_storeAt_ne n path f path' :
  (∀ x, children (f x) = children x) → path' ≠ path →
  valueAt (storeAt n path f) path' = valueAt n path'.
Proof.
  intros Hf. unfold valueAt.
  revert n path'. induction path as [|c path IH]; intros n path' Hne.
  { destruct path' as [|c' q]; [done|]. simpl. by rewrite Hf. }
  simpl. destruct (children n !! c) as [child|] eqn:Hc; [|done].
  destruct path' as [|c' q]; [done|]. simpl.
  destruct (decide (c' = c)) as [->|Hcc].
  - rewrite lookup_insert_eq, Hc. simpl. apply IH. congruence.
  - by rewrite lookup_insert_ne.
Qed.

Lemma valueAt_findNode_loop n bs create path' :
  valueAt (findNode_loop zero n bs create).1 path' = valueAt n path'.
Proof.
  unfold valueAt.
  revert n path'. induction bs as [|c bs IH]; intros n path'; [done|].
  simpl.
  assert (∀ child, children n !! c = Some child ∨
                   (children n !! c = None ∧ child = freshNode zero) →
            nodeAt (withChild n c (findNode_loop zero child bs create).1) path'
              ≫= nodeValue
            = nodeAt n path' ≫= nodeValue) as Hdescend.
  { intros child Hchild. destruct path' as [|c' q]; [done|]. simpl.
    destruct (decide (c' = c)) as [->|Hcc]; [|by rewrite lookup_insert_ne].
    rewrite lookup_insert_eq. simpl. rewrite IH.
    destruct Hchild as [->|[-> ->]]; [done|]. by destruct q. }
  destruct (children n !! c) as [child|] eqn:Hc.
  - specialize (Hdescend child (or_introl eq_refl)).
    by destruct (findNode_loop zero child bs create).
  - destruct create; simpl; [|done].
    specialize (Hdescend (freshNode zero) (or_intror (conj eq_refl eq_refl))).
    by destruct (findNode_loop zero (freshNode zero) bs true).
Qed.

Lemma findNode_loop_found n bs n' x :
  findNode_loop zero n bs true = (n', Some x) →
  (contents x, hasContents x) =
    match nodeAt n bs with
    | Some y => (contents y, hasContents y)
    | None => (zero, false)
    end.
Proof.
  revert n n'. induction bs as [|c bs IH]; intros n n'; simpl.
  { by intros [= _ ->]. }
  destruct (children n !! c) as [child|] eqn:Hc; simpl.
  - destruct (findNode_loop zero child bs true) as [child' found] eqn:Hloop.
    intros [= _ ->]. by eapply IH.
  - destruct (findNode_loop zero (freshNode zero) bs true)
      as [child' found] eqn:Hloop.
    intros [= _ ->]. rewrite (IH _ _ Hloop). by destruct bs.
Qed.

Lemma stored_valueAt t key :
  key ≠ "" → stored zero t key = valueAt (root t) (reverse (bytes key)).
Proof. apply stored_nodeAt. Qed.

Lemma reverse_bytes_inj (k k' : string) :
  reverse (bytes k) = reverse (bytes k') → k = k'.
Proof. intros Hr. apply bytes_inj. by apply (inj reverse). Qed.

(** [Set] stores the value under its key and nothing else changes; it returns
    what was stored there before. *)
Lemma Set_stored t key (v : T) t' prev key' :
  Trie_Set zero t key v = Returns (t', prev) →
  prev = Trie_Get zero t key
  ∧ stored zero t' key' = if decide (key' = key) then Some v else stored zero t key'.
Proof.
  unfold Trie_Set, findNode.
  destruct (String.length key <? 1) eqn:E; [done|].
  assert (key ≠ "") as Hk by (intros ->; done).
  pose proof (findNode_loop_create (root t) (reverse (bytes key)))
    as (n' & x & Hloop & Hx).
  pose proof (valueAt_findNode_loop (root t) (reverse (bytes key)) true) as Hval.
  pose proof (findNode_loop_found (root t) (reverse (bytes key))) as Hfound.
  rewrite Hloop in *. simpl in *. intros [= <- <-]. split.
  - unfold Trie_Get. rewrite findNode_lookup, E.
    rewrite (Hfound _ _ eq_refl).
    by destruct (nodeAt (root t) (reverse (bytes key))).
  - destruct (decide (key' = key)) as [->|Hne].
    + rewrite stored_nodeAt by done. simpl. by erewrite nodeAt_storeAt.
    + destruct (decide (key' = "")) as [->|Hk']; [done|].
      rewrite !stored_valueAt by done. simpl.
      rewrite valueAt_storeAt_ne, Hval; [done|done|].
      intros Heq. by apply Hne, reverse_bytes_inj.
Qed.

Lemma Delete_stored t key : stored zero (Trie_Delete zero t key).1 key = None.
Proof.
  destruct (decide (key = "")) as [->|Hk]; [done|].
  unfold Trie_Delete. rewrite findNode_lookup.
  destruct (String.length key <? 1) eqn:E; [by apply length_zero_iff in E|].
  destruct (nodeAt (root t) (reverse (bytes key))) as [x|] eqn:Hx; simpl.
  - rewrite stored_nodeAt by done. simpl. by erewrite nodeAt_storeAt.
  - by rewrite stored_nodeAt, Hx.
Qed.

(** [Delete] returns what [Get] finds and leaves the other keys as they are. *)
Lemma Delete_other t key key' :
  (Trie_Delete zero t key).2 = Trie_Get zero t key
  ∧ (key' ≠ key →
     stored zero (Trie_Delete zero t key).1 key' = stored zero t key').
Proof.
  unfold Trie_Delete, Trie_Get. rewrite findNode_lookup.
  destruct (String.length key <? 1) eqn:E; [done|].
  destruct (nodeAt (root t) (reverse (bytes key))) as [x|] eqn:Hx; simpl;
    [|done].
  split; [done|]. intros Hne.
  destruct (decide (key' = "")) as [->|Hk']; [done|].
  rewrite !stored_valueAt by done. simpl.
  apply valueAt_storeAt_ne; [done|].
  intros Heq. by apply Hne, reverse_bytes_inj.
Qed.

(** *** Induction on tries and the pairs produced by [walk] *)

Lemma height_child n c child :
  children n !! c = Some child → height child < height n.
Proof.
  destruct n as [ch hc ct]. simpl. intros Hc.
  enough (height child ≤ map_fold (λ _ x acc, acc `max` height x) 0 ch) by lia.
  revert c child Hc.
  apply (map_fold_weak_ind
           (λ r m, ∀ c child, m !! c = Some child → height child ≤ r)).
  - by intros c child ?%lookup_empty_Some.
  - intros k v m r Hk IH c child Hc.
    destruct (decide (k = c)) as [->|Hne].
    + rewrite lookup_insert_eq in Hc. injection Hc as ->. lia.
    + rewrite lookup_insert_ne in Hc by done. specialize (IH _ _ Hc). lia.
Qed.

Lemma trieNode_children_ind (P : @trieNode T → Prop) :
  (∀ n, (∀ c child, children n !! c = Some child → P child) → P n) →
  ∀ n, P n.
Proof.
  intros Hstep n. remember (height n) as h eqn:Hh.
  revert n Hh. induction h as [h IH] using lt_wf_ind. intros n ->.
  apply Hstep. intros c child Hc.
  apply (IH (height child)); [by eapply height_child|done].
Qed.

Lemma walk_unfold n key :
  walk n key =
    (if hasContents n then [(key, contents n)] else []) ++
    rangeMap (λ prefix child, walk child (string_of_byte prefix +:+ key))
      (children n).
Proof. by destruct n. Qed.

Lemma elem_of_walk n key k (v : T) :
  (k, v) ∈ walk n key ↔
    ∃ path x, nodeAt n path = Some x ∧ hasContents x = true
              ∧ v = contents x ∧ k = walkKey path key.
Proof.
  revert key. induction n as [n IH] using trieNode_children_ind. intros key.
  rewrite walk_unfold, elem_of_app, elem_of_rangeMap. split.
  - intros [Hhere|(c & child & Hc & Hin)].
    + destruct (hasContents n) eqn:E; [|by apply elem_of_nil in Hhere].
      apply list_elem_of_singleton in Hhere. injection Hhere as -> ->.
      by exists [], n.
    + apply (IH _ _ Hc) in Hin as (path & x & Hx & Hhas & -> & ->).
      exists (c :: path), x. simpl. by rewrite Hc.
  - intros ([|c path] & x & Hx & Hhas & -> & ->); simpl in *.
    + injection Hx as ->. left. rewrite Hhas. by apply list_elem_of_singleton.
    + destruct (children n !! c) as [child|] eqn:Hc; [|done]. simpl in Hx.
      right. exists c, child. split; [done|]. apply (IH _ _ Hc).
      by exists path, x.
Qed.

(** A key made of bytes below 0x80 is only ever produced for its own node:
    [string(prefix)] turns every other byte into two bytes from 0x80 on. *)
Lemma string_of_byte_low c :
  (N_of_ascii c < 128)%N → string_of_byte c = String c "".
Proof. unfold string_of_byte. intros ?%N.ltb_lt. by case_match. Qed.

Lemma string_of_byte_high c :
  ¬ (N_of_ascii c < 128)%N →
  Forall (λ c', ¬ (N_of_ascii c' < 128)%N) (bytes (string_of_byte c)).
Proof.
  intros Hc. unfold string_of_byte.
  destruct (N_of_ascii c <? 128)%N eqn:E; [by apply N.ltb_lt in E|].
  assert (N_of_ascii c < 256)%N as Hlt by apply N_ascii_bounded.
  assert (N_of_ascii c / 64 < 4)%N as Hq
    by (apply N.Div0.div_lt_upper_bound; lia).
  assert (N_of_ascii c mod 64 < 64)%N as Hr
    by (apply N.mod_upper_bound; lia).
  unfold bytes; simpl.
  generalize dependent (N_of_ascii c / 64)%N.
  generalize dependent (N_of_ascii c mod 64)%N. intros r Hr q Hq.
  apply Forall_cons_2; [|apply Forall_cons_2; [|apply Forall_nil_2]];
    rewrite N_ascii_embedding; lia.
Qed.

Lemma walkKey_bytes path key :
  below_0x80 (walkKey path key) →
  bytes (walkKey path key) = reverse path ++ bytes key.
Proof.
  revert key. induction path as [|c path IH]; intros key; simpl; [done|].
  intros Hlow. rewrite IH by done.
  assert (below_0x80 (string_of_byte c +:+ key)) as Hck.
  { unfold below_0x80 in *. rewrite IH in Hlow by done.
    by apply Forall_app in Hlow as [_ ?]. }
  destruct (decide (N_of_ascii c < 128)%N) as [Hc|Hc].
  - rewrite string_of_byte_low by done. rewrite reverse_cons, <-app_assoc. done.
  - apply string_of_byte_high in Hc. unfold below_0x80 in Hck.
    rewrite bytes_app in Hck. apply Forall_app in Hck as [Hck _].
    destruct (bytes (string_of_byte c)) as [|c' l] eqn:E.
    + unfold string_of_byte in E. by case_match.
    + apply Forall_cons in Hc as [Hc _]. apply Forall_cons in Hck as [Hck _]. done.
Qed.

(** [All] lists a key of bytes below 0x80 only if [Get] finds it. *)
Lemma All_low_key_stored t key (v : T) :
  key ≠ "" → below_0x80 key → (key, v) ∈ Trie_All t →
  stored zero t key = Some v.
Proof.
  intros Hne Hlow (path & x & Hx & Hhas & -> & Hk)%elem_of_walk.
  assert (reverse (bytes key) = path) as Hpath.
  { rewrite Hk, walkKey_bytes by (by rewrite <-Hk).
    simpl. by rewrite app_nil_r, reverse_involutive. }
  rewrite stored_nodeAt, Hpath, Hx by done. simpl. unfold nodeValue.
    by rewrite Hhas.
Qed.

(** *** Point operations: what they return and what they leave alone *)

Lemma Get_dataAt t key :
  Trie_Get zero t key =
    if decide (key = "") then (zero, false)
    else dataAt zero (root t) (reverse (bytes key)).
Proof.
  unfold Trie_Get, dataAt. rewrite findNode_lookup.
  destruct (decide (key = "")) as [->|Hk]; [done|].
  destruct (String.length key <? 1) eqn:E; [by apply length_zero_iff in E|].
  by destruct (nodeAt (root t) (reverse (bytes key))).
Qed.

Lemma dataAt_storeAt_ne n path f path' :
  (∀ x, children (f x) = children x) → path' ≠ path →
  dataAt zero (storeAt n path f) path' = dataAt zero n path'.
Proof.
  intros Hf. unfold dataAt.
  revert n path'. induction path as [|c path IH]; intros n path' Hne.
  { destruct path' as [|c' q]; [done|]. simpl. by rewrite Hf. }
  simpl. destruct (children n !! c) as [child|] eqn:Hc; [|done].
  destruct path' as [|c' q]; [done|]. simpl.
  destruct (decide (c' = c)) as [->|Hcc].
  - rewrite lookup_insert_eq, Hc. simpl. apply IH. congruence.
  - by rewrite lookup_insert_ne.
Qed.

Lemma dataAt_storeAt n path f x :
  nodeAt n path = Some x →
  dataAt zero (storeAt n path f) path = (contents (f x), hasContents (f x)).
Proof. intros Hx. unfold dataAt. by erewrite nodeAt_storeAt. Qed.

Lemma dataAt_findNode_loop n bs create path' :
  dataAt zero (findNode_loop zero n bs create).1 path' = dataAt zero n path'.
Proof.
  unfold dataAt.
  revert n path'. induction bs as [|c bs IH]; intros n path'; [done|].
  simpl.
  assert (∀ child, children n !! c = Some child ∨
                   (children n !! c = None ∧ child = freshNode zero) →
            match nodeAt (withChild n c (findNode_loop zero child bs create).1)
                    path' with
            | Some x => (contents x, hasContents x)
            | None => (zero, false)
            end
            = match nodeAt n path' with
              | Some x => (contents x, hasContents x)
              | None => (zero, false)
              end) as Hdescend.
  { intros child Hchild. destruct path' as [|c' q]; [done|]. simpl.
    destruct (decide (c' = c)) as [->|Hcc]; [|by rewrite lookup_insert_ne].
    rewrite lookup_insert_eq. simpl. rewrite IH.
    destruct Hchild as [->|[-> ->]]; [done|]. by destruct q. }
  destruct (children n !! c) as [child|] eqn:Hc.
  - specialize (Hdescend child (or_introl eq_refl)).
    by destruct (findNode_loop zero child bs create).
  - destruct create; simpl; [|done].
    specialize (Hdescend (freshNode zero) (or_intror (conj eq_refl eq_refl))).
    by destruct (findNode_loop zero (freshNode zero) bs true).
Qed.

Lemma Set_spec t key (v : T) :
  key ≠ "" →
  ∃ t', Trie_Set zero t key v = Returns (t', Trie_Get zero t key)
        ∧ Trie_Get zero t' key = (v, true)
        ∧ ∀ key', key' ≠ key → Trie_Get zero t' key' = Trie_Get zero t key'.
Proof.
  intros Hk. unfold Trie_Set, findNode.
  destruct (String.length key <? 1) eqn:E; [by apply length_zero_iff in E|].
  pose proof (findNode_loop_create (root t) (reverse (bytes key)))
    as (n' & x & Hloop & Hx).
  pose proof (dataAt_findNode_loop (root t) (reverse (bytes key)) true) as Hdata.
  pose proof (findNode_loop_found (root t) (reverse (bytes key))) as Hfound.
  rewrite Hloop in *. simpl in *. eexists. split; [|split].
  - rewrite (Hfound _ _ eq_refl). f_equal. f_equal.
    rewrite Get_dataAt, decide_False by done. done.
  - rewrite Get_dataAt, decide_False by done. simpl.
    by erewrite dataAt_storeAt.
  - intros key' Hne. rewrite !Get_dataAt.
    destruct (decide (key' = "")) as [->|Hk']; [done|]. simpl.
    rewrite dataAt_storeAt_ne, Hdata; [done|done|].
    intros Heq. by apply Hne, reverse_bytes_inj.
Qed.

(** X1. For a non-empty key, [Set] does not panic and returns what [Get]
    found under the key before (the previous contents and whether there were
    any); afterwards [Get] finds the new value under the key, and answers as
    before for every other key. *)
Theorem Set_then_Get t key (v : T) :
  key ≠ "" →
  ∃ t', Trie_Set zero t key v = Returns (t', Trie_Get zero t key)
        ∧ Trie_Get zero t' key = (v, true)
        ∧ ∀ key', key' ≠ key → Trie_Get zero t' key' = Trie_Get zero t key'.
Proof. apply Set_spec. Qed.

Lemma Delete_spec t key :
  (Trie_Delete zero t key).2 = Trie_Get zero t key
  ∧ Trie_Get zero (Trie_Delete zero t key).1 key = (zero, false)
  ∧ ∀ key', key' ≠ key →
      Trie_Get zero (Trie_Delete zero t key).1 key' = Trie_Get zero t key'.
Proof.
  split; [apply (Delete_other t key key)|].
  unfold Trie_Delete. rewrite findNode_lookup.
  destruct (decide (key = "")) as [->|Hk]; [done|].
  destruct (String.length key <? 1) eqn:E; [by apply length_zero_iff in E|].
  destruct (nodeAt (root t) (reverse (bytes key))) as [x|] eqn:Hx; simpl.
  - split.
    + rewrite Get_dataAt, decide_False by done. simpl.
      by erewrite dataAt_storeAt.
    + intros key' Hne. rewrite !Get_dataAt.
      destruct (decide (key' = "")) as [->|Hk']; [done|]. simpl.
      apply dataAt_storeAt_ne; [done|].
      intros Heq. by apply Hne, reverse_bytes_inj.
  - split; [|done]. rewrite Get_dataAt, decide_False by done.
    unfold dataAt. by rewrite Hx.
Qed.

(** X2. [Delete] returns what [Get] found under the key; afterwards [Get]
    reports the key as not found, with the zero value, and answers as before
    for every other key. This holds for every key, stored or not. *)
Theorem Delete_then_Get t key :
  (Trie_Delete zero t key).2 = Trie_Get zero t key
  ∧ Trie_Get zero (Trie_Delete zero t key).1 key = (zero, false)
  ∧ ∀ key', key' ≠ key →
      Trie_Get zero (Trie_Delete zero t key).1 key' = Trie_Get zero t key'.
Proof. apply Delete_spec. Qed.

(** X3. For a non-empty key, [ComputeIfAbsent] does not panic. Where [Get]
    finds the key it returns the value found and [true] and leaves the trie as
    it is; otherwise it returns the computed value and [false], [Get] then
    finds that value under the key, and the other keys are as before. *)
Theorem ComputeIfAbsent_then_Get t key (compute : unit → T) :
  key ≠ "" →
  if (Trie_Get zero t key).2 then
    Trie_ComputeIfAbsent zero t key compute
    = Returns (t, ((Trie_Get zero t key).1, true))
  else
    ∃ t', Trie_ComputeIfAbsent zero t key compute
          = Returns (t', (compute (), false))
          ∧ Trie_Get zero t' key = (compute (), true)
          ∧ ∀ key', key' ≠ key → Trie_Get zero t' key' = Trie_Get zero t key'.
Proof.
  intros Hk. unfold Trie_ComputeIfAbsent.
  destruct (Trie_Get zero t key) as [existing [|]] eqn:HG; simpl; [done|].
  destruct (Set_spec t key (compute ()) Hk) as (t' & -> & Hget & Hother).
  by exists t'.
Qed.

(** *** What [All] lists *)

Lemma walkKey_low path key :
  Forall (λ c, (N_of_ascii c < 128)%N) path →
  walkKey path key = of_bytes (reverse path ++ bytes key).
Proof.
  revert key. induction path as [|c path IH]; intros key Hlow; simpl.
  { by rewrite of_bytes_bytes. }
  apply Forall_cons in Hlow as [Hc Hlow]. rewrite IH by done.
  rewrite string_of_byte_low by done. by rewrite reverse_cons, <-app_assoc.
Qed.

Lemma walkKey_reverse_low key :
  below_0x80 key → walkKey (reverse (bytes key)) "" = key.
Proof.
  intros Hlow. rewrite walkKey_low by (by apply Forall_reverse).
  simpl. by rewrite app_nil_r, reverse_involutive, of_bytes_bytes.
Qed.

Lemma stored_walk t key (v : T) :
  stored zero t key = Some v →
  (walkKey (reverse (bytes key)) "", v) ∈ Trie_All t.
Proof.
  intros Hst. pose proof (stored_nonempty _ _ _ Hst) as Hk.
  rewrite stored_nodeAt in Hst by done. apply elem_of_walk.
  destruct (nodeAt (root t) (reverse (bytes key))) as [x|] eqn:Hx; [|done].
  simpl in Hst. unfold nodeValue in Hst.
  destruct (hasContents x) eqn:Hhas; [|done]. injection Hst as <-.
  by exists (reverse (bytes key)), x.
Qed.

(** X4. For a non-empty key all of whose bytes are below 0x80, [All] yields
    the pair (key, v) exactly when [Get] finds v under the key. *)
Theorem All_lists_stored_low_keys t key (v : T) :
  key ≠ "" → below_0x80 key →
  (key, v) ∈ Trie_All t ↔ Trie_Get zero t key = (v, true).
Proof.
  intros Hk Hlow. rewrite Get_stored. split.
  - by apply All_low_key_stored.
  - intros Hst%stored_walk. by rewrite walkKey_reverse_low in Hst.
Qed.

Lemma walkKey_length path key :
  String.length (walkKey path key) =
    String.length key + length path
    + length (filter (λ c, ¬ (N_of_ascii c < 128)%N) path).
Proof.
  revert key. induction path as [|c path IH]; intros key; simpl; [lia|].
  rewrite IH, filter_cons. rewrite <-!bytes_length, bytes_app, length_app.
  unfold string_of_byte. destruct (decide (¬ (N_of_ascii c < 128)%N)) as [Hc|Hc].
  - destruct (N_of_ascii c <? 128)%N eqn:E; [by apply N.ltb_lt in E|].
    simpl. lia.
  - apply dec_stable in Hc. apply N.ltb_lt in Hc. rewrite Hc. simpl. lia.
Qed.

(** X5. Every stored key is listed by [All], under the key that [walk]
    rebuilds with [string(prefix)]; the rebuilt key is the stored key exactly
    when all bytes of the stored key are below 0x80. *)
Theorem All_lists_rebuilt_key t key (v : T) :
  Trie_Get zero t key = (v, true) →
  (walkKey (reverse (bytes key)) "", v) ∈ Trie_All t
  ∧ (walkKey (reverse (bytes key)) "" = key ↔ below_0x80 key).
Proof.
  intros Hst%Get_stored. split; [by apply stored_walk|]. split.
  - intros Heq. apply (f_equal String.length) in Heq.
    rewrite walkKey_length, length_reverse, bytes_length in Heq. simpl in Heq.
    assert (filter (λ c, ¬ (N_of_ascii c < 128)%N) (reverse (bytes key)) = [])
      as Hnil by (apply length_zero_iff_nil; lia).
    unfold below_0x80. apply Forall_forall. intros c Hc.
    destruct (decide (N_of_ascii c < 128)%N) as [|Hhigh]; [done|].
    assert (c ∈ filter (λ c, ¬ (N_of_ascii c < 128)%N) (reverse (bytes key)))
      as Hin by (apply list_elem_of_filter; by rewrite elem_of_reverse).
    rewrite Hnil in Hin. by apply elem_of_nil in Hin.
  - apply walkKey_reverse_low.
Qed.

(** X6. After [Set] has stored a value under a non-empty key, [FindSuffix] of
    that key returns a list whose last element is the value. *)
Theorem FindSuffix_after_Set t key (v : T) t' prev :
  Trie_Set zero t key v = Returns (t', prev) →
  last (Trie_FindSuffix t' key) = Some v.
Proof.
  intros Hset.
  assert (key ≠ "") as Hk by (intros ->; done).
  destruct (Set_spec t key v Hk) as (t'' & Hset' & Hget & _).
  rewrite Hset in Hset'. injection Hset' as <- _.
  destruct (FindSuffix_exact_suffixes_aux t' key) as [-> Hlast].
  destruct (Hlast Hk) as [shorter ->]. rewrite omap_app. simpl.
  apply Get_stored in Hget. rewrite Hget. apply last_snoc.
Qed.

(** X27. [FindSuffix] returns at most one value for each byte of the
    query. *)
Theorem FindSuffix_length t (q : string) :
  length (Trie_FindSuffix t q) ≤ String.length q.
Proof.
  destruct (FindSuffix_exact_suffixes_aux t q) as [-> _].
  assert (length (suffixes_shortest_first q) = String.length q) as <-.
  { by rewrite <-(length_fmap String.length), suffixes_lengths, length_seq. }
  generalize (suffixes_shortest_first q). intros l.
  induction l as [|k l IH]; [done|]. csimpl.
  destruct (stored zero t k); simpl; lia.
Qed.

(** X28. [Delete] undoes [Set] as far as [Get] can tell: after a value was
    set under a non-empty key that [Get] did not find, and the key deleted
    again, [Get] answers for every key as it did at first. *)
Theorem Delete_undoes_Set t key (v : T) :
  key ≠ "" →
  Trie_Get zero t key = (zero, false) →
  ∃ t' prev,
    Trie_Set zero t key v = Returns (t', prev)
    ∧ ∀ key', Trie_Get zero (Trie_Delete zero t' key).1 key'
              = Trie_Get zero t key'.
Proof.
  intros Hk Hget. destruct (Set_spec t key v Hk) as (t' & Hset & _ & Hother).
  exists t', (Trie_Get zero t key). split; [done|]. intros key'.
  destruct (Delete_spec t' key) as (_ & Hdel & Hdother).
  destruct (decide (key' = key)) as [->|Hne]; [by rewrite Hdel, Hget|].
  by rewrite Hdother, Hother.
Qed.

End Trie.

Lemma Delete_undoes_Set_witness :
  ∃ t' prev,
    Trie_Set 0 trie_c_bc_abc "xbc" 7 = Returns (t', prev)
    ∧ ∀ key', Trie_Get 0 (Trie_Delete 0 t' "xbc").1 key'
              = Trie_Get 0 trie_c_bc_abc key'.
Proof.
  apply (Delete_undoes_Set 0 trie_c_bc_abc "xbc" 7); [discriminate|].
  vm_compute. reflexivity.
Defined.

Lemma Set_then_Get_witness :
  ∃ t', Trie_Set 0 trie_c_bc_abc "bc" 7
        = Returns (t', Trie_Get 0 trie_c_bc_abc "bc")
        ∧ Trie_Get 0 t' "bc" = (7, true)
        ∧ ∀ key', key' ≠ "bc" → Trie_Get 0 t' key' = Trie_Get 0 trie_c_bc_abc key'.
Proof. apply (Set_then_Get 0 trie_c_bc_abc "bc" 7). discriminate. Defined.

Lemma ComputeIfAbsent_then_Get_witness :
  if (Trie_Get 0 trie_c_bc_abc "ab").2 then
    Trie_ComputeIfAbsent 0 trie_c_bc_abc "ab" (λ _, 12)
    = Returns (trie_c_bc_abc, ((Trie_Get 0 trie_c_bc_abc "ab").1, true))
  else
    ∃ t', Trie_ComputeIfAbsent 0 trie_c_bc_abc "ab" (λ _, 12)
          = Returns (t', (12, false))
          ∧ Trie_Get 0 t' "ab" = (12, true)
          ∧ ∀ key', key' ≠ "ab" →
              Trie_Get 0 t' key' = Trie_Get 0 trie_c_bc_abc key'.
Proof.
  apply (ComputeIfAbsent_then_Get 0 trie_c_bc_abc "ab" (λ _, 12)). discriminate.
Defined.

Lemma All_lists_stored_low_keys_witness :
  ("bc", 2) ∈ Trie_All trie_c_bc_abc ↔ Trie_Get 0 trie_c_bc_abc "bc" = (2, true).
Proof.
  apply (All_lists_stored_low_keys 0 trie_c_bc_abc "bc" 2); [discriminate|].
  unfold below_0x80. vm_compute. repeat constructor.
Defined.

Lemma All_lists_rebuilt_key_witness :
  (walkKey (reverse (bytes "bc")) "", 2) ∈ Trie_All trie_c_bc_abc
  ∧ (walkKey (reverse (bytes "bc")) "" = "bc" ↔ below_0x80 "bc").
Proof.
  apply (All_lists_rebuilt_key 0 trie_c_bc_abc "bc" 2). vm_compute. reflexivity.
Defined.

Lemma FindSuffix_after_Set_witness :
  last (Trie_FindSuffix (setOr "xbc" 9 trie_c_bc_abc) "xbc") = Some 9.
Proof.
  apply (FindSuffix_after_Set 0 trie_c_bc_abc "xbc" 9
           (setOr "xbc" 9 trie_c_bc_abc) (0, false)).
  vm_compute. reflexivity.
Defined.

End rtrie_facts.

Module resource_facts.
Import rtrie rtrie_facts resource.

Section ResourcesMap.
Context {API : Type} `{Countable API} {GraphNode : Type}.
Implicit Types (m : @resourcesMap API _ _ GraphNode) (name : @Name API).
Implicit Types (byName : gmap API (@graphBucket GraphNode)).

Lemma stored_mutateStored (t : Trie) (key : string) byName old :
  stored ∅ t key = Some old → stored ∅ (mutateStored t key byName) key = Some byName.
Proof.
  intros Hold. pose proof (stored_nonempty _ _ _ _ Hold) as Hk.
  rewrite stored_nodeAt in * by done. unfold mutateStored. simpl.
  destruct (nodeAt (root t) (reverse (bytes key))) as [x|] eqn:Hx; [|done].
  erewrite nodeAt_storeAt by done. simpl in *. unfold nodeValue in *. simpl.
  by destruct (hasContents x).
Qed.

Lemma elem_of_All m (entry : Name * option GraphNode) :
  entry ∈ All m ↔
    ∃ base byAPI api bucket,
      (base, byAPI) ∈ Trie_All (trie m) ∧ byAPI !! api = Some bucket
      ∧ (entry = (newRemoteName "" api base, local bucket)
         ∨ ∃ r node, remote bucket !! r = Some node
                     ∧ entry = (newRemoteName r api base, node)).
Proof.
  unfold All. rewrite list_elem_of_bind. split.
  - intros ([base byAPI] & (api & bucket & Hb & Hin)%elem_of_rangeMap & Hbase).
    exists base, byAPI, api, bucket. do 2 (split; [done|]).
    apply elem_of_cons in Hin as [->|Hin]; [by left|right].
    apply elem_of_rangeMap in Hin as (r & node & Hr & ->%list_elem_of_singleton).
    eauto.
  - intros (base & byAPI & api & bucket & Hbase & Hb & Hin).
    exists (base, byAPI). split; [|done].
    apply elem_of_rangeMap. exists api, bucket. split; [done|].
    apply elem_of_cons. destruct Hin as [->|(r & node & Hr & ->)]; [by left|right].
    apply elem_of_rangeMap. exists r, node. split; [done|]. by left.
Qed.

(** [PutByName] returns for every non-empty base name, and [GetByName] then
    finds the node in that slot. *)
Lemma PutByName_GetByName m name (node : option GraphNode) :
  Name_Name name ≠ "" →
  ∃ m' prev,
    PutByName m name node = Returns (m', prev)
    ∧ GetByName m' name =
        if decide (Name_Remote name = "")
        then (node, bool_decide (is_Some node)) else (node, true).
Proof.
  intros Hname. unfold PutByName.
  assert (∃ t byName b,
            Trie_ComputeIfAbsent ∅ (trie m) (Name_Name name) (λ _, ∅)
            = Returns (t, (byName, b))
            ∧ stored ∅ t (Name_Name name) = Some byName)
    as (t & byName & b & -> & Hst).
  { unfold Trie_ComputeIfAbsent.
    destruct (Trie_Get ∅ (trie m) (Name_Name name)) as [existing [|]] eqn:HG.
    - do 3 eexists. split; [done|]. by apply Get_stored.
    - destruct (Set_Get ∅ (trie m) (Name_Name name) ∅ Hname)
        as (t' & prev & -> & HG').
      do 3 eexists. split; [done|]. by apply Get_stored. }
  assert (∀ byName' : gmap API (@graphBucket GraphNode),
            Trie_Get ∅ (mutateStored t (Name_Name name) byName') (Name_Name name)
            = (byName', true)) as Hget.
  { intros byName'. apply Get_stored. by eapply stored_mutateStored. }
  destruct (byName !! Name_API name) as [byAPI|];
    destruct (decide (Name_Remote name = "")) as [Hr|Hr];
    do 2 eexists; (split; [done|]); unfold GetByName; simpl;
    rewrite Hget; simpl; rewrite lookup_insert_eq;
    rewrite ?decide_True, ?decide_False by done; simpl;
    by rewrite ?lookup_insert_eq.
Qed.

(** The local slot of every bucket is listed, whether or not it holds a node. *)
Lemma All_lists_every_local_slot m base byAPI api bucket :
  (base, byAPI) ∈ Trie_All (trie m) → byAPI !! api = Some bucket →
  (newRemoteName "" api base, local bucket) ∈ All m.
Proof. intros Hbase Hb. apply elem_of_All. naive_solver. Qed.

(** What [DeleteByName] leaves under the base name of an existing bucket:
    the emptied bucket is taken out of the class set, and the base name out
    of the trie when that was its last bucket. *)
Lemma DeleteByName_cleanup m name byName bucket :
  stored ∅ (trie m) (Name_Name name) = Some byName →
  byName !! Name_API name = Some bucket →
  let bucket' :=
    if decide (Name_Remote name = "") then mkBucket None (remote bucket)
    else mkBucket (local bucket) (delete (Name_Remote name) (remote bucket)) in
  stored ∅ (trie (DeleteByName m name)) (Name_Name name) =
    if decide (local bucket' = None ∧ remote bucket' = ∅) then
      if decide (delete (Name_API name) byName = ∅) then None
      else Some (delete (Name_API name) byName)
    else Some (<[Name_API name := bucket']> byName).
Proof.
  intros Hst Hb bucket'. unfold DeleteByName.
  apply Get_stored in Hst as HGet. rewrite HGet. simpl. rewrite Hb.
  fold bucket'. rewrite delete_insert_eq.
  assert ((size (remote bucket') <? 1) = bool_decide (remote bucket' = ∅)) as ->.
  { destruct (decide (remote bucket' = ∅)) as [->|Hne].
    - by rewrite bool_decide_eq_true_2.
    - rewrite bool_decide_eq_false_2 by done. apply Nat.ltb_ge.
      apply map_size_non_empty_iff in Hne. lia. }
  assert ((size (delete (Name_API name) byName) <? 1)
          = bool_decide (delete (Name_API name) byName = ∅)) as ->.
  { destruct (decide (delete (Name_API name) byName = ∅)) as [->|Hne].
    - by rewrite bool_decide_eq_true_2.
    - rewrite bool_decide_eq_false_2 by done. apply Nat.ltb_ge.
      apply map_size_non_empty_iff in Hne. lia. }
  rewrite <-bool_decide_and.
  destruct (decide (local bucket' = None ∧ remote bucket' = ∅)) as [He|He].
  - rewrite bool_decide_eq_true_2 by done.
    destruct (decide (delete (Name_API name) byName = ∅)) as [Hd|Hd].
    + rewrite bool_decide_eq_true_2 by done. simpl. apply Delete_stored.
    + rewrite bool_decide_eq_false_2 by done. simpl.
      by eapply stored_mutateStored.
  - rewrite bool_decide_eq_false_2 by done. simpl. by eapply stored_mutateStored.
Qed.

(** Where the base name is made of bytes below 0x80 and [DeleteByName] took
    its last bucket away, [All] no longer lists it. *)
Lemma DeleteByName_low_name_unlisted m name byName bucket entry :
  below_0x80 (Name_Name name) →
  stored ∅ (trie m) (Name_Name name) = Some byName →
  byName !! Name_API name = Some bucket →
  delete (Name_API name) byName = ∅ →
  (if decide (Name_Remote name = "") then remote bucket = ∅
   else local bucket = None ∧ delete (Name_Remote name) (remote bucket) = ∅) →
  entry ∈ All (DeleteByName m name) → Name_Name entry.1 ≠ Name_Name name.
Proof.
  intros Hlow Hst Hb Hlast Hempty Hin Heq.
  pose proof (DeleteByName_cleanup m name byName bucket Hst Hb) as Hc.
  simpl in Hc. rewrite decide_True in Hc.
  2:{ destruct (decide (Name_Remote name = "")); simpl; naive_solver. }
  rewrite decide_True in Hc by done.
  apply elem_of_All in Hin as (base & byAPI & api & b & Hbase & _ & Hentry).
  assert (base = Name_Name name) as ->.
  { destruct Hentry as [->|(r & node & _ & ->)]; by simpl in Heq. }
  apply (All_low_key_stored ∅) in Hbase; [congruence| |done].
  by eapply stored_nonempty.
Qed.

(** *** The three operations on one slot *)

Lemma GetByName_slotOf m name :
  GetByName m name = slotOf (stored ∅ (trie m) (Name_Name name)) name.
Proof.
  unfold GetByName, slotOf, stored.
  destruct (Trie_Get ∅ (trie m) (Name_Name name)) as [byName [|]]; simpl; done.
Qed.

Lemma stored_same_Get {T} (zero : T) (t t' : Trie) key key' :
  Trie_Get zero t' key' = Trie_Get zero t key →
  stored zero t' key' = stored zero t key.
Proof. unfold stored. by intros ->. Qed.

Lemma stored_mutateStored_ne (t : Trie) (key : string) byName key' :
  key' ≠ key → stored ∅ (mutateStored t key byName) key' = stored ∅ t key'.
Proof.
  intros Hne. destruct (decide (key' = "")) as [->|Hk']; [done|].
  rewrite !stored_valueAt by done. unfold mutateStored. simpl.
  apply valueAt_storeAt_ne; [done|].
  intros Heq. by apply Hne, reverse_bytes_inj.
Qed.

Lemma PutByName_stored m name (node : option GraphNode) :
  Name_Name name ≠ "" →
  ∃ m',
    PutByName m name node
    = Returns (m', (slotOf (stored ∅ (trie m) (Name_Name name)) name).1)
    ∧ ∀ key,
        stored ∅ (trie m') key =
          if decide (key = Name_Name name) then
            Some (putSlot (default ∅ (stored ∅ (trie m) (Name_Name name)))
                    name node)
          else stored ∅ (trie m) key.
Proof.
  intros Hname. unfold PutByName.
  assert (∃ t,
            Trie_ComputeIfAbsent ∅ (trie m) (Name_Name name) (λ _, ∅)
            = Returns (t, (default ∅ (stored ∅ (trie m) (Name_Name name)),
                           bool_decide (is_Some
                             (stored ∅ (trie m) (Name_Name name)))))
            ∧ stored ∅ t (Name_Name name)
              = Some (default ∅ (stored ∅ (trie m) (Name_Name name)))
            ∧ ∀ key, key ≠ Name_Name name →
                stored ∅ t key = stored ∅ (trie m) key)
    as (t & -> & Hst & Hother).
  { pose proof (ComputeIfAbsent_then_Get ∅ (trie m) (Name_Name name) (λ _, ∅)
                  Hname) as Hc.
    destruct (Trie_Get ∅ (trie m) (Name_Name name)) as [existing [|]] eqn:HG;
      simpl in *.
    - apply Get_stored in HG as Hex. rewrite Hex. simpl.
      exists (trie m). split; [done|]. by split.
    - assert (stored ∅ (trie m) (Name_Name name) = None) as Hex
        by (apply Get_not_stored; by rewrite HG).
      rewrite Hex. simpl.
      destruct Hc as (t' & -> & Hget & Hframe). exists t'.
      split; [done|]. split; [by apply Get_stored|].
      intros key Hne. by apply stored_same_Get, Hframe. }
  set (byName0 := default ∅ (stored ∅ (trie m) (Name_Name name))) in *.
  assert (slotOf (stored ∅ (trie m) (Name_Name name)) name
          = slotOf (Some byName0) name) as ->.
  { unfold slotOf, byName0.
    by destruct (stored ∅ (trie m) (Name_Name name)). }
  assert (∀ byName' key,
            stored ∅ (mutateStored t (Name_Name name) byName') key =
              if decide (key = Name_Name name) then Some byName'
              else stored ∅ (trie m) key) as Hmut.
  { intros byName' key. case_decide as Hkey.
    - subst key. by eapply stored_mutateStored.
    - rewrite stored_mutateStored_ne by done. by apply Hother. }
  unfold putSlot, slotOf. simpl.
  destruct (byName0 !! Name_API name) as [byAPI|] eqn:Hb; simpl;
    destruct (decide (Name_Remote name = "")) as [Hr|Hr]; simpl;
    eexists; (split; [try done|]);
    try (intros key; cbn [trie]; rewrite ?insert_insert_eq; apply Hmut).
  - by destruct (remote byAPI !! Name_Remote name).
  - intros key. cbn [trie]. apply Hmut.
Qed.

Lemma DeleteByName_stored m name key :
  stored ∅ (trie (DeleteByName m name)) key =
    if decide (key = Name_Name name) then
      stored ∅ (trie m) (Name_Name name) ≫= λ byName, clearSlot byName name
    else stored ∅ (trie m) key.
Proof.
  destruct (stored ∅ (trie m) (Name_Name name)) as [byName|] eqn:Hst.
  2:{ unfold DeleteByName. apply Get_not_stored in Hst as HG.
      destruct (Trie_Get ∅ (trie m) (Name_Name name)) as [x ok]. simpl in HG.
      subst ok. simpl. case_decide; [by subst|done]. }
  destruct (byName !! Name_API name) as [bucket|] eqn:Hb.
  2:{ unfold DeleteByName, clearSlot. apply Get_stored in Hst as HG.
      rewrite HG. simpl. rewrite Hb. case_decide; [by subst|done]. }
  case_decide as Hkey.
  { subst key. simpl. unfold clearSlot. rewrite Hb.
    apply (DeleteByName_cleanup m name byName bucket Hst Hb). }
  unfold DeleteByName. apply Get_stored in Hst as HG. rewrite HG. simpl.
  rewrite Hb.
  repeat case_match; simpl;
    rewrite ?(proj2 (Delete_other ∅ _ _ key)) by done;
    by rewrite stored_mutateStored_ne.
Qed.

Lemma slotOf_putSlot_same byName name (node : option GraphNode) :
  slotOf (Some (putSlot byName name node)) name =
    if decide (Name_Remote name = "") then (node, bool_decide (is_Some node))
    else (node, true).
Proof.
  unfold slotOf, putSlot. simpl. rewrite lookup_insert_eq.
  case_decide; simpl; [done|]. by rewrite lookup_insert_eq.
Qed.

Lemma Name_neq name name' :
  name' ≠ name →
  Name_Name name' ≠ Name_Name name ∨ Name_API name' ≠ Name_API name
  ∨ Name_Remote name' ≠ Name_Remote name.
Proof.
  destruct name as [a r n], name' as [a' r' n']. simpl. intros Hne.
  destruct (decide (n' = n)) as [->|]; [|by left].
  destruct (decide (a' = a)) as [->|]; [|by right; left].
  destruct (decide (r' = r)) as [->|]; [|by right; right]. done.
Qed.

Lemma slotOf_putSlot_other (stored0 : option (gmap API (@graphBucket GraphNode)))
    name name' (node : option GraphNode) :
  Name_Name name' = Name_Name name →
  (Name_API name' ≠ Name_API name ∨ Name_Remote name' ≠ Name_Remote name) →
  slotOf (Some (putSlot (default ∅ stored0) name node)) name'
  = slotOf stored0 name'.
Proof.
  intros _ Hne. unfold slotOf, putSlot. simpl.
  destruct (decide (Name_API name' = Name_API name)) as [Ha|Ha].
  2:{ rewrite lookup_insert_ne by done. by destruct stored0. }
  destruct Hne as [?|Hr]; [done|]. rewrite Ha, lookup_insert_eq.
  assert (stored0 ≫= (.!! Name_API name)
          = default ∅ stored0 !! Name_API name) as ->
    by (by destruct stored0).
  destruct (default ∅ stored0 !! Name_API name) as [b|]; simpl.
  - destruct (decide (Name_Remote name = "")) as [Hn|Hn];
      destruct (decide (Name_Remote name' = "")) as [Hn'|Hn']; simpl;
      try congruence; try done.
    by rewrite lookup_insert_ne.
  - destruct (decide (Name_Remote name = "")) as [Hn|Hn];
      destruct (decide (Name_Remote name' = "")) as [Hn'|Hn']; simpl;
      try congruence; try done.
    by rewrite lookup_insert_ne.
Qed.

(** X7. For a non-empty base name, [PutByName] does not panic and returns the
    node that [GetByName] found in the slot before (nil if none); afterwards
    [GetByName] finds the new node in that slot (a nil node put into the
    local slot reads as not found), and answers as before for every other
    name. *)
Theorem PutByName_then_GetByName m name (node : option GraphNode) :
  Name_Name name ≠ "" →
  ∃ m',
    PutByName m name node = Returns (m', (GetByName m name).1)
    ∧ GetByName m' name =
        (if decide (Name_Remote name = "")
         then (node, bool_decide (is_Some node)) else (node, true))
    ∧ ∀ name', name' ≠ name → GetByName m' name' = GetByName m name'.
Proof.
  intros Hname. destruct (PutByName_stored m name node Hname)
    as (m' & Hput & Hst).
  exists m'. rewrite !GetByName_slotOf. split; [done|]. split.
  - rewrite Hst, decide_True by done. apply slotOf_putSlot_same.
  - intros name' Hne. rewrite !GetByName_slotOf, Hst.
    case_decide as Hbase; [|done]. rewrite Hbase.
    apply slotOf_putSlot_other; [done|].
    apply Name_neq in Hne as [?|?]; done.
Qed.

(** X8. With an empty base name [PutByName] panics (its [Set] dereferences
    nil), [GetByName] finds nothing and [DeleteByName] leaves the index as it
    is, whatever the class, the remote and the index. *)
Theorem empty_base_name m api remote (node : option GraphNode) :
  PutByName m (mkName api remote "") node = Panics
  ∧ GetByName m (mkName api remote "") = (None, false)
  ∧ DeleteByName m (mkName api remote "") = m.
Proof. done. Qed.

Lemma slotOf_clearSlot_same byName name :
  slotOf (clearSlot byName name) name = (None, false).
Proof.
  unfold slotOf, clearSlot.
  destruct (byName !! Name_API name) as [b|] eqn:Hb; simpl; [|by rewrite Hb].
  destruct (decide (Name_Remote name = "")) as [Hr|Hr]; simpl.
  - destruct (decide (None = None ∧ remote b = ∅)) as [He|He]; simpl.
    + destruct (decide (delete (Name_API name) byName = ∅)); simpl; [done|].
      by rewrite lookup_delete_eq.
    + by rewrite lookup_insert_eq.
  - destruct (decide (local b = None
                      ∧ delete (Name_Remote name) (remote b) = ∅)); simpl.
    + destruct (decide (delete (Name_API name) byName = ∅)); simpl; [done|].
      by rewrite lookup_delete_eq.
    + rewrite lookup_insert_eq. simpl. by rewrite lookup_delete_eq.
Qed.

Lemma slotOf_removed_bucket byName name name' (bucket : @graphBucket GraphNode) :
  byName !! Name_API name = Some bucket →
  Name_API name' ≠ Name_API name →
  slotOf (if decide (delete (Name_API name) byName = ∅) then None
          else Some (delete (Name_API name) byName)) name'
  = slotOf (Some byName) name'.
Proof.
  intros Hb Ha. unfold slotOf.
  assert (byName !! Name_API name'
          = delete (Name_API name) byName !! Name_API name') as Heq
    by (by rewrite lookup_delete_ne).
  case_decide as Hd; simpl; rewrite Heq; [|done].
  by rewrite Hd, lookup_empty.
Qed.

Lemma slotOf_clearSlot_other byName name name' :
  Name_API name' ≠ Name_API name ∨ Name_Remote name' ≠ Name_Remote name →
  slotOf (clearSlot byName name) name' = slotOf (Some byName) name'.
Proof.
  intros Hne. unfold clearSlot.
  destruct (byName !! Name_API name) as [b|] eqn:Hb; [|done].
  destruct (decide (Name_API name' = Name_API name)) as [Ha|Ha].
  2:{ case_decide; [by eapply slotOf_removed_bucket|].
      unfold slotOf. simpl. by rewrite lookup_insert_ne. }
  destruct Hne as [?|Hr]; [done|].
  assert (slotOf (Some byName) name'
          = if decide (Name_Remote name' = "")
            then (local b, bool_decide (is_Some (local b)))
            else match remote b !! Name_Remote name' with
                 | Some result => (result, true)
                 | None => (None, false)
                 end) as ->.
  { unfold slotOf. simpl. by rewrite Ha, Hb. }
  assert (∀ b', slotOf (Some (<[Name_API name := b']> byName)) name'
          = if decide (Name_Remote name' = "")
            then (local b', bool_decide (is_Some (local b')))
            else match remote b' !! Name_Remote name' with
                 | Some result => (result, true)
                 | None => (None, false)
                 end) as Hins.
  { intros b'. unfold slotOf. simpl. by rewrite Ha, lookup_insert_eq. }
  assert (slotOf (if decide (delete (Name_API name) byName = ∅) then None
                  else Some (delete (Name_API name) byName)) name'
          = (None, false)) as Hgone.
  { unfold slotOf.
    destruct (decide (delete (Name_API name) byName = ∅)); csimpl.
    - done.
    - by rewrite Ha, lookup_delete_eq. }
  destruct (decide (Name_Remote name = "")) as [Hn|Hn]; simpl.
  - assert (Name_Remote name' ≠ "") as Hn' by congruence.
    destruct (decide (None = None ∧ remote b = ∅)) as [He|He].
    + rewrite Hgone. destruct He as [_ He].
      destruct (decide (Name_Remote name' = "")); [done|].
      by rewrite He, lookup_empty.
    + rewrite Hins. simpl.
      by destruct (decide (Name_Remote name' = "")).
  - destruct (decide (local b = None
                      ∧ delete (Name_Remote name) (remote b) = ∅)) as [He|He].
    + rewrite Hgone. destruct He as [Hl He].
      destruct (decide (Name_Remote name' = "")); [by rewrite Hl|].
      assert (remote b !! Name_Remote name'
              = delete (Name_Remote name) (remote b) !! Name_Remote name')
        as -> by (by rewrite lookup_delete_ne).
      by rewrite He, lookup_empty.
    + rewrite Hins. simpl.
      destruct (decide (Name_Remote name' = "")); [done|].
      by rewrite lookup_delete_ne.
Qed.

(** X9. After [DeleteByName], [GetByName] finds nothing under the deleted
    name and answers as before for every other name. This holds for every
    index and every name, present or not. *)
Theorem DeleteByName_then_GetByName m name :
  GetByName (DeleteByName m name) name = (None, false)
  ∧ ∀ name', name' ≠ name →
      GetByName (DeleteByName m name) name' = GetByName m name'.
Proof.
  split.
  - rewrite GetByName_slotOf, DeleteByName_stored, decide_True by done.
    destruct (stored ∅ (trie m) (Name_Name name)) as [byName|]; simpl; [|done].
    apply slotOf_clearSlot_same.
  - intros name' Hne. rewrite !GetByName_slotOf, DeleteByName_stored.
    case_decide as Hbase; [|done]. rewrite Hbase.
    destruct (stored ∅ (trie m) (Name_Name name)) as [byName|]; simpl; [|done].
    apply slotOf_clearSlot_other.
    apply Name_neq in Hne as [?|?]; done.
Qed.

(** X10. A name that [GetByName] finds, with a base name of bytes below 0x80,
    is listed by [All] with the node found. *)
Theorem GetByName_found_listed m name (node : option GraphNode) :
  below_0x80 (Name_Name name) →
  GetByName m name = (node, true) →
  (name, node) ∈ All m.
Proof.
  intros Hlow. rewrite GetByName_slotOf. unfold slotOf.
  destruct (stored ∅ (trie m) (Name_Name name)) as [byName|] eqn:Hst;
    simpl; [|done].
  destruct (byName !! Name_API name) as [bucket|] eqn:Hb; [|done].
  assert ((Name_Name name, byName) ∈ Trie_All (trie m)) as Hall.
  { apply stored_walk in Hst. by rewrite walkKey_reverse_low in Hst. }
  intros Hget. apply elem_of_All.
  exists (Name_Name name), byName, (Name_API name), bucket.
  split; [done|]. split; [done|]. destruct name as [a r n]. simpl in *.
  destruct (decide (r = "")) as [->|Hr].
  - left. by injection Hget as <- _.
  - right. destruct (remote bucket !! r) as [result|] eqn:Hres; [|done].
    injection Hget as <-. by exists r, result.
Qed.

(** X11. [Copy] does not copy: whatever the index holds, the index returned
    lists nothing and [GetByName] finds nothing in it. *)
Theorem Copy_is_empty m name :
  All (Copy m) = [] ∧ GetByName (Copy m) name = (None, false).
Proof.
  split; [done|]. rewrite GetByName_slotOf.
  assert (stored ∅ (trie (Copy m)) (Name_Name name) = None) as ->; [|done].
  destruct (decide (Name_Name name = "")) as [->|Hk]; [done|].
  rewrite stored_nodeAt by done. simpl.
  destruct (reverse (bytes (Name_Name name))); [done|]. simpl.
  by rewrite lookup_empty.
Qed.

End ResourcesMap.

Lemma PutByName_then_GetByName_witness :
  ∃ m',
    PutByName emptyIndex (mkName 7 "peer" "arm") (Some 1)
    = Returns (m', (GetByName emptyIndex (mkName 7 "peer" "arm")).1)
    ∧ GetByName m' (mkName 7 "peer" "arm") =
        (if decide (Name_Remote (mkName 7 "peer" "arm") = "")
         then (Some 1, bool_decide (is_Some (Some 1))) else (Some 1, true))
    ∧ ∀ name', name' ≠ mkName 7 "peer" "arm" →
        GetByName m' name' = GetByName emptyIndex name'.
Proof.
  apply (PutByName_then_GetByName emptyIndex (mkName 7 "peer" "arm") (Some 1)).
  discriminate.
Defined.

Lemma GetByName_found_listed_witness :
  (mkName 7 "peer" "arm", Some 1) ∈ All indexWithRemoteArm.
Proof.
  apply (GetByName_found_listed indexWithRemoteArm (mkName 7 "peer" "arm")
           (Some 1)).
  - unfold below_0x80. vm_compute. repeat constructor.
  - vm_compute. reflexivity.
Defined.

(** C7. An index holding only a node imported from a remote: the bucket has
    no local node, [GetByName] reports the local name as not found, and yet
    [All] lists the local name first, with a nil node. *)
Theorem All_lists_nil_local_slot :
  ∃ m,
    put (mkName 7 "peer" "arm") 1 (Returns emptyIndex) = Returns m
    ∧ GetByName m (mkName 7 "" "arm") = (None, false)
    ∧ All m = [(mkName 7 "" "arm", None); (mkName 7 "peer" "arm", Some 1)].
Proof.
  eexists. split; [vm_compute; reflexivity|]. split; vm_compute; reflexivity.
Qed.

(** C8. Two local resources whose base names are the byte strings C3 A9 and
    C3 83 C2 A9. Deleting the second removes its bucket and its base name from
    the trie ([Get] and [GetByName] no longer find it), but [All] still lists
    the base name C3 83 C2 A9: it is the key [walk] rebuilds for the first,
    as [string(prefix)] re-encodes the bytes C3 and A9 in UTF-8. *)
Theorem DeleteByName_name_still_listed :
  ∃ m,
    put (mkName 7 "" name_C3_83_C2_A9) 2
      (put (mkName 7 "" name_C3_A9) 1 (Returns emptyIndex)) = Returns m
    ∧ let m' := DeleteByName m (mkName 7 "" name_C3_83_C2_A9) in
      Trie_Get ∅ (trie m') name_C3_83_C2_A9 = (∅, false)
      ∧ GetByName m' (mkName 7 "" name_C3_83_C2_A9) = (None, false)
      ∧ GetByName m' (mkName 7 "" name_C3_A9) = (Some 1, true)
      ∧ All m' = [(mkName 7 "" name_C3_83_C2_A9, Some 1)].
Proof.
  eexists. split; [vm_compute; reflexivity|].
  repeat split; vm_compute; reflexivity.
Qed.

End resource_facts.

Module config_facts.
Import config.

Section diffAll.
Context {T K : Type} `{Countable K}.
Context (Equals : T → T → bool) (getKey : T → K).
Context (rangeKeys : gmap K T → list K).

(** Whatever the order, [range] visits every key of the map once. *)
Hypothesis rangeKeys_perm : ∀ m : gmap K T, rangeKeys m ≡ₚ (map_to_list m).*1.

#[local] Abbreviation itemOf := (itemOf getKey).
#[local] Abbreviation countKey := (countKey getKey).
#[local] Abbreviation indexLeft := (indexLeft getKey).
#[local] Abbreviation survivors := (survivors getKey).
#[local] Abbreviation survivorIndexes := (survivorIndexes getKey).

(** **** The two maps built from the left side *)

Lemma indexLeft_snoc left l :
  indexLeft (left ++ [l]) =
    (<[getKey l := length left]> (indexLeft left).1,
     <[getKey l := l]> (indexLeft left).2).
Proof.
  unfold config.indexLeft. rewrite imap_app, foldl_app. simpl.
  rewrite Nat.add_0_r. by destruct (foldl _ _ _).
Qed.

Lemma indexLeft_item left k : (indexLeft left).2 !! k = itemOf k left.
Proof.
  unfold config.itemOf.
  induction left as [|l left IH] using rev_ind; [done|].
  rewrite indexLeft_snoc, filter_app. simpl.
  rewrite filter_cons, filter_nil.
  destruct (decide (getKey l = k)) as [Hk|Hne].
  - by rewrite Hk, lookup_insert_eq, last_snoc.
  - by rewrite lookup_insert_ne, app_nil_r.
Qed.

Lemma indexLeft_index left k i :
  (indexLeft left).1 !! k = Some i ↔
    ∃ l, left !! i = Some l ∧ getKey l = k
         ∧ k ∉ (getKey <$> drop (S i) left).
Proof.
  revert i. induction left as [|l left IH] using rev_ind; intros i.
  { change ((indexLeft []).1) with (∅ : gmap K nat).
    split; [by rewrite lookup_empty|]. by intros (l & Hl & _). }
  rewrite indexLeft_snoc. simpl.
  destruct (decide (getKey l = k)) as [Hk|Hne].
  - rewrite Hk, lookup_insert_eq. split.
    + intros [= <-]. exists l. rewrite list_lookup_middle by done.
      rewrite drop_ge by (rewrite length_app; simpl; lia).
      split; [done|]. split; [done|]. by intros ?%elem_of_nil.
    + intros (l' & Hl' & Hk' & Hnot).
      destruct (decide (i = length left)) as [->|Hi]; [done|].
      exfalso. apply Hnot.
      apply lookup_lt_Some in Hl' as Hlen. rewrite length_app in Hlen.
      simpl in Hlen. rewrite drop_app_le by lia. rewrite fmap_app.
      apply elem_of_app. right. rewrite <-Hk. by left.
  - rewrite lookup_insert_ne by done. rewrite IH. split.
    + intros (l' & Hl' & Hk & Hnot). exists l'.
      apply lookup_lt_Some in Hl' as Hlen.
      rewrite lookup_app_l by done. rewrite drop_app_le by lia.
      rewrite fmap_app, not_elem_of_app. simpl.
      repeat split; [done..|].
      intros [?|?%elem_of_nil]%elem_of_cons; [|done]. by apply Hne.
    + intros (l' & Hl' & Hk & Hnot). exists l'.
      assert (i < length left) as Hlen.
      { apply lookup_lt_Some in Hl' as Hlen. rewrite length_app in Hlen.
        simpl in Hlen. destruct (decide (i = length left)) as [->|]; [|lia].
        rewrite list_lookup_middle in Hl' by done. congruence. }
      rewrite lookup_app_l in Hl' by done. rewrite drop_app_le in Hnot by lia.
      rewrite fmap_app, not_elem_of_app in Hnot. by destruct Hnot as [? _].
Qed.

Lemma indexLeft_dom left k :
  is_Some ((indexLeft left).1 !! k) ↔ is_Some ((indexLeft left).2 !! k).
Proof.
  induction left as [|l left IH] using rev_ind.
  { change (indexLeft []) with ((∅, ∅) : gmap K nat * gmap K T). simpl.
    by rewrite !lookup_empty. }
  rewrite indexLeft_snoc. simpl.
  destruct (decide (getKey l = k)) as [Hk|Hne].
  - rewrite Hk, !lookup_insert_eq. split; eauto.
  - by rewrite !lookup_insert_ne.
Qed.

Lemma itemOf_None k (s : list T) : itemOf k s = None ↔ k ∉ (getKey <$> s).
Proof.
  unfold config.itemOf. rewrite last_None. split.
  - intros Hnil (x & -> & Hx)%list_elem_of_fmap.
    assert (x ∈ filter (λ y, getKey y = getKey x) s) as Hin
      by (by apply list_elem_of_filter).
    rewrite Hnil in Hin. by apply elem_of_nil in Hin.
  - intros Hnot. apply elem_of_nil_inv. intros x [Hk Hx]%list_elem_of_filter.
    apply Hnot, list_elem_of_fmap. eauto.
Qed.

Lemma itemOf_Some k (s : list T) x :
  itemOf k s = Some x → x ∈ s ∧ getKey x = k.
Proof.
  unfold config.itemOf. intros Hx%last_Some_elem_of.
  by apply list_elem_of_filter in Hx as [? ?].
Qed.

(** **** The loop over the right side *)

Lemma diffAll_right_leftM right leftM d out k :
  (diffAll_right Equals getKey right leftM d out).1.1 !! k =
    if decide (k ∈ getKey <$> right) then None else leftM !! k.
Proof.
  revert leftM d out. induction right as [|r right IH]; intros leftM d out.
  { cbn [diffAll_right fst]. case_decide as Hin; [|done].
    by apply elem_of_nil in Hin. }
  cbn [diffAll_right].
  assert (∀ d' out',
    (diffAll_right Equals getKey right (delete (getKey r) leftM) d' out').1.1 !! k
    = if decide (k ∈ getKey <$> r :: right) then None else leftM !! k) as Hrec.
  { intros d' out'. rewrite IH. rewrite fmap_cons.
    destruct (decide (k = getKey r)) as [->|Hne].
    - rewrite lookup_delete_eq. rewrite (decide_True (P := _ ∈ _ :: _)) by left.
      by case_decide.
    - rewrite lookup_delete_ne by done.
      destruct (decide (k ∈ getKey <$> right)).
      + by rewrite decide_True by (by right).
      + rewrite decide_False; [done|]. by intros [?|?]%elem_of_cons. }
  destruct (leftM !! getKey r) as [l|]; [|apply Hrec].
  destruct (diffSingle Equals l r (modified out)). apply Hrec.
Qed.

Lemma diffAll_right_removed right leftM d out :
  removed (diffAll_right Equals getKey right leftM d out).2 = removed out.
Proof.
  revert leftM d out. induction right as [|r right IH]; intros leftM d out;
    [done|].
  cbn [diffAll_right]. destruct (leftM !! getKey r) as [l|]; [|by rewrite IH].
  destruct (diffSingle Equals l r (modified out)). by rewrite IH.
Qed.

Lemma diffAll_right_slices right leftM d out :
  NoDup (getKey <$> right) →
  (diffAll_right Equals getKey right leftM d out).2 =
    mkSlices
      (modified out ++ filter (λ r, verdict Equals getKey leftM r = Some false) right)
      (added out ++ filter (λ r, verdict Equals getKey leftM r = None) right)
      (removed out)
      ((λ u, u ++ filter (λ r, verdict Equals getKey leftM r = Some true) right)
         <$> unmodified out).
Proof.
  revert leftM d out. induction right as [|r right IH]; intros leftM d out Hnd.
  { simpl. rewrite !filter_nil, !app_nil_r. destruct out as [? ? ? [u|]]; simpl;
      by rewrite ?app_nil_r. }
  rewrite fmap_cons in Hnd. apply NoDup_cons in Hnd as [Hr Hnd].
  assert (∀ r', r' ∈ right →
            verdict Equals getKey (delete (getKey r) leftM) r'
            = verdict Equals getKey leftM r') as Hv.
  { intros r' Hr'. unfold verdict.
    rewrite lookup_delete_ne; [done|]. intros Heq. apply Hr.
    rewrite Heq. apply list_elem_of_fmap. eauto. }
  assert (filter (λ r', verdict Equals getKey (delete (getKey r) leftM) r' = Some false) right
          = filter (λ r', verdict Equals getKey leftM r' = Some false) right) as Hm
    by (apply filter_ext_in; intros r' Hr'; by rewrite Hv).
  assert (filter (λ r', verdict Equals getKey (delete (getKey r) leftM) r' = None) right
          = filter (λ r', verdict Equals getKey leftM r' = None) right) as Ha
    by (apply filter_ext_in; intros r' Hr'; by rewrite Hv).
  assert (filter (λ r', verdict Equals getKey (delete (getKey r) leftM) r' = Some true) right
          = filter (λ r', verdict Equals getKey leftM r' = Some true) right) as Hu
    by (apply filter_ext_in; intros r' Hr'; by rewrite Hv).
  cbn [diffAll_right]. rewrite !filter_cons.
  destruct (leftM !! getKey r) as [l|] eqn:Hl.
  - assert (verdict Equals getKey leftM r = Some (Equals l r)) as ->
      by (unfold verdict; by rewrite Hl).
    unfold diffSingle. destruct (Equals l r) eqn:Heq; simpl.
    + rewrite IH, Hm, Ha, Hu by done. simpl.
      f_equal. destruct (unmodified out); simpl; [|done].
      by rewrite <-app_assoc.
    + rewrite IH, Hm, Ha, Hu by done. simpl. by rewrite <-app_assoc.
  - assert (verdict Equals getKey leftM r = None) as ->
      by (unfold verdict; by rewrite Hl).
    rewrite IH, Hm, Ha, Hu by done. simpl. by rewrite <-app_assoc.
Qed.

(** **** The removed items *)

Lemma appendRemoved_survivors pre left right acc :
  appendRemoved (pre ++ left) (survivorIndexes (length pre) left right) acc
  = Returns (acc ++ survivors left right).
Proof.
  revert pre acc. induction left as [|l left IH]; intros pre acc.
  { simpl. by rewrite app_nil_r. }
  cbn [config.survivorIndexes config.survivors].
  replace (S (length pre)) with (length (pre ++ [l]))
    by (rewrite length_app; simpl; lia).
  case_decide.
  - cbn [app appendRemoved]. rewrite list_lookup_middle by done.
    rewrite (cons_middle l pre left), app_assoc, IH. by rewrite <-app_assoc.
  - cbn [app]. by rewrite (cons_middle l pre left), app_assoc, IH.
Qed.

Lemma survivorIndexes_elem off left right i :
  i ∈ survivorIndexes off left right ↔
    ∃ j l, i = off + j ∧ left !! j = Some l
           ∧ (getKey l ∉ getKey <$> drop (S j) left)
           ∧ (getKey l ∉ getKey <$> right).
Proof.
  revert off. induction left as [|l left IH]; intros off.
  { simpl. split; [by intros ?%elem_of_nil|]. by intros (j & l & _ & ? & _). }
  cbn [config.survivorIndexes]. rewrite elem_of_app, IH. split.
  - intros [Hhere|(j & l' & -> & Hl' & Hlater & Hright)].
    + case_decide as Hd; [|by apply elem_of_nil in Hhere].
      apply list_elem_of_singleton in Hhere as ->.
      exists 0, l. rewrite Nat.add_0_r. by destruct Hd.
    + exists (S j), l'. split; [lia|]. done.
  - intros ([|j] & l' & -> & Hl' & Hlater & Hright).
    + left. simpl in Hl'. injection Hl' as ->. rewrite Nat.add_0_r.
      rewrite decide_True; [by left|]. done.
    + right. exists j, l'. split; [lia|]. done.
Qed.

Lemma survivorIndexes_ge off left right i :
  i ∈ survivorIndexes off left right → off ≤ i.
Proof. intros (j & l & -> & _)%survivorIndexes_elem. lia. Qed.

Lemma survivorIndexes_NoDup off left right :
  NoDup (survivorIndexes off left right).
Proof.
  revert off. induction left as [|l left IH]; intros off; [constructor|].
  cbn [config.survivorIndexes]. case_decide; [|apply IH].
  apply NoDup_cons. split; [|apply IH].
  intros Hin%survivorIndexes_ge. lia.
Qed.

Lemma survivorIndexes_sorted off left right :
  StronglySorted (≤) (survivorIndexes off left right).
Proof.
  revert off. induction left as [|l left IH]; intros off; [constructor|].
  cbn [config.survivorIndexes]. case_decide; [|apply IH].
  constructor; [apply IH|].
  apply Forall_forall. intros i Hin%survivorIndexes_ge. lia.
Qed.

(** The indexes collected from what is left of [leftM], once sorted, are the
    positions of the survivors, whatever the order of the [range]. *)
Lemma removedIndexes_sorted left right (leftM' : gmap K T) :
  (∀ k, leftM' !! k =
        if decide (k ∈ getKey <$> right) then None else (indexLeft left).2 !! k) →
  sort_Ints ((λ k, default 0 ((indexLeft left).1 !! k)) <$> rangeKeys leftM')
  = survivorIndexes 0 left right.
Proof.
  intros HleftM. unfold sort_Ints.
  assert (∀ k, k ∈ rangeKeys leftM' ↔
               (k ∉ getKey <$> right) ∧ is_Some ((indexLeft left).1 !! k))
    as Hkeys.
  { intros k. rewrite rangeKeys_perm, list_elem_of_fmap, indexLeft_dom. split.
    - intros ([k' x] & -> & Hx%elem_of_map_to_list). simpl.
      rewrite HleftM in Hx. case_decide; [done|]. eauto.
    - intros [Hk [x Hx]]. exists (k, x). split; [done|].
      apply elem_of_map_to_list. rewrite HleftM. by rewrite decide_False. }
  apply (StronglySorted_unique (≤)).
  - apply StronglySorted_merge_sort; apply _.
  - apply survivorIndexes_sorted.
  - rewrite merge_sort_Permutation. apply NoDup_Permutation.
    + apply NoDup_fmap_2_strong.
      * intros k1 k2 [_ [i1 Hi1]]%Hkeys [_ [i2 Hi2]]%Hkeys.
        rewrite Hi1, Hi2. simpl. intros ->.
        apply indexLeft_index in Hi1 as (l1 & Hl1 & <- & _).
        apply indexLeft_index in Hi2 as (l2 & Hl2 & <- & _). congruence.
      * rewrite rangeKeys_perm. apply NoDup_fst_map_to_list.
    + apply survivorIndexes_NoDup.
    + intros i. rewrite list_elem_of_fmap, survivorIndexes_elem. split.
      * intros (k & -> & [Hright [i' Hi]]%Hkeys). rewrite Hi. simpl.
        apply indexLeft_index in Hi as (l & Hl & <- & Hlater). by exists i', l.
      * intros (j & l & -> & Hl & Hlater & Hright). simpl.
        assert ((indexLeft left).1 !! getKey l = Some j) as Hj
          by (apply indexLeft_index; eauto).
        exists (getKey l). rewrite Hj. split; [done|]. apply Hkeys. eauto.
Qed.

(** [diffAll] never panics; its result, but for the flag. *)
Lemma diffAll_returns left right out :
  ∃ different,
    diffAll Equals getKey rangeKeys left right out =
      Returns (different,
        let out' := (diffAll_right Equals getKey right (indexLeft left).2 false out).2 in
        mkSlices (modified out') (added out')
          (removed out ++ survivors left right) (unmodified out')).
Proof.
  unfold diffAll. destruct (indexLeft left) as [leftIndex leftM] eqn:Hidx.
  destruct (diffAll_right Equals getKey right leftM false out)
    as [[leftM' different] out'] eqn:Hright.
  assert (sort_Ints ((λ k, default 0 (leftIndex !! k)) <$> rangeKeys leftM')
          = survivorIndexes 0 left right) as ->.
  { replace leftIndex with (indexLeft left).1 by (by rewrite Hidx).
    apply removedIndexes_sorted. intros k.
    replace leftM' with
      (diffAll_right Equals getKey right leftM false out).1.1
      by (by rewrite Hright).
    rewrite diffAll_right_leftM. by rewrite Hidx. }
  pose proof (appendRemoved_survivors [] left right (removed out')) as Happ.
  simpl in Happ. rewrite Happ. simpl.
  assert (removed out' = removed out) as ->.
  { replace out' with (diffAll_right Equals getKey right leftM false out).2
      by (by rewrite Hright).
    apply diffAll_right_removed. }
  rewrite Hright. by eexists.
Qed.

Lemma survivors_sublist left right : survivors left right `sublist_of` left.
Proof.
  induction left as [|l left IH]; [done|]. cbn [config.survivors].
  case_decide; simpl; by constructor.
Qed.

Lemma survivors_distinct_keys left right :
  NoDup (getKey <$> left) →
  survivors left right = filter (λ l, getKey l ∉ getKey <$> right) left.
Proof.
  induction left as [|l left IH]; intros Hnd; [done|].
  rewrite fmap_cons in Hnd. apply NoDup_cons in Hnd as [Hl Hnd].
  cbn [config.survivors]. rewrite filter_cons, IH by done.
  destruct (decide (getKey l ∉ getKey <$> right)) as [Hr|Hr].
  - by rewrite decide_True.
  - rewrite decide_False; [done|]. by intros [_ ?].
Qed.

(** C3. Whatever the order in which the [range] over [leftM] visits the keys,
    [diffAll] appends to [removed] the left items whose key is consumed by
    neither a later left item nor the right side, in their left order: a
    subsequence of the left side that does not depend on that order. *)
Theorem diffAll_removed_in_left_order left right out :
  ∃ different out',
    diffAll Equals getKey rangeKeys left right out = Returns (different, out')
    ∧ removed out' = removed out ++ survivors left right
    ∧ survivors left right `sublist_of` left.
Proof.
  destruct (diffAll_returns left right out) as [different ->].
  do 2 eexists. split; [done|]. split; [done|]. apply survivors_sublist.
Qed.

(** **** Every key in one outcome *)

Lemma filter_key_NoDup k (s : list T) :
  NoDup (getKey <$> s) →
  filter (λ x, getKey x = k) s = option_list (itemOf k s).
Proof.
  unfold config.itemOf. induction s as [|x s IH]; intros Hnd; [done|].
  rewrite fmap_cons in Hnd. apply NoDup_cons in Hnd as [Hx Hnd].
  rewrite filter_cons. destruct (decide (getKey x = k)) as [Hk|Hk]; [|by apply IH].
  assert (filter (λ y, getKey y = k) s = []) as ->; [|done].
  apply elem_of_nil_inv. intros y [Hy Hin]%list_elem_of_filter.
  apply Hx. rewrite Hk, <-Hy. apply list_elem_of_fmap. eauto.
Qed.

Lemma countKey_filter_NoDup k (P : T → Prop) `{!∀ x, Decision (P x)} (s : list T) :
  NoDup (getKey <$> s) →
  countKey k (filter P s) =
    match itemOf k s with
    | Some r => if decide (P r) then 1 else 0
    | None => 0
    end.
Proof.
  intros Hnd. unfold config.countKey.
  rewrite list_filter_filter.
  rewrite (list_filter_iff _ (λ x, P x ∧ getKey x = k))
    by (intros x; split; intros [? ?]; done).
  rewrite <-list_filter_filter, filter_key_NoDup by done.
  destruct (itemOf k s) as [r|]; simpl; [|done].
  rewrite filter_cons, filter_nil. by case_decide.
Qed.

Lemma filter_key_survivors k left right :
  filter (λ x, getKey x = k) (survivors left right) =
    if decide (k ∈ getKey <$> right) then [] else option_list (itemOf k left).
Proof.
  induction left as [|l left IH]; [by case_decide|].
  cbn [config.survivors]. rewrite filter_app, IH. clear IH.
  unfold config.itemOf. rewrite (filter_cons _ l left).
  destruct (decide (getKey l = k)) as [Hk|Hk].
  - rewrite Hk. destruct (decide (k ∈ getKey <$> right)) as [Hr|Hr].
    + rewrite decide_False by (by intros [_ ?]). done.
    + destruct (decide (k ∈ getKey <$> left)) as [Hl|Hl].
      * rewrite decide_False by (by intros [? _]). simpl.
        destruct (filter (λ x, getKey x = k) left) as [|y ys] eqn:E; [|done].
        exfalso. apply list_elem_of_fmap in Hl as (y & -> & Hy).
        assert (y ∈ filter (λ x, getKey x = getKey y) left) as Hin
          by (by apply list_elem_of_filter).
        rewrite E in Hin. by apply elem_of_nil in Hin.
      * rewrite decide_True by done. rewrite filter_cons, filter_nil.
        rewrite decide_True by done.
        apply itemOf_None in Hl. unfold config.itemOf in Hl.
        apply last_None in Hl. by rewrite Hl.
  - assert (filter (λ x, getKey x = k)
              (if decide ((getKey l ∉ getKey <$> left) ∧ (getKey l ∉ getKey <$> right))
               then [l] else []) = []) as ->; [|done].
    case_decide; [|done]. by rewrite filter_cons, filter_nil, decide_False.
Qed.

(** C2. When the keys of the right side are pairwise distinct, every key is
    recorded in exactly one outcome: a right key that is not on the left by
    its right item in [added]; a key on both sides by its right item, in
    [modified] when the left item does not [Equals] it and among the unchanged
    items (appended to [unmodified] when that slice is tracked) when it does;
    a left key that is not on the right by its left item in [removed]. A key
    on neither side is recorded nowhere. *)
Theorem diffAll_partition left right out :
  NoDup (getKey <$> right) →
  ∃ different dm da dr du,
    diffAll Equals getKey rangeKeys left right out =
      Returns (different,
        mkSlices (modified out ++ dm) (added out ++ da) (removed out ++ dr)
          ((λ u, u ++ du) <$> unmodified out))
    ∧ ∀ k,
        match itemOf k left, itemOf k right with
        | None, Some r => recordedOnlyIn getKey k r da [dm; dr; du]
        | Some l, Some r =>
            if Equals l r then recordedOnlyIn getKey k r du [da; dm; dr]
            else recordedOnlyIn getKey k r dm [da; dr; du]
        | Some l, None => recordedOnlyIn getKey k l dr [da; dm; du]
        | None, None => Forall (λ s, countKey k s = 0) [da; dm; dr; du]
        end.
Proof.
  intros Hnd. destruct (diffAll_returns left right out) as [different ->].
  rewrite diffAll_right_slices by done. simpl.
  set (leftM := (indexLeft left).2).
  exists different,
    (filter (λ r, verdict Equals getKey leftM r = Some false) right),
    (filter (λ r, verdict Equals getKey leftM r = None) right),
    (survivors left right),
    (filter (λ r, verdict Equals getKey leftM r = Some true) right).
  split; [done|]. intros k.
  assert (∀ r, getKey r = k →
            verdict Equals getKey leftM r = (λ l, Equals l r) <$> itemOf k left)
    as Hverdict.
  { intros r <-. unfold verdict, leftM. by rewrite indexLeft_item. }
  assert (countKey k (survivors left right) =
            if decide (k ∈ getKey <$> right) then 0
            else length (option_list (itemOf k left))) as Hdr.
  { unfold config.countKey. rewrite filter_key_survivors. by case_decide. }
  pose proof (countKey_filter_NoDup k
    (λ r, verdict Equals getKey leftM r = Some false) right Hnd) as Hdm.
  pose proof (countKey_filter_NoDup k
    (λ r, verdict Equals getKey leftM r = None) right Hnd) as Hda.
  pose proof (countKey_filter_NoDup k
    (λ r, verdict Equals getKey leftM r = Some true) right Hnd) as Hdu.
  unfold recordedOnlyIn.
  destruct (itemOf k right) as [r|] eqn:Hr.
  - apply itemOf_Some in Hr as [Hin Hk]. rewrite (Hverdict r Hk) in Hdm, Hda, Hdu.
    assert (k ∈ getKey <$> right) as Hkr
      by (apply list_elem_of_fmap; eauto).
    rewrite (decide_True (P := k ∈ _)) in Hdr by done.
    destruct (itemOf k left) as [l|]; simpl in *.
    + destruct (Equals l r) eqn:Heq; simpl in *.
      * split; [apply list_elem_of_filter; by rewrite (Hverdict r Hk), Heq|].
        split; [done|]. by repeat constructor.
      * split; [apply list_elem_of_filter; by rewrite (Hverdict r Hk), Heq|].
        split; [done|]. by repeat constructor.
    + split; [by apply list_elem_of_filter; rewrite (Hverdict r Hk)|].
      split; [done|]. by repeat constructor.
  - apply itemOf_None in Hr. rewrite (decide_False (P := k ∈ _)) in Hdr by done.
    destruct (itemOf k left) as [l|] eqn:Hl; simpl in *; [|by repeat constructor].
    split; [|split; [done|by repeat constructor]].
    assert (l ∈ filter (λ x, getKey x = k) (survivors left right)) as Hin.
    { rewrite filter_key_survivors, decide_False, Hl by done. by left. }
    by apply list_elem_of_filter in Hin as [_ ?].
Qed.

(** **** The items recorded as unmodified *)

Lemma diffAll_right_unmodified right leftM d out :
  match unmodified out with
  | None => unmodified (diffAll_right Equals getKey right leftM d out).2 = None
  | Some u =>
      ∃ du, unmodified (diffAll_right Equals getKey right leftM d out).2
            = Some (u ++ du)
            ∧ ∀ x, x ∈ du →
                x ∈ right ∧ ∃ l, leftM !! getKey x = Some l ∧ Equals l x = true
  end.
Proof.
  revert leftM d out. induction right as [|r right IH]; intros leftM d out.
  { simpl. destruct (unmodified out) as [u|]; [|done].
    exists []. rewrite app_nil_r. split; [done|]. by intros x ?%elem_of_nil. }
  assert (∀ d' out', unmodified out' = unmodified out →
    match unmodified out with
    | None =>
        unmodified (diffAll_right Equals getKey right
                      (delete (getKey r) leftM) d' out').2 = None
    | Some u =>
        ∃ du, unmodified (diffAll_right Equals getKey right
                            (delete (getKey r) leftM) d' out').2
              = Some (u ++ du)
              ∧ ∀ x, x ∈ du →
                  x ∈ r :: right
                  ∧ ∃ l, leftM !! getKey x = Some l ∧ Equals l x = true
    end) as Hsame.
  { intros d' out' Hout. specialize (IH (delete (getKey r) leftM) d' out').
    rewrite Hout in IH. destruct (unmodified out) as [u|]; [|done].
    destruct IH as (du & -> & Hdu). exists du. split; [done|].
    intros x [Hx (l & [_ Hl]%lookup_delete_Some & Heq)]%Hdu.
    split; [by right|]. eauto. }
  cbn [diffAll_right].
  destruct (leftM !! getKey r) as [l|] eqn:Hl; [|by apply Hsame].
  unfold diffSingle. destruct (Equals l r) eqn:Heq; [|by apply Hsame].
  simpl. specialize (IH (delete (getKey r) leftM) d).
  destruct (unmodified out) as [u|] eqn:Hu; simpl.
  - specialize (IH (mkSlices (modified out) (added out) (removed out)
                      (Some (u ++ [r])))).
    simpl in IH. destruct IH as (du & -> & Hdu). exists (r :: du).
    split; [by rewrite <-app_assoc|].
    intros x [->|Hx]%elem_of_cons; [split; [by left|by eauto]|].
    apply Hdu in Hx as [Hx (l' & [_ Hl']%lookup_delete_Some & Heq')].
    split; [by right|]. eauto.
  - specialize (IH (mkSlices (modified out) (added out) (removed out) None)).
    done.
Qed.

Lemma diffAll_unmodified left right out different out' :
  diffAll Equals getKey rangeKeys left right out = Returns (different, out') →
  match unmodified out with
  | None => unmodified out' = None
  | Some u =>
      ∃ du, unmodified out' = Some (u ++ du)
            ∧ ∀ x, x ∈ du →
                x ∈ right
                ∧ ∃ l, l ∈ left ∧ getKey l = getKey x ∧ Equals l x = true
  end.
Proof.
  destruct (diffAll_returns left right out) as [different' ->].
  intros [= _ <-]. simpl.
  pose proof (diffAll_right_unmodified right (indexLeft left).2 false out) as Hu.
  destruct (unmodified out) as [u|]; [|done].
  destruct Hu as (du & -> & Hdu). exists du. split; [done|].
  intros x [Hx (l & Hl & Heq)]%Hdu. split; [done|].
  rewrite indexLeft_item in Hl. apply itemOf_Some in Hl as [? ?]. eauto.
Qed.

(** **** The flag, and sides that are empty, identical or swapped *)

Lemma diffAll_right_different right leftM d out :
  ∃ dm da,
    modified (diffAll_right Equals getKey right leftM d out).2
    = modified out ++ dm
    ∧ added (diffAll_right Equals getKey right leftM d out).2 = added out ++ da
    ∧ (diffAll_right Equals getKey right leftM d out).1.2
      = d || bool_decide (dm ≠ [] ∨ da ≠ []).
Proof.
  revert leftM d out. induction right as [|r right IH]; intros leftM d out.
  { exists [], []. simpl. rewrite !app_nil_r. split; [done|]. split; [done|].
    by rewrite orb_false_r. }
  cbn [diffAll_right]. destruct (leftM !! getKey r) as [l|].
  - unfold diffSingle. destruct (Equals l r); simpl.
    + edestruct IH as (dm & da & Hm & Ha & Hd). rewrite Hm, Ha, Hd.
      by exists dm, da.
    + edestruct IH as (dm & da & Hm & Ha & Hd). rewrite Hm, Ha, Hd. simpl.
      exists (r :: dm), da. rewrite <-app_assoc. split; [done|]. split; [done|].
      rewrite (bool_decide_true (_ ∨ _)) by (by left). by rewrite orb_true_r.
  - edestruct IH as (dm & da & Hm & Ha & Hd). rewrite Hm, Ha, Hd. simpl.
    exists dm, (r :: da). rewrite <-app_assoc. split; [done|]. split; [done|].
    rewrite (bool_decide_true (_ ∨ _)) by (by right). by rewrite orb_true_r.
Qed.

Lemma survivorIndexes_length off left right :
  length (survivorIndexes off left right) = length (survivors left right).
Proof.
  revert off. induction left as [|l left IH]; intros off; [done|].
  cbn [config.survivorIndexes config.survivors]. rewrite !length_app, IH.
  by case_decide.
Qed.

(** [diffAll] never panics; its result with the flag. *)
Lemma diffAll_result left right out :
  diffAll Equals getKey rangeKeys left right out =
    Returns
      ((diffAll_right Equals getKey right (indexLeft left).2 false out).1.2
       || bool_decide (survivors left right ≠ []),
       let out' :=
         (diffAll_right Equals getKey right (indexLeft left).2 false out).2 in
       mkSlices (modified out') (added out')
         (removed out ++ survivors left right) (unmodified out')).
Proof.
  unfold diffAll. destruct (indexLeft left) as [leftIndex leftM] eqn:Hidx.
  destruct (diffAll_right Equals getKey right leftM false out)
    as [[leftM' different] out'] eqn:Hright.
  assert (sort_Ints ((λ k, default 0 (leftIndex !! k)) <$> rangeKeys leftM')
          = survivorIndexes 0 left right) as Hsort.
  { replace leftIndex with (indexLeft left).1 by (by rewrite Hidx).
    apply removedIndexes_sorted. intros k.
    replace leftM' with
      (diffAll_right Equals getKey right leftM false out).1.1
      by (by rewrite Hright).
    rewrite diffAll_right_leftM. by rewrite Hidx. }
  assert (length (rangeKeys leftM') = length (survivors left right)) as Hlen.
  { apply (f_equal length) in Hsort. unfold sort_Ints in Hsort.
    by rewrite merge_sort_Permutation, length_fmap, survivorIndexes_length
      in Hsort. }
  rewrite Hsort.
  pose proof (appendRemoved_survivors [] left right (removed out')) as Happ.
  simpl in Happ. rewrite Happ. simpl.
  assert (removed out' = removed out) as ->.
  { replace out' with (diffAll_right Equals getKey right leftM false out).2
      by (by rewrite Hright).
    apply diffAll_right_removed. }
  rewrite Hright. simpl. do 2 f_equal.
  destruct (rangeKeys leftM'), (survivors left right); try done.
  - by rewrite orb_false_r.
  - by rewrite orb_true_r.
Qed.

Lemma filter_all {A} (P : A → Prop) `{!∀ x, Decision (P x)} (l : list A) :
  (∀ x, x ∈ l → P x) → filter P l = l.
Proof.
  induction l as [|x l IH]; intros HP; [done|].
  rewrite filter_cons, decide_True by (apply HP; by left).
  f_equal. apply IH. intros y Hy. apply HP. by right.
Qed.

Lemma app_eq_self {A} (l d : list A) : l ++ d = l ↔ d = [].
Proof.
  split; [|intros ->; by rewrite app_nil_r].
  intros Heq. apply (app_inv_head l). by rewrite app_nil_r.
Qed.

(** With fresh slices: the flag is false exactly when nothing is recorded as
    modified, added or removed. *)
Lemma diffAll_fresh left right u :
  ∃ different out',
    diffAll Equals getKey rangeKeys left right (mkSlices [] [] [] u)
    = Returns (different, out')
    ∧ (different = false ↔
         modified out' = [] ∧ added out' = [] ∧ removed out' = []).
Proof.
  rewrite diffAll_result. do 2 eexists. split; [done|]. simpl.
  destruct (diffAll_right_different right (indexLeft left).2 false
              (mkSlices [] [] [] u)) as (dm & da & -> & -> & ->).
  simpl. rewrite orb_false_iff, !bool_decide_eq_false.
  destruct dm, da, (survivors left right); intuition congruence.
Qed.

(** X12. [diffAll] does not panic, and the flag it returns is true exactly
    when the call appended an item to [modified], to [added] or to
    [removed]. *)
Theorem diffAll_different_iff left right out :
  ∃ different out',
    diffAll Equals getKey rangeKeys left right out = Returns (different, out')
    ∧ (different = true ↔
         modified out' ≠ modified out ∨ added out' ≠ added out
         ∨ removed out' ≠ removed out).
Proof.
  rewrite diffAll_result. do 2 eexists. split; [done|]. simpl.
  destruct (diffAll_right_different right (indexLeft left).2 false out)
    as (dm & da & -> & -> & ->).
  rewrite !app_eq_self, orb_true_iff. simpl.
  rewrite !bool_decide_eq_true. tauto.
Qed.

Lemma diffAll_right_empty right d out :
  diffAll_right Equals getKey right ∅ d out =
    (∅, d || bool_decide (right ≠ []),
     mkSlices (modified out) (added out ++ right) (removed out)
       (unmodified out)).
Proof.
  revert d out. induction right as [|r right IH]; intros d out.
  { simpl. rewrite app_nil_r, orb_false_r. by destruct out. }
  cbn [diffAll_right]. rewrite lookup_empty, delete_empty, IH. simpl.
  by rewrite <-app_assoc, orb_true_r.
Qed.

(** X13. With an empty left side every right item is appended to [added], in
    the order of the right side and also when keys repeat; nothing else is
    recorded, and the flag tells whether the right side has an item. *)
Theorem diffAll_empty_left right out :
  diffAll Equals getKey rangeKeys [] right out =
    Returns (bool_decide (right ≠ []),
             mkSlices (modified out) (added out ++ right) (removed out)
               (unmodified out)).
Proof.
  rewrite diffAll_result.
  change ((indexLeft []).2) with (∅ : gmap K T).
  rewrite diffAll_right_empty. simpl. by rewrite app_nil_r, orb_false_r.
Qed.

(** X14. With an empty right side and pairwise distinct left keys every left
    item is appended to [removed], in the order of the left side; nothing
    else is recorded, and the flag tells whether the left side has an item. *)
Theorem diffAll_empty_right left out :
  NoDup (getKey <$> left) →
  diffAll Equals getKey rangeKeys left [] out =
    Returns (bool_decide (left ≠ []),
             mkSlices (modified out) (added out) (removed out ++ left)
               (unmodified out)).
Proof.
  intros Hnd. rewrite diffAll_result. simpl.
  rewrite survivors_distinct_keys by done.
  assert (filter (λ l, getKey l ∉ getKey <$> []) left = left) as ->; [|done].
  clear Hnd. induction left as [|l left IH]; [done|].
  rewrite filter_cons, IH. rewrite decide_True; [done|]. apply not_elem_of_nil.
Qed.

Lemma verdict_distinct_keys left r :
  NoDup (getKey <$> left) → r ∈ left →
  verdict Equals getKey (indexLeft left).2 r = Some (Equals r r).
Proof.
  intros Hnd Hr. unfold verdict. rewrite indexLeft_item.
  pose proof (filter_key_NoDup (getKey r) left Hnd) as Hf.
  assert (r ∈ filter (λ x, getKey x = getKey r) left) as Hin
    by (by apply list_elem_of_filter).
  rewrite Hf in Hin. destruct (itemOf (getKey r) left) as [l|]; simpl in *.
  - by apply list_elem_of_singleton in Hin as ->.
  - by apply elem_of_nil in Hin.
Qed.

(** X15. A side with pairwise distinct keys, every item of which [Equals]
    itself, compared with itself: the flag is false, nothing is appended to
    [modified], [added] or [removed], and every item is appended to
    [unmodified] when that slice is tracked. *)
Theorem diffAll_identical_sides s out :
  NoDup (getKey <$> s) →
  (∀ x, x ∈ s → Equals x x = true) →
  diffAll Equals getKey rangeKeys s s out =
    Returns (false,
             mkSlices (modified out) (added out) (removed out)
               ((λ u, u ++ s) <$> unmodified out)).
Proof.
  intros Hnd Hrefl. rewrite diffAll_result.
  destruct (diffAll_right_different s (indexLeft s).2 false out)
    as (dm & da & Hm & Ha & ->).
  rewrite diffAll_right_slices in Hm, Ha |- * by done. simpl in *.
  assert (filter (λ r, verdict Equals getKey (indexLeft s).2 r = Some false) s
          = []) as Hfm.
  { apply elem_of_nil_inv. intros r [Hr Hin]%list_elem_of_filter.
    rewrite verdict_distinct_keys, Hrefl in Hr by done. congruence. }
  assert (filter (λ r, verdict Equals getKey (indexLeft s).2 r = None) s
          = []) as Hfa.
  { apply elem_of_nil_inv. intros r [Hr Hin]%list_elem_of_filter.
    rewrite verdict_distinct_keys, Hrefl in Hr by done. congruence. }
  assert (filter (λ r, verdict Equals getKey (indexLeft s).2 r = Some true) s
          = s) as Hfu.
  { apply filter_all. intros r Hr.
    by rewrite verdict_distinct_keys, Hrefl. }
  assert (survivors s s = []) as ->.
  { rewrite survivors_distinct_keys by done.
    apply elem_of_nil_inv. intros l [Hl Hin]%list_elem_of_filter.
    apply Hl, list_elem_of_fmap. eauto. }
  apply app_inv_head in Hm, Ha. subst dm da.
  rewrite Hfm, Hfa, Hfu. simpl. by rewrite !app_nil_r.
Qed.

(** X16. When the keys of the right side are pairwise distinct, the items
    that [diffAll] appends to [added] from left to right are, in the same
    order, the items it appends to [removed] from right to left. *)
Theorem diffAll_added_is_removed_of_swap left right out out' :
  NoDup (getKey <$> right) →
  ∃ d1 o1 d2 o2 items,
    diffAll Equals getKey rangeKeys left right out = Returns (d1, o1)
    ∧ diffAll Equals getKey rangeKeys right left out' = Returns (d2, o2)
    ∧ added o1 = added out ++ items
    ∧ removed o2 = removed out' ++ items.
Proof.
  intros Hnd. rewrite !diffAll_result. do 4 eexists.
  exists (survivors right left). split; [done|]. split; [done|].
  split; [|done]. simpl. rewrite diffAll_right_slices by done. simpl.
  f_equal. rewrite survivors_distinct_keys by done.
  apply filter_ext_in. intros r _. unfold verdict.
  rewrite indexLeft_item, <-itemOf_None.
  destruct (itemOf (getKey r) left); simpl; split; done.
Qed.

End diffAll.

Lemma diffAll_different_iff_witness :
  ∃ different out',
    diffAll item_Equals item_key plainOrder
      [("cam1", 0); ("cam2", 1)] [("cam2", 1)] (mkSlices [] [] [] None)
    = Returns (different, out')
    ∧ (different = true ↔
         modified out' ≠ [] ∨ added out' ≠ [] ∨ removed out' ≠ []).
Proof.
  apply (diffAll_different_iff item_Equals item_key plainOrder
           (λ m, reflexivity _) [("cam1", 0); ("cam2", 1)] [("cam2", 1)]
           (mkSlices [] [] [] None)).
Defined.

Lemma diffAll_empty_left_witness :
  diffAll item_Equals item_key plainOrder [] [("cam", 1); ("cam", 2)]
    (mkSlices [] [("arm", 0)] [] None)
  = Returns (bool_decide ([("cam", 1); ("cam", 2)] ≠ []),
             mkSlices [] ([("arm", 0)] ++ [("cam", 1); ("cam", 2)]) [] None).
Proof.
  apply (diffAll_empty_left item_Equals item_key plainOrder
           (λ m, reflexivity _) [("cam", 1); ("cam", 2)]
           (mkSlices [] [("arm", 0)] [] None)).
Defined.

Lemma diffAll_empty_right_witness :
  diffAll item_Equals item_key plainOrder [("x", 0); ("y", 0)] []
    (mkSlices [] [] [] None)
  = Returns (bool_decide ([("x", 0); ("y", 0)] ≠ []),
             mkSlices [] [] ([] ++ [("x", 0); ("y", 0)]) None).
Proof.
  apply (diffAll_empty_right item_Equals item_key plainOrder
           (λ m, reflexivity _) [("x", 0); ("y", 0)] (mkSlices [] [] [] None)).
  apply (bool_decide_unpack _). vm_compute. exact I.
Defined.

Lemma diffAll_identical_sides_witness :
  diffAll item_Equals item_key plainOrder [("x", 0); ("y", 0)]
    [("x", 0); ("y", 0)] (mkSlices [] [] [] (Some []))
  = Returns (false,
             mkSlices [] [] [] ((λ u, u ++ [("x", 0); ("y", 0)]) <$> Some [])).
Proof.
  apply (diffAll_identical_sides item_Equals item_key plainOrder
           (λ m, reflexivity _) [("x", 0); ("y", 0)]
           (mkSlices [] [] [] (Some []))).
  - apply (bool_decide_unpack _). vm_compute. exact I.
  - intros x _. unfold item_Equals. by apply bool_decide_eq_true.
Defined.

Lemma diffAll_added_is_removed_of_swap_witness :
  ∃ d1 o1 d2 o2 items,
    diffAll item_Equals item_key plainOrder
      [("cam1", 0); ("cam2", 1)] [("cam2", 2); ("cam3", 0)]
      (mkSlices [] [] [] None) = Returns (d1, o1)
    ∧ diffAll item_Equals item_key plainOrder
        [("cam2", 2); ("cam3", 0)] [("cam1", 0); ("cam2", 1)]
        (mkSlices [] [] [] None) = Returns (d2, o2)
    ∧ added o1 = [] ++ items
    ∧ removed o2 = [] ++ items.
Proof.
  apply (diffAll_added_is_removed_of_swap item_Equals item_key plainOrder
           (λ m, reflexivity _) [("cam1", 0); ("cam2", 1)]
           [("cam2", 2); ("cam3", 0)] (mkSlices [] [] [] None)
           (mkSlices [] [] [] None)).
  apply (bool_decide_unpack _). vm_compute. exact I.
Defined.

Lemma diffAll_partition_witness :
  ∃ different dm da dr du,
    diffAll item_Equals item_key plainOrder
      [("cam1", 0); ("cam2", 1)] [("cam2", 2); ("cam3", 0)]
      (mkSlices [] [] [] (Some [])) =
      Returns (different,
        mkSlices ([] ++ dm) ([] ++ da) ([] ++ dr) ((λ u, u ++ du) <$> Some []))
    ∧ ∀ k,
        match itemOf item_key k [("cam1", 0); ("cam2", 1)],
              itemOf item_key k [("cam2", 2); ("cam3", 0)] with
        | None, Some r => recordedOnlyIn item_key k r da [dm; dr; du]
        | Some l, Some r =>
            if item_Equals l r then recordedOnlyIn item_key k r du [da; dm; dr]
            else recordedOnlyIn item_key k r dm [da; dr; du]
        | Some l, None => recordedOnlyIn item_key k l dr [da; dm; du]
        | None, None => Forall (λ s, countKey item_key k s = 0) [da; dm; dr; du]
        end.
Proof.
  apply (diffAll_partition item_Equals item_key plainOrder
           (λ m, reflexivity _) [("cam1", 0); ("cam2", 1)]
           [("cam2", 2); ("cam3", 0)] (mkSlices [] [] [] (Some []))).
  apply (bool_decide_unpack _). vm_compute. exact I.
Defined.

(** The example of the specification: cam1 removed, cam2 modified, cam3
    added. *)
Example diffAll_cam_example :
  diffAll item_Equals item_key plainOrder
    [("cam1", 0); ("cam2", 1)] [("cam2", 2); ("cam3", 0)]
    (mkSlices [] [] [] None)
  = Returns (true, mkSlices [("cam2", 2)] [("cam3", 0)] [("cam1", 0)] None).
Proof. vm_compute. reflexivity. Qed.

(** Without the hypothesis on the right keys the statement fails: with the
    left side [a] and the right side [a, a], the key is recorded once as
    unchanged and once more as added. *)
Lemma diffAll_repeated_right_key_recorded_twice :
  ¬ ∃ different dm da dr du,
      diffAll item_Equals item_key plainOrder
        [("a", 1)] [("a", 1); ("a", 1)] (mkSlices [] [] [] (Some [])) =
        Returns (different,
          mkSlices ([] ++ dm) ([] ++ da) ([] ++ dr) ((λ u, u ++ du) <$> Some []))
      ∧ ∀ k,
          match itemOf item_key k [("a", 1)],
                itemOf item_key k [("a", 1); ("a", 1)] with
          | None, Some r => recordedOnlyIn item_key k r da [dm; dr; du]
          | Some l, Some r =>
              if item_Equals l r then recordedOnlyIn item_key k r du [da; dm; dr]
              else recordedOnlyIn item_key k r dm [da; dr; du]
          | Some l, None => recordedOnlyIn item_key k l dr [da; dm; du]
          | None, None => Forall (λ s, countKey item_key k s = 0) [da; dm; dr; du]
          end.
Proof.
  intros (different & dm & da & dr & du & Hrun & Hkeys).
  vm_compute in Hrun. injection Hrun as _ _ Hda _ _. subst da.
  specialize (Hkeys "a"). vm_compute in Hkeys.
  destruct Hkeys as (_ & _ & Hothers). apply Forall_cons in Hothers as [Hda _].
  vm_compute in Hda. discriminate.
Qed.

Lemma diffAll_removed_in_left_order_witness :
  ∃ different out',
    diffAll item_Equals item_key plainOrder
      [("x", 0); ("y", 0); ("z", 0)] [("x", 0)] (mkSlices [] [] [] None)
    = Returns (different, out')
    ∧ removed out' =
        [] ++ survivors item_key [("x", 0); ("y", 0); ("z", 0)] [("x", 0)]
    ∧ survivors item_key [("x", 0); ("y", 0); ("z", 0)] [("x", 0)]
        `sublist_of` [("x", 0); ("y", 0); ("z", 0)].
Proof.
  apply (diffAll_removed_in_left_order item_Equals item_key plainOrder
           (λ m, reflexivity _)).
Defined.

(** The example of the specification, under the two extreme orders of the
    [range]: left [x, y, z], right without [y] and [z]. *)
Example diffAll_removed_example :
  diffAll item_Equals item_key plainOrder
    [("x", 0); ("y", 0); ("z", 0)] [("x", 0)] (mkSlices [] [] [] None)
  = Returns (true, mkSlices [] [] [("y", 0); ("z", 0)] None)
  ∧ diffAll item_Equals item_key (λ m, reverse (plainOrder m))
      [("x", 0); ("y", 0); ("z", 0)] [("x", 0)] (mkSlices [] [] [] None)
    = Returns (true, mkSlices [] [] [("y", 0); ("z", 0)] None).
Proof. split; vm_compute; reflexivity. Qed.


Section DiffConfigs.

Context {error : Type}.
Context (DeepEqual : ∀ A : Type, A → A → bool).
Context {Certificate ClientHelloInfo CertificateRequestInfo : Type}.

#[local] Abbreviation tlsConfig :=
  (@tlsConfig error Certificate ClientHelloInfo CertificateRequestInfo).
#[local] Abbreviation diffTLS := (@diffTLS error DeepEqual Certificate
                                  ClientHelloInfo CertificateRequestInfo).

(** C4. Two absent TLS configs compare equal; an absent and a present one
    compare different; two present ones compare equal exactly when their
    minimum versions match, the four callbacks, called with nil, return no
    error, and [reflect.DeepEqual] holds of the two server certificates and
    of the two client certificates. An error returned by a callback makes the
    comparison answer "different"; the answer is a boolean, there is no error
    to propagate. *)
Theorem diffTLS_equal_iff :
  diffTLS None None = false
  ∧ (∀ r : tlsConfig, diffTLS None (Some r) = true)
  ∧ (∀ l : tlsConfig, diffTLS (Some l) None = true)
  ∧ (∀ l r : tlsConfig,
       diffTLS (Some l) (Some r) = false ↔
         MinVersion l = MinVersion r
         ∧ ∃ leftCert rightCert leftClientCert rightClientCert,
             GetCertificate l None = (leftCert, None)
             ∧ GetCertificate r None = (rightCert, None)
             ∧ DeepEqual _ leftCert rightCert = true
             ∧ GetClientCertificate l None = (leftClientCert, None)
             ∧ GetClientCertificate r None = (rightClientCert, None)
             ∧ DeepEqual _ leftClientCert rightClientCert = true)
  ∧ (∀ l r : tlsConfig,
       is_Some (GetCertificate l None).2 ∨ is_Some (GetCertificate r None).2
       ∨ is_Some (GetClientCertificate l None).2
       ∨ is_Some (GetClientCertificate r None).2 →
       diffTLS (Some l) (Some r) = true).
Proof.
  assert (∀ l r : tlsConfig,
       diffTLS (Some l) (Some r) = false ↔
         MinVersion l = MinVersion r
         ∧ ∃ leftCert rightCert leftClientCert rightClientCert,
             GetCertificate l None = (leftCert, None)
             ∧ GetCertificate r None = (rightCert, None)
             ∧ DeepEqual _ leftCert rightCert = true
             ∧ GetClientCertificate l None = (leftClientCert, None)
             ∧ GetClientCertificate r None = (rightClientCert, None)
             ∧ DeepEqual _ leftClientCert rightClientCert = true) as Hiff.
  { intros l r. unfold diffTLS, config.diffTLS.
    destruct (MinVersion l =? MinVersion r)%N eqn:Hv; simpl.
    2:{ apply N.eqb_neq in Hv. split; [done|]. by intros [? _]. }
    apply N.eqb_eq in Hv.
    destruct (GetCertificate l None) as [lc [e|]];
      [split; [done|]; by intros (_ & ? & ? & ? & ? & ? & _)|].
    destruct (GetCertificate r None) as [rc [e|]];
      [split; [done|]; by intros (_ & ? & ? & ? & ? & _ & ? & _)|].
    destruct (DeepEqual _ lc rc) eqn:Hc; simpl.
    2:{ split; [done|]. intros (_ & ? & ? & ? & ? & [= <-] & [= <-] & ? & _).
        congruence. }
    destruct (GetClientCertificate l None) as [lcc [e|]];
      [split; [done|]; by intros (_ & ? & ? & ? & ? & _ & _ & _ & ? & _)|].
    destruct (GetClientCertificate r None) as [rcc [e|]];
      [split; [done|]; by intros (_ & ? & ? & ? & ? & _ & _ & _ & _ & ? & _)|].
    destruct (DeepEqual _ lcc rcc) eqn:Hcc; simpl.
    - split; [|done]. intros _. split; [done|]. by exists lc, rc, lcc, rcc.
    - split; [done|].
      intros (_ & ? & ? & ? & ? & _ & _ & _ & [= <-] & [= <-] & ?). congruence. }
  split; [done|]. split; [done|]. split; [done|]. split; [exact Hiff|].
  intros l r Herr. destruct (diffTLS (Some l) (Some r)) eqn:Hd; [done|].
  apply Hiff in Hd as (_ & ? & ? & ? & ? & Hl & Hr & _ & Hlc & Hrc & _).
  rewrite Hl, Hr, Hlc, Hrc in Herr. simpl in Herr.
  destruct Herr as [[? [=]]|[[? [=]]|[[? [=]]|[? [=]]]]].
Qed.

(** X20. [diffTLS] answers the same when its two arguments are swapped,
    provided [reflect.DeepEqual] does so on certificates. *)
Theorem diffTLS_symmetric (leftTLS rightTLS : option tlsConfig) :
  (∀ a b : option Certificate, DeepEqual _ a b = DeepEqual _ b a) →
  diffTLS leftTLS rightTLS = diffTLS rightTLS leftTLS.
Proof.
  intros Hsym. destruct leftTLS as [l|], rightTLS as [r|]; try done.
  unfold diffTLS, config.diffTLS. rewrite (N.eqb_sym (MinVersion r)).
  destruct (MinVersion l =? MinVersion r)%N; simpl; [|done].
  destruct (GetCertificate l None) as [lc [e|]],
    (GetCertificate r None) as [rc [e'|]]; try done.
  rewrite (Hsym rc lc). destruct (DeepEqual _ lc rc); simpl; [|done].
  destruct (GetClientCertificate l None) as [lcc [e|]],
    (GetClientCertificate r None) as [rcc [e'|]]; try done.
  by rewrite (Hsym rcc lcc).
Qed.

(** **** [DiffConfigs] and [prettyDiff] *)

Context {ResourceConfig ResourceName : Type} `{Countable ResourceName}.
Context (ResourceConfig_ResourceName : ResourceConfig → ResourceName)
        (ResourceConfig_Equals : ResourceConfig → ResourceConfig → bool).
Context {ProcessConfig : Type}
        (ProcessConfig_ID : ProcessConfig → string)
        (ProcessConfig_Equals : ProcessConfig → ProcessConfig → bool).
Context {PackageConfig : Type}
        (PackageConfig_Name : PackageConfig → string)
        (PackageConfig_Equals : PackageConfig → PackageConfig → bool).
Context {ModuleConfig : Type}
        (ModuleConfig_Name : ModuleConfig → string)
        (ModuleConfig_Equals : ModuleConfig → ModuleConfig → bool).
Context {CloudRest AttrRest HandlerRest AuthRest CredentialsRest RemoteAuthRest
         RemoteRest NetworkRest LogConfigT ConfigRest : Type}.
Context `{!Inhabited AuthRest, !Inhabited NetworkRest, !Inhabited LogConfigT,
          !Inhabited ConfigRest}.

#[local] Abbreviation Remote := (@Remote CredentialsRest RemoteAuthRest RemoteRest).
#[local] Abbreviation Config :=
  (@Config error Certificate ClientHelloInfo CertificateRequestInfo
     ResourceConfig ProcessConfig PackageConfig ModuleConfig CloudRest AttrRest
     HandlerRest AuthRest CredentialsRest RemoteAuthRest RemoteRest NetworkRest
     LogConfigT ConfigRest).

Context (Remote_Equals : Remote → Remote → bool).
Context (json_Marshal : Config → result error string)
        (json_Unmarshal : string → result error Config)
        (json_MarshalIndent : Config → string → string → result error string).
Context (DiffMain : string → string → bool → list dmpDiff)
        (DiffPrettyText : list dmpDiff → string).
Context (rangeKeys : ∀ (K T : Type) `{Countable K}, gmap K T → list K).

(** Whatever the order, a [range] visits every key of a map once. *)
Hypothesis rangeKeys_perm :
  ∀ (K T : Type) (e : EqDecision K) (c : Countable K) (m : gmap K T),
    rangeKeys K T e c m ≡ₚ (map_to_list m).*1.

#[local] Abbreviation prettyDiff :=
  (prettyDiff json_Marshal json_Unmarshal json_MarshalIndent DiffMain
     DiffPrettyText).
#[local] Abbreviation serializationFails :=
  (serializationFails json_Marshal json_Unmarshal json_MarshalIndent).
#[local] Abbreviation copiesAlike := (copiesAlike json_Marshal json_Unmarshal).
#[local] Abbreviation DiffConfigs :=
  (DiffConfigs DeepEqual ResourceConfig_ResourceName ResourceConfig_Equals
     ProcessConfig_ID ProcessConfig_Equals PackageConfig_Name
     PackageConfig_Equals ModuleConfig_Name ModuleConfig_Equals Remote_Equals
     json_Marshal json_Unmarshal json_MarshalIndent DiffMain DiffPrettyText
     rangeKeys).

Lemma prettyDiff_Err_iff (left right : Config) err :
  prettyDiff left right = Err err ↔ serializationFails left right err.
Proof.
  unfold prettyDiff, config.prettyDiff, serializationFails,
    config.serializationFails.
  destruct (json_Marshal left) as [leftMd|e1]; simpl.
  2:{ split; [intros [= ->]; by left|]. intros [[= ->]|(? & [=] & _)]. done. }
  destruct (json_Marshal right) as [rightMd|e2]; simpl.
  2:{ split.
      - intros [= ->]. right. exists leftMd. split; [done|]. by left.
      - intros [[=]|(? & [= <-] & [[= ->]|(? & [=] & _)])]. done. }
  destruct (json_Unmarshal leftMd) as [leftClone|e3] eqn:H3; simpl.
  2:{ split.
      - intros [= ->]. right. exists leftMd. split; [done|]. right.
        exists rightMd. split; [done|]. by left.
      - intros [[=]|(? & [= <-] & [[=]|(? & [= <-] & [Hl|(? & Hl & _)])])];
          congruence. }
  destruct (json_Unmarshal rightMd) as [rightClone|e4] eqn:H4; simpl.
  2:{ split.
      - intros [= ->]. right. exists leftMd. split; [done|]. right.
        exists rightMd. split; [done|]. right. exists leftClone.
        split; [done|]. by left.
      - intros [[=]|(? & [= <-] & [[=]|(? & [= <-] & [Hl|(? & Hl &
          [Hr|(? & Hr & _)])])])]; congruence. }
  destruct (json_MarshalIndent (sanitizeConfig leftClone) "" " ")
    as [leftMd'|e5] eqn:H5; simpl.
  2:{ split.
      - intros [= ->]. right. exists leftMd. split; [done|]. right.
        exists rightMd. split; [done|]. right. exists leftClone.
        split; [done|]. right. exists rightClone. split; [done|]. by left.
      - intros [[=]|(? & [= <-] & [[=]|(? & [= <-] & [Hl|(? & Hl &
          [Hr|(? & Hr & [Hi|(? & Hi & _)])])])])]; congruence. }
  destruct (json_MarshalIndent (sanitizeConfig rightClone) "" " ")
    as [rightMd'|e6] eqn:H6; simpl.
  - split; [done|].
    intros [[=]|(? & [= <-] & [[=]|(? & [= <-] & [Hl|(? & Hl &
      [Hr|(? & Hr & [Hi|(? & Hi & Hj)])])])])]; congruence.
  - split.
    + intros [= ->]. right. exists leftMd. split; [done|]. right.
      exists rightMd. split; [done|]. right. exists leftClone.
      split; [done|]. right. exists rightClone. split; [done|]. right.
      exists leftMd'. done.
    + intros [[=]|(? & [= <-] & [[=]|(? & [= <-] & [Hl|(? & Hl &
        [Hr|(? & Hr & [Hi|(? & Hi & Hj)])])])])]; congruence.
Qed.

(** Once the pretty diff is there, [DiffConfigs] returns a [Diff]: none of the
    six [diffAll] panics. *)
Lemma DiffConfigs_Ok (left right : Config) (reveal : bool) s :
  (if reveal then prettyDiff left right else Ok "") = Ok s →
  ∃ diff d1 components d2 services,
    DiffConfigs left right reveal = Returns (Ok diff)
    ∧ Diff_PrettyDiff diff = s
    ∧ diffAll ResourceConfig_Equals ResourceConfig_ResourceName
        (rangeKeys _ _ _ _) (Config_Components left) (Config_Components right)
        (mkSlices [] [] []
           (if decide (Config_Revision left ≠ Config_Revision right)
            then Some [] else None))
      = Returns (d1, components)
    ∧ diffAll ResourceConfig_Equals ResourceConfig_ResourceName
        (rangeKeys _ _ _ _) (Config_Services left) (Config_Services right)
        (mkSlices [] [] [] (unmodified components))
      = Returns (d2, services)
    ∧ Diff_UnmodifiedResources diff = default [] (unmodified services).
Proof.
  intros Hpretty. unfold DiffConfigs, config.DiffConfigs. rewrite Hpretty.
  repeat match goal with
  | |- context [diffAll ?E ?g (rangeKeys ?K ?T ?e ?c) ?l ?r ?o] =>
      let d := fresh "d" in
      let Hd := fresh "Hd" in
      destruct (diffAll_returns E g (rangeKeys K T e c)
                  (rangeKeys_perm K T e c) l r o) as [d Hd];
      rewrite Hd; cbn [mbind outcome_bind]
  end.
  do 5 eexists. split; [reflexivity|]. cbn [Diff_PrettyDiff].
  split; [reflexivity|]. split; [reflexivity|]. split; [eassumption|].
  reflexivity.
Qed.

(** C9. [DiffConfigs] returns an error exactly when the pretty diff is
    requested and one of the serialization steps of [prettyDiff] (marshaling
    either snapshot, unmarshaling either copy, marshaling either redacted
    copy) fails, and the error is the one of that step; no [Diff] comes with
    it. In every other case it returns a [Diff]. It never panics. *)
Theorem DiffConfigs_fails_only_on_serialization (left right : Config)
    (reveal : bool) :
  (∀ err, DiffConfigs left right reveal = Returns (Err err) ↔
          reveal = true ∧ serializationFails left right err)
  ∧ ((¬ ∃ err, reveal = true ∧ serializationFails left right err) →
     ∃ diff, DiffConfigs left right reveal = Returns (Ok diff)).
Proof.
  destruct (if reveal then prettyDiff left right else Ok "") as [s|e] eqn:Hp.
  - destruct (DiffConfigs_Ok left right reveal s Hp)
      as (diff & d1 & cs & d2 & ss & Hrun & _).
    split; [|by eauto]. intros err. rewrite Hrun. split; [done|].
    intros [-> Hfail%prettyDiff_Err_iff]. congruence.
  - destruct reveal; [|done].
    assert (∀ err, DiffConfigs left right true = Returns (Err err) ↔ err = e)
      as Hrun.
    { intros err. unfold DiffConfigs, config.DiffConfigs. rewrite Hp.
      split; [by intros [= ->]|by intros ->]. }
    split.
    + intros err. rewrite Hrun, <-prettyDiff_Err_iff, Hp. split.
      * by intros ->.
      * by intros [_ [= ->]].
    + intros Hnone. exfalso. apply Hnone. exists e. split; [done|].
      by apply prettyDiff_Err_iff.
Qed.

(** C10. Every item of [UnmodifiedResources] is a component or a service of
    the right config that [Equals] the left component or service of the same
    name; the list is empty when the two revisions are the same. Remotes,
    processes, packages and modules, whose [diffAll] gets a nil [unmodified],
    never contribute, whatever the revisions. *)
Theorem UnmodifiedResources_components_and_services
    (left right : Config) (reveal : bool) diff :
  DiffConfigs left right reveal = Returns (Ok diff) →
  (∀ x, x ∈ Diff_UnmodifiedResources diff →
     (x ∈ Config_Components right
      ∧ ∃ l, l ∈ Config_Components left
             ∧ ResourceConfig_ResourceName l = ResourceConfig_ResourceName x
             ∧ ResourceConfig_Equals l x = true)
     ∨ (x ∈ Config_Services right
        ∧ ∃ l, l ∈ Config_Services left
               ∧ ResourceConfig_ResourceName l = ResourceConfig_ResourceName x
               ∧ ResourceConfig_Equals l x = true))
  ∧ (Config_Revision left = Config_Revision right →
     Diff_UnmodifiedResources diff = []).
Proof.
  intros Hrun.
  destruct (if reveal then prettyDiff left right else Ok "") as [s|e] eqn:Hp.
  2:{ unfold DiffConfigs, config.DiffConfigs in Hrun. by rewrite Hp in Hrun. }
  destruct (DiffConfigs_Ok left right reveal s Hp)
    as (diff' & d1 & cs & d2 & ss & Hrun' & _ & Hcs & Hss & Hun).
  rewrite Hrun in Hrun'. injection Hrun' as <-. rewrite Hun.
  apply diffAll_unmodified in Hcs, Hss; [|apply rangeKeys_perm..]. simpl in Hcs.
  destruct (decide (Config_Revision left ≠ Config_Revision right)) as [Hrev|Hrev].
  - destruct Hcs as (du & Hcs & Hdu). rewrite Hcs in Hss.
    destruct Hss as (du' & -> & Hdu'). simpl. split; [|done].
    intros x [Hx|Hx]%elem_of_app; [left; by apply Hdu|right; by apply Hdu'].
  - rewrite Hcs in Hss. rewrite Hss. simpl. split; [|done].
    by intros x ?%elem_of_nil.
Qed.

(** **** The flags of the difference *)

(** X17. In the [Diff] that [DiffConfigs] returns, [ResourcesEqual] is true
    exactly when none of the six collections of [Added], of [Modified] and of
    [Removed] has an item. *)
Theorem DiffConfigs_ResourcesEqual_iff (left right : Config) (reveal : bool)
    diff :
  DiffConfigs left right reveal = Returns (Ok diff) →
  Diff_ResourcesEqual diff = true ↔
    Config_noItems (Diff_Added diff) ∧ Modified_noItems (Diff_Modified diff)
    ∧ Config_noItems (Diff_Removed diff).
Proof.
  unfold DiffConfigs, config.DiffConfigs.
  destruct (if reveal then prettyDiff left right else Ok "") as [s|e];
    [|done].
  repeat match goal with
  | |- context [diffAll ?E ?g (rangeKeys ?K ?T ?e ?c) ?l ?r
                  (mkSlices [] [] [] ?u)] =>
      let d := fresh "d" in
      let o := fresh "o" in
      let Hd := fresh "Hd" in
      let Hf := fresh "Hf" in
      destruct (diffAll_fresh E g (rangeKeys K T e c)
                  (rangeKeys_perm K T e c) l r u) as (d & o & Hd & Hf);
      rewrite Hd; cbn [mbind outcome_bind]
  end.
  intros [= <-]. unfold Config_noItems, Modified_noItems. simpl.
  rewrite negb_true_iff, !orb_false_iff. tauto.
Qed.

(** X18. [LogEqual] is true exactly when [reflect.DeepEqual] finds the two
    log configs equal and no component and no service is recorded as added,
    modified or removed. *)
Theorem DiffConfigs_LogEqual_iff (left right : Config) (reveal : bool) diff :
  DiffConfigs left right reveal = Returns (Ok diff) →
  Diff_LogEqual diff = true ↔
    DeepEqual _ (Config_LogConfig left) (Config_LogConfig right) = true
    ∧ Config_Components (Diff_Added diff) = []
    ∧ Config_Services (Diff_Added diff) = []
    ∧ Modified_Components (Diff_Modified diff) = []
    ∧ Modified_Services (Diff_Modified diff) = []
    ∧ Config_Components (Diff_Removed diff) = []
    ∧ Config_Services (Diff_Removed diff) = [].
Proof.
  unfold DiffConfigs, config.DiffConfigs.
  destruct (if reveal then prettyDiff left right else Ok "") as [s|e];
    [|done].
  repeat match goal with
  | |- context [diffAll ?E ?g (rangeKeys ?K ?T ?e ?c) ?l ?r
                  (mkSlices [] [] [] ?u)] =>
      let d := fresh "d" in
      let o := fresh "o" in
      let Hd := fresh "Hd" in
      let Hf := fresh "Hf" in
      destruct (diffAll_fresh E g (rangeKeys K T e c)
                  (rangeKeys_perm K T e c) l r u) as (d & o & Hd & Hf);
      rewrite Hd; cbn [mbind outcome_bind]
  end.
  intros [= <-]. simpl. unfold diffLogCfg.
  destruct (DeepEqual _ (Config_LogConfig left) (Config_LogConfig right));
    simpl; [|split; [done|by intros [? _]]].
  match goal with
  | |- context [negb (if ?a || ?b then _ else _)] => destruct a, b
  end; simpl; intuition congruence.
Qed.

(** X19. Without [revealSensitiveConfigDiffs], [DiffConfigs] returns a [Diff]
    with an empty [PrettyDiff] whose [Left] and [Right] are the two configs
    given; with it, the [Diff] returned, if any, is the same but for
    [PrettyDiff]. *)
Theorem DiffConfigs_reveal_only_PrettyDiff (left right : Config) :
  ∃ diff,
    DiffConfigs left right false = Returns (Ok diff)
    ∧ Diff_PrettyDiff diff = ""
    ∧ Diff_Left diff = left ∧ Diff_Right diff = right
    ∧ ∀ diff', DiffConfigs left right true = Returns (Ok diff') →
        diff' =
          mkDiff (Diff_Left diff) (Diff_Right diff) (Diff_Added diff)
            (Diff_Modified diff) (Diff_Removed diff)
            (Diff_ResourcesEqual diff) (Diff_NetworkEqual diff)
            (Diff_LogEqual diff) (Diff_PrettyDiff diff')
            (Diff_UnmodifiedResources diff).
Proof.
  unfold DiffConfigs, config.DiffConfigs.
  repeat match goal with
  | |- context [diffAll ?E ?g (rangeKeys ?K ?T ?e ?c) ?l ?r ?o] =>
      rewrite (diffAll_result E g (rangeKeys K T e c)
                 (rangeKeys_perm K T e c) l r o); cbn [mbind outcome_bind]
  end.
  eexists. split; [reflexivity|]. simpl. do 3 (split; [done|]).
  intros diff'. destruct (prettyDiff left right) as [s|e]; [|done].
  by intros [= <-].
Qed.

(** **** Redaction *)

Lemma maskIfSet_alike s s' : sameEmptiness s s' → maskIfSet s = maskIfSet s'.
Proof.
  unfold sameEmptiness, maskIfSet. intros Hs.
  destruct (decide (s ≠ "")) as [Hne|He], (decide (s' ≠ "")) as [Hne'|He'];
    try done.
  - apply dec_stable in He'. apply Hs in He'. done.
  - apply dec_stable in He. apply Hs in He. done.
  - apply dec_stable in He, He'. congruence.
Qed.

Lemma Forall2_fmap_eq {A B} (R : A → A → Prop) (f : A → B) (l l' : list A) :
  (∀ x y, R x y → f x = f y) → Forall2 R l l' → f <$> l = f <$> l'.
Proof.
  intros Hf. induction 1 as [|x y l l' Hxy _ IH]; [done|].
  rewrite !fmap_cons. f_equal; [by apply Hf|done].
Qed.

Lemma option_Forall2_fmap_eq {A B} (R : A → A → Prop) (f : A → B)
    (o o' : option A) :
  (∀ x y, R x y → f x = f y) → option_Forall2 R o o' → f <$> o = f <$> o'.
Proof. intros Hf [x y Hxy|]; simpl; [|done]. f_equal. by apply Hf. Qed.

Lemma sanitizeCloud_alike (c c' : @Cloud CloudRest) :
  Cloud_alike c c' → sanitizeCloud c = sanitizeCloud c'.
Proof.
  intros (Hs & Hl & Hls & Hc & Hk & Hrest). unfold sanitizeCloud.
  rewrite (maskIfSet_alike _ _ Hs), (maskIfSet_alike _ _ Hl),
    (maskIfSet_alike _ _ Hc), (maskIfSet_alike _ _ Hk), Hrest.
  f_equal. eapply Forall2_fmap_eq; [|exact Hls].
  intros a b [Hid Hsec]. by rewrite Hid, (maskIfSet_alike _ _ Hsec).
Qed.

Lemma sanitizeHandler_alike (h h' : @AuthHandlerConfig AttrRest HandlerRest) :
  Handler_alike h h' → sanitizeHandler h = sanitizeHandler h'.
Proof.
  intros [Hdom Hrest]. unfold sanitizeHandler. rewrite Hrest. f_equal.
  apply map_eq. intros k. rewrite !lookup_fmap.
  destruct (AuthHandlerConfig_Config h !! k) as [v|] eqn:Hk.
  - assert (k ∈ dom (AuthHandlerConfig_Config h')) as [v' ->]%elem_of_dom;
      [|done].
    rewrite <-Hdom. apply elem_of_dom. eauto.
  - destruct (AuthHandlerConfig_Config h' !! k) as [v'|] eqn:Hk'; [|done].
    assert (k ∈ dom (AuthHandlerConfig_Config h)) as [v Hv]%elem_of_dom;
      [|congruence].
    rewrite Hdom. apply elem_of_dom. eauto.
Qed.

Lemma sanitizeRemote_alike (r r' : Remote) :
  Remote_alike r r' → sanitizeRemote r = sanitizeRemote r'.
Proof.
  intros (Hname & Hsec & Hcred & Hsig & Harest & Hrest). unfold sanitizeRemote.
  rewrite Hname, (maskIfSet_alike _ _ Hsec), Harest, Hrest.
  assert (∀ o o' : option (@Credentials CredentialsRest),
            option_Forall2 Credentials_alike o o' →
            sanitizeCredentials <$> o = sanitizeCredentials <$> o') as Hc.
  { intros o o'. apply option_Forall2_fmap_eq. intros x y Hxy.
    unfold sanitizeCredentials. by rewrite Hxy. }
  by rewrite (Hc _ _ Hcred), (Hc _ _ Hsig).
Qed.

(** [sanitizeConfig] erases every difference between two configs that are
    alike. *)
Lemma sanitizeConfig_alike (c c' : Config) :
  Config_alike c c' → sanitizeConfig c = sanitizeConfig c'.
Proof.
  intros (Hcloud & Hmod & Hrem & Hcomp & Hproc & Hserv & Hpkg & Hnet & Hh
          & Hauth & Hlog & Hweb & Hrev & Hrest).
  unfold sanitizeConfig.
  rewrite Hmod, Hcomp, Hproc, Hserv, Hpkg, Hnet, Hauth, Hlog, Hweb, Hrev, Hrest.
  rewrite (option_Forall2_fmap_eq _ _ _ _ sanitizeCloud_alike Hcloud).
  rewrite (Forall2_fmap_eq _ _ _ _ sanitizeRemote_alike Hrem).
  by rewrite (Forall2_fmap_eq _ _ _ _ sanitizeHandler_alike Hh).
Qed.

Lemma maskIfSet_masked s : masked (maskIfSet s).
Proof.
  unfold masked, maskIfSet. destruct (decide (s ≠ "")) as [|He]; [by right|].
  left. by apply dec_stable in He.
Qed.

Lemma maskIfSet_sameEmptiness s : sameEmptiness s (maskIfSet s).
Proof.
  unfold sameEmptiness, maskIfSet. destruct (decide (s ≠ "")); [|done].
  split; [done|]. intros [=].
Qed.

Lemma maskIfSet_idem s : maskIfSet (maskIfSet s) = maskIfSet s.
Proof.
  unfold maskIfSet. destruct (decide (s ≠ "")) as [|He].
  - by rewrite decide_True.
  - by rewrite decide_False.
Qed.

(** X21. [sanitizeConfig] masks every sensitive field: in the config it
    leaves, the cloud secret, location secret(s), TLS certificate and private
    key and every remote's secret are empty or the mask, and every attribute
    of every auth handler and every credential payload of every remote is
    the mask. *)
Theorem sanitizeConfig_masks (c : Config) : Config_masked (sanitizeConfig c).
Proof.
  unfold Config_masked, sanitizeConfig. simpl. split; [|split].
  - intros cloud. destruct (Config_Cloud c) as [cl|]; [|done].
    intros [= <-]. unfold Cloud_masked, sanitizeCloud. simpl.
    repeat split; try apply maskIfSet_masked.
    apply Forall_fmap, Forall_forall. intros ls _. apply maskIfSet_masked.
  - apply Forall_fmap, Forall_forall. intros h _.
    unfold Handler_masked, sanitizeHandler. simpl.
    intros k v. rewrite lookup_fmap.
    destruct (AuthHandlerConfig_Config h !! k); [|done]. by intros [= <-].
  - apply Forall_fmap, Forall_forall. intros r _.
    unfold Remote_masked, sanitizeRemote. simpl.
    split; [apply maskIfSet_masked|].
    split; intros cr Hcr.
    + destruct (RemoteAuth_Credentials (Remote_Auth r)); [|done].
      by injection Hcr as <-.
    + destruct (RemoteAuth_SignalingCreds (Remote_Auth r)); [|done].
      by injection Hcr as <-.
Qed.

(** X22. [sanitizeConfig] changes nothing but the values of the masked
    fields: the config it leaves is alike the one it was given, an empty
    masked string stays empty, the attribute maps keep their keys and a nil
    credentials pointer stays nil. *)
Theorem sanitizeConfig_keeps_the_rest (c : Config) :
  Config_alike c (sanitizeConfig c).
Proof.
  unfold Config_alike, sanitizeConfig. simpl. repeat split; try done.
  - destruct (Config_Cloud c) as [cl|]; constructor.
    unfold Cloud_alike, sanitizeCloud. simpl.
    repeat split; try apply maskIfSet_sameEmptiness.
    apply Forall2_fmap_r, Forall_Forall2_diag, Forall_forall. intros ls _.
    split; [done|]. apply maskIfSet_sameEmptiness.
  - apply Forall2_fmap_r, Forall_Forall2_diag, Forall_forall. intros r _.
    unfold Remote_alike, sanitizeRemote. simpl.
    repeat split; try apply maskIfSet_sameEmptiness.
    + by destruct (RemoteAuth_Credentials (Remote_Auth r)); constructor.
    + by destruct (RemoteAuth_SignalingCreds (Remote_Auth r)); constructor.
  - apply Forall2_fmap_r, Forall_Forall2_diag, Forall_forall. intros h _.
    unfold Handler_alike, sanitizeHandler. simpl. split; [|done].
    by rewrite dom_fmap_L.
Qed.

(** X23. [sanitizeConfig] is idempotent: sanitizing a sanitized config
    changes nothing. *)
Theorem sanitizeConfig_idempotent (c : Config) :
  sanitizeConfig (sanitizeConfig c) = sanitizeConfig c.
Proof.
  unfold sanitizeConfig. simpl. f_equal.
  - destruct (Config_Cloud c) as [cl|]; [|done]. simpl. f_equal.
    unfold sanitizeCloud. simpl. rewrite !maskIfSet_idem. f_equal.
    rewrite <-list_fmap_compose. apply list_fmap_ext. intros i ls _. simpl.
    by rewrite maskIfSet_idem.
  - rewrite <-list_fmap_compose. apply list_fmap_ext. intros i r _. simpl.
    unfold sanitizeRemote. simpl. rewrite maskIfSet_idem.
    by destruct (RemoteAuth_Credentials (Remote_Auth r)),
      (RemoteAuth_SignalingCreds (Remote_Auth r)).
  - f_equal. rewrite <-list_fmap_compose. apply list_fmap_ext. intros i h _.
    simpl. unfold sanitizeHandler. simpl. f_equal.
    by rewrite <-map_fmap_compose.
Qed.

(** C5. The pretty diff does not depend on the values of the masked fields:
    two pairs of snapshots whose private copies are alike, that is, differ at
    most in the values of the cloud secret, location secret(s), TLS
    certificate and private key, of the auth handlers' attributes, and of the
    remotes' secrets and credential payloads, yield the same [prettyDiff]
    result. [sanitizeCloud], [sanitizeRemote] and [sanitizeHandler] replace
    those values by the mask before anything is rendered. *)
Theorem prettyDiff_independent_of_masked_values
    (left right left' right' : Config) :
  copiesAlike left left' → copiesAlike right right' →
  prettyDiff left right = prettyDiff left' right'.
Proof.
  unfold copiesAlike, config.copiesAlike, prettyDiff, config.prettyDiff.
  intros Hl Hr.
  destruct (json_Marshal left) as [lm|e], (json_Marshal left') as [lm'|e'];
    simpl; try done; [|by rewrite Hl].
  destruct (json_Marshal right) as [rm|e], (json_Marshal right') as [rm'|e'];
    simpl; try done; [|by rewrite Hr].
  destruct (json_Unmarshal lm) as [lc|e], (json_Unmarshal lm') as [lc'|e'];
    simpl; try done; [|by rewrite Hl].
  destruct (json_Unmarshal rm) as [rc|e], (json_Unmarshal rm') as [rc'|e'];
    simpl; try done; [|by rewrite Hr].
  by rewrite (sanitizeConfig_alike _ _ Hl), (sanitizeConfig_alike _ _ Hr).
Qed.

End DiffConfigs.

Lemma toy_rangeKeys_perm (K T : Type) (e : EqDecision K) (c : Countable K)
    (m : gmap K T) :
  toy_rangeKeys K T m ≡ₚ (map_to_list m).*1.
Proof. reflexivity. Defined.

Lemma DiffConfigs_fails_only_on_serialization_witness :
  (∀ err, toy_DiffConfigs [] toy_left toy_right true = Returns (Err err) ↔
          true = true
          ∧ serializationFails toy_Marshal (toy_Unmarshal []) toy_MarshalIndent
              toy_left toy_right err)
  ∧ ((¬ ∃ err, true = true
               ∧ serializationFails toy_Marshal (toy_Unmarshal [])
                   toy_MarshalIndent toy_left toy_right err) →
     ∃ diff, toy_DiffConfigs [] toy_left toy_right true = Returns (Ok diff)).
Proof.
  apply (DiffConfigs_fails_only_on_serialization toy_DeepEqual
           item_key item_Equals item_key item_Equals item_key item_Equals
           item_key item_Equals toy_Remote_Equals toy_Marshal (toy_Unmarshal [])
           toy_MarshalIndent toy_DiffMain toy_DiffPrettyText toy_rangeKeys
           toy_rangeKeys_perm toy_left toy_right true).
Defined.

(** With a decoder that knows no config the pretty diff fails and so does
    [DiffConfigs]; without the pretty diff the same call returns a [Diff]. *)
Example DiffConfigs_toy_error :
  toy_DiffConfigs [] toy_left toy_right true = Returns (Err "cannot unmarshal")
  ∧ ∃ diff, toy_DiffConfigs [] toy_left toy_right false = Returns (Ok diff).
Proof. split; [vm_compute; reflexivity|]. eexists. vm_compute. reflexivity. Qed.

Lemma UnmodifiedResources_components_and_services_witness :
  ∃ diff,
    toy_DiffConfigs toy_known toy_left toy_right false = Returns (Ok diff)
    ∧ Diff_UnmodifiedResources diff = [("arm", 1); ("nav", 1)]
    ∧ (∀ x, x ∈ Diff_UnmodifiedResources diff →
         (x ∈ Config_Components toy_right
          ∧ ∃ l, l ∈ Config_Components toy_left
                 ∧ item_key l = item_key x ∧ item_Equals l x = true)
         ∨ (x ∈ Config_Services toy_right
            ∧ ∃ l, l ∈ Config_Services toy_left
                   ∧ item_key l = item_key x ∧ item_Equals l x = true))
    ∧ (Config_Revision toy_left = Config_Revision toy_right →
       Diff_UnmodifiedResources diff = []).
Proof.
  eexists. split; [vm_compute; reflexivity|]. split; [reflexivity|].
  apply (UnmodifiedResources_components_and_services toy_DeepEqual
           item_key item_Equals item_key item_Equals item_key item_Equals
           item_key item_Equals toy_Remote_Equals toy_Marshal
           (toy_Unmarshal toy_known) toy_MarshalIndent toy_DiffMain
           toy_DiffPrettyText toy_rangeKeys toy_rangeKeys_perm
           toy_left toy_right false).
  vm_compute. reflexivity.
Defined.

Lemma diffTLS_symmetric_witness :
  diffTLS toy_DeepEqual (Some (toy_tls 771)) (Some (toy_tls 772))
  = diffTLS toy_DeepEqual (Some (toy_tls 772)) (Some (toy_tls 771)).
Proof.
  apply (diffTLS_symmetric toy_DeepEqual (Some (toy_tls 771))
           (Some (toy_tls 772))).
  intros a b. reflexivity.
Defined.

Lemma DiffConfigs_ResourcesEqual_iff_witness :
  ∃ diff,
    toy_DiffConfigs toy_known toy_left toy_right false = Returns (Ok diff)
    ∧ (Diff_ResourcesEqual diff = true ↔
         Config_noItems (Diff_Added diff)
         ∧ Modified_noItems (Diff_Modified diff)
         ∧ Config_noItems (Diff_Removed diff)).
Proof.
  eexists. split; [vm_compute; reflexivity|].
  apply (DiffConfigs_ResourcesEqual_iff toy_DeepEqual
           item_key item_Equals item_key item_Equals item_key item_Equals
           item_key item_Equals toy_Remote_Equals toy_Marshal
           (toy_Unmarshal toy_known) toy_MarshalIndent toy_DiffMain
           toy_DiffPrettyText toy_rangeKeys toy_rangeKeys_perm
           toy_left toy_right false).
  vm_compute. reflexivity.
Defined.

Lemma DiffConfigs_LogEqual_iff_witness :
  ∃ diff,
    toy_DiffConfigs toy_known toy_left toy_right false = Returns (Ok diff)
    ∧ (Diff_LogEqual diff = true ↔
         toy_DeepEqual _ (Config_LogConfig toy_left)
           (Config_LogConfig toy_right) = true
         ∧ Config_Components (Diff_Added diff) = []
         ∧ Config_Services (Diff_Added diff) = []
         ∧ Modified_Components (Diff_Modified diff) = []
         ∧ Modified_Services (Diff_Modified diff) = []
         ∧ Config_Components (Diff_Removed diff) = []
         ∧ Config_Services (Diff_Removed diff) = []).
Proof.
  eexists. split; [vm_compute; reflexivity|].
  apply (DiffConfigs_LogEqual_iff toy_DeepEqual
           item_key item_Equals item_key item_Equals item_key item_Equals
           item_key item_Equals toy_Remote_Equals toy_Marshal
           (toy_Unmarshal toy_known) toy_MarshalIndent toy_DiffMain
           toy_DiffPrettyText toy_rangeKeys toy_rangeKeys_perm
           toy_left toy_right false).
  vm_compute. reflexivity.
Defined.

Lemma DiffConfigs_reveal_only_PrettyDiff_witness :
  ∃ diff,
    toy_DiffConfigs toy_known toy_left toy_right false = Returns (Ok diff)
    ∧ Diff_PrettyDiff diff = ""
    ∧ Diff_Left diff = toy_left ∧ Diff_Right diff = toy_right
    ∧ ∀ diff', toy_DiffConfigs toy_known toy_left toy_right true
               = Returns (Ok diff') →
        diff' =
          mkDiff (Diff_Left diff) (Diff_Right diff) (Diff_Added diff)
            (Diff_Modified diff) (Diff_Removed diff)
            (Diff_ResourcesEqual diff) (Diff_NetworkEqual diff)
            (Diff_LogEqual diff) (Diff_PrettyDiff diff')
            (Diff_UnmodifiedResources diff).
Proof.
  apply (DiffConfigs_reveal_only_PrettyDiff toy_DeepEqual
           item_key item_Equals item_key item_Equals item_key item_Equals
           item_key item_Equals toy_Remote_Equals toy_Marshal
           (toy_Unmarshal toy_known) toy_MarshalIndent toy_DiffMain
           toy_DiffPrettyText toy_rangeKeys toy_rangeKeys_perm
           toy_left toy_right).
Defined.

Lemma prettyDiff_independent_of_masked_values_witness :
  toy_prettyDiff toy_known toy_left toy_right
  = toy_prettyDiff toy_known toy_left' toy_right'.
Proof.
  apply (prettyDiff_independent_of_masked_values toy_Marshal
           (toy_Unmarshal toy_known) toy_MarshalIndent toy_DiffMain
           toy_DiffPrettyText toy_left toy_right toy_left' toy_right').
  - unfold copiesAlike, toy_Marshal.
    assert (toy_Unmarshal toy_known (toy_render toy_left) = Ok toy_left) as ->
      by (vm_compute; reflexivity).
    assert (toy_Unmarshal toy_known (toy_render toy_left') = Ok toy_left') as ->
      by (vm_compute; reflexivity).
    unfold Config_alike; simpl. split; [|repeat split; constructor].
    constructor. unfold Cloud_alike, sameEmptiness; simpl.
    repeat split; try discriminate; constructor.
  - unfold copiesAlike, toy_Marshal.
    assert (toy_Unmarshal toy_known (toy_render toy_right) = Ok toy_right) as ->
      by (vm_compute; reflexivity).
    assert (toy_Unmarshal toy_known (toy_render toy_right') = Ok toy_right')
      as -> by (vm_compute; reflexivity).
    unfold Config_alike; simpl. split.
    + constructor. unfold Cloud_alike, sameEmptiness; simpl.
      repeat split; try discriminate; constructor.
    + repeat split; try constructor.
      unfold Remote_alike, sameEmptiness; simpl. repeat split; constructor.
      constructor.
Defined.

(** The cloud secret of both snapshots is s3cr3t and it is masked, yet the
    pretty diff contains that text: the right snapshot adds a remote whose
    name, a field that is not masked, is s3cr3t too. *)
Lemma prettyDiff_shows_text_of_unmasked_field :
  Cloud_Secret <$> Config_Cloud toy_left = Some "s3cr3t"
  ∧ Cloud_Secret <$> Config_Cloud toy_right = Some "s3cr3t"
  ∧ ∃ diff,
      toy_DiffConfigs toy_known toy_left toy_right true = Returns (Ok diff)
      ∧ contains "s3cr3t" (Diff_PrettyDiff diff) = true
      ∧ contains "cloud:{secret:s3cr3t}" (Diff_PrettyDiff diff) = false.
Proof.
  split; [reflexivity|]. split; [reflexivity|]. eexists.
  split; [vm_compute; reflexivity|]. split; vm_compute; reflexivity.
Qed.

End config_facts.

Module transformpipeline_facts.
Import transformpipeline.

Section Pipeline.

Context {error : Type}.
Context (errors_New : string → error)
        (errors_Wrap : error → string → error)
        (errors_Errorf : string → list Z → error)
        (fmt_Errorf_wrap2 : error → error → error)
        (NewConfigValidationFieldRequiredError : string → string → error).
Context {PinholeRest BrownConrady Transformation : Type}.
Context {ExtVideoSource ExtCamera GoStreamSource : Type}.
Context {Image PointCloud PointCloudSource ImageType Named Robot Logger
         CameraModel : Type}.
Context (UnspecifiedStream DepthStream ColorStream : ImageType).

#[local] Abbreviation VideoSource :=
  (@VideoSource ExtVideoSource ExtCamera GoStreamSource).
#[local] Abbreviation Camera :=
  (@Camera ExtVideoSource ExtCamera GoStreamSource).
#[local] Abbreviation transformConfig :=
  (@transformConfig PinholeRest BrownConrady Transformation).
#[local] Abbreviation transformPipeline :=
  (@transformPipeline PinholeRest ExtVideoSource ExtCamera GoStreamSource
     Named Logger).

Context (camerautils_VideoSourceFromCamera :
           ExtCamera → result error GoStreamSource)
        (DecodeImageFromCamera : Camera → result error Image)
        (isDepthMap isGray16 : Image → bool)
        (buildTransform :
           Robot → VideoSource → ImageType → Transformation →
           result error (Camera * ImageType))
        (NewPinholeModelWithBrownConradyDistortion :
           option (@PinholeCameraIntrinsics PinholeRest) →
           option BrownConrady → CameraModel)
        (asPointCloudSource : VideoSource → option PointCloudSource)
        (PointCloudSource_NextPointCloud :
           PointCloudSource → result error PointCloud)
        (NewVideoSourceFromReader :
           transformPipeline → CameraModel → ImageType →
           result error VideoSource).

#[local] Abbreviation Validate :=
  (@Validate error errors_Errorf NewConfigValidationFieldRequiredError
     PinholeRest BrownConrady Transformation).
#[local] Abbreviation videoSourceFromCamera :=
  (videoSourceFromCamera errors_New fmt_Errorf_wrap2
     camerautils_VideoSourceFromCamera).
#[local] Abbreviation buildPipeline :=
  (buildPipeline errors_New fmt_Errorf_wrap2 camerautils_VideoSourceFromCamera
     buildTransform).
#[local] Abbreviation newTransformPipeline :=
  (newTransformPipeline errors_New fmt_Errorf_wrap2 UnspecifiedStream
     DepthStream ColorStream camerautils_VideoSourceFromCamera
     DecodeImageFromCamera isDepthMap isGray16 buildTransform
     NewPinholeModelWithBrownConradyDistortion NewVideoSourceFromReader).
#[local] Abbreviation NextPointCloud :=
  (@NextPointCloud error errors_New errors_Wrap PinholeRest ExtVideoSource
     ExtCamera GoStreamSource PointCloud PointCloudSource Named Logger
     asPointCloudSource PointCloudSource_NextPointCloud).

(** X24. [Validate] succeeds exactly when the source is named and the
    intrinsic parameters, if given, have no negative width or height (zero is
    accepted); the dependencies it then returns are the source alone, and no
    optional dependency. *)
Theorem Validate_ok_iff (cfg : transformConfig) path deps optional :
  Validate cfg path = Ok (deps, optional) ↔
    Source cfg ≠ ""
    ∧ (∀ params, CameraParameters cfg = Some params →
                 (0 ≤ Height params)%Z ∧ (0 ≤ Width params)%Z)
    ∧ deps = [Source cfg] ∧ optional = [].
Proof.
  unfold Validate, transformpipeline.Validate.
  destruct (Source cfg) as [|c source] eqn:Hs; simpl.
  { split; [done|]. by intros [? _]. }
  destruct (CameraParameters cfg) as [params|]; simpl.
  - destruct (Height params <? 0)%Z eqn:Hh; simpl.
    { apply Z.ltb_lt in Hh. split; [done|].
      intros (_ & Hp & _). destruct (Hp params eq_refl). lia. }
    destruct (Width params <? 0)%Z eqn:Hw; simpl.
    { apply Z.ltb_lt in Hw. split; [done|].
      intros (_ & Hp & _). destruct (Hp params eq_refl). lia. }
    apply Z.ltb_ge in Hh, Hw. split.
    + intros [= <- <-]. split; [done|]. split; [|done]. by intros ? [= <-].
    + by intros (_ & _ & -> & ->).
  - split.
    + by intros [= <- <-].
    + by intros (_ & _ & -> & ->).
Qed.

Lemma NextPointCloud_panics (tp : transformPipeline) :
  NextPointCloud tp = Panics ↔ pipeline tp = [].
Proof.
  unfold NextPointCloud, transformpipeline.NextPointCloud.
  destruct (pipeline tp) as [|x l] eqn:Hp; [done|].
  destruct (Z.of_nat (length (x :: l)) - 1 <? 0)%Z eqn:Hidx.
  { apply Z.ltb_lt in Hidx. simpl in Hidx. lia. }
  destruct (lookup_lt_is_Some_2 (x :: l)
              (Z.to_nat (Z.of_nat (length (x :: l)) - 1))) as [lastElem ->].
  { simpl. lia. }
  split; [|done].
  destruct (asPointCloudSource lastElem) as [pcs|]; [|done].
  by destruct (PointCloudSource_NextPointCloud pcs).
Qed.

(** X25. [NextPointCloud] panics exactly on a pipeline without elements: the
    index [len(tp.pipeline)-1] is then out of range. *)
Theorem NextPointCloud_panics_iff (tp : transformPipeline) :
  NextPointCloud tp = Panics ↔ pipeline tp = [].
Proof. apply NextPointCloud_panics. Qed.

Lemma buildPipeline_spec r transforms pipeline lastSource streamType
    pipeline' lastSource' streamType' :
  buildPipeline r transforms pipeline lastSource streamType
  = Ok (pipeline', lastSource', streamType') →
  ∃ built,
    pipeline' = pipeline ++ built
    ∧ length built = length transforms
    ∧ lastSource' = default lastSource (last built).
Proof.
  revert pipeline lastSource streamType.
  induction transforms as [|tr transforms IH];
    intros pipeline lastSource streamType.
  { intros [= <- <- <-]. exists []. by rewrite app_nil_r. }
  cbn [transformpipeline.buildPipeline].
  destruct (buildTransform r lastSource streamType tr) as [[src ty]|e];
    [|done].
  cbn [mbind result_bind].
  destruct (videoSourceFromCamera src) as [streamSrc|e]; [|done].
  cbn [mbind result_bind]. intros (built & -> & Hlen & ->)%IH.
  exists (streamSrc :: built). rewrite <-app_assoc. split; [done|].
  split; [simpl; by rewrite Hlen|].
  destruct built as [|b built] using rev_ind; [done|].
  by rewrite app_comm_cons, !last_snoc.
Qed.

(** X26. When [newTransformPipeline] succeeds, the source was not nil, and
    the reader handed to [camera.NewVideoSourceFromReader] has one pipeline
    element for each configured transform, at least one; its [src] is the
    last element and its intrinsic parameters are those of the config. On
    such a reader [NextPointCloud] does not panic. *)
Theorem newTransformPipeline_reader source named (cfg : transformConfig) r
    logger v :
  newTransformPipeline source named cfg r logger = Ok v →
  ∃ tp model streamType lastElem,
    NewVideoSourceFromReader tp model streamType = Ok v
    ∧ is_Some source
    ∧ length (pipeline tp) = length (Pipeline cfg)
    ∧ 0 < length (pipeline tp)
    ∧ last (pipeline tp) = Some lastElem
    ∧ src tp = streamCamera lastElem
    ∧ intrinsicParameters tp = CameraParameters cfg
    ∧ NextPointCloud tp ≠ Panics.
Proof.
  unfold newTransformPipeline, transformpipeline.newTransformPipeline.
  destruct source as [source|]; [|done].
  destruct (length (Pipeline cfg) =? 0) eqn:Hlen; [done|].
  apply Nat.eqb_neq in Hlen. cbn [videoSourceFromCamera mbind result_bind].
  match goal with
  | |- context [transformpipeline.buildPipeline _ _ _ _ ?r ?trs ?p ?l ?ty] =>
      destruct (buildPipeline r trs p l ty) as [[[pl lastSource] ty']|e] eqn:Hb
  end; [|done].
  cbn [mbind result_bind]. intros Hv.
  apply buildPipeline_spec in Hb as (built & -> & Hbuilt & ->).
  simpl in *. destruct built as [|b built] using rev_ind; [simpl in *; lia|].
  clear IHbuilt. rewrite last_snoc in Hv. simpl in Hv.
  do 3 eexists. exists b. split; [exact Hv|]. simpl.
  split; [by eexists|]. split; [done|]. split; [lia|].
  split; [apply last_snoc|]. split; [done|]. split; [done|].
  rewrite NextPointCloud_panics. simpl. by destruct built.
Qed.

End Pipeline.

Lemma newTransformPipeline_reader_witness :
  ∃ tp model streamType lastElem,
    toy_NewVideoSourceFromReader tp model streamType = Ok (extVideoSource 2)
    ∧ is_Some (Some (@extVideoSource nat unit unit 0))
    ∧ length (pipeline tp) = length (Pipeline toy_transformConfig)
    ∧ 0 < length (pipeline tp)
    ∧ last (pipeline tp) = Some lastElem
    ∧ src tp = streamCamera lastElem
    ∧ intrinsicParameters tp = CameraParameters toy_transformConfig
    ∧ NextPointCloud (λ msg, msg) (λ a b, b +:+ ": " +:+ a) (λ _, None)
        (λ pcs : unit, Ok ()) tp ≠ @Panics (result string unit).
Proof.
  apply (newTransformPipeline_reader (λ msg, msg) (λ a b, b +:+ ": " +:+ a)
           (λ a b, a +:+ ": " +:+ b) "unspecified" "depth" "color"
           (λ _ : unit, Ok ()) (λ _, Ok true) (λ img : bool, img) (λ _, false)
           toy_buildTransform (λ _ _, ()) (λ _, None) (λ pcs : unit, Ok ())
           toy_NewVideoSourceFromReader (Some (extVideoSource 0)) ()
           toy_transformConfig () ()
           (extVideoSource 2)).
  vm_compute. reflexivity.
Defined.

End transformpipeline_facts.
